(** * arkus-scraper-worker: a shallow embedding of the scraping engine

    The development follows the JavaScript sources:
    - [scripts/hotel_propio.js]   ([scrapeBookingPrices] and
      [scrapeMultipleDates] with its inner [processRange]);
    - [scripts/scrape_songkick.js] ([scrapeSongkick] and its in-page
      extraction callback, [toKm]);
    - [scripts/scrapeo_geo.js]    ([EventsFetcher.getAllEvents]).

    Conventions.
    - A JavaScript string is the list of its UTF-16 code units.
    - A calendar date [toISOString().split('T')[0]] is represented by the
      index of its UTC day (milliseconds since the epoch divided by
      86400000); the textual rendering is a bijection on day indices.
    - The browser and the network are an oracle: a record that gives, for
      every call site of the program (and every loop index where the call
      sits in a loop), what the awaited call produced, or that it threw.
      Every call site is executed at most once per index, so this covers
      every behaviour of the outside world.
    - The DOM is seen through the queries the in-page callbacks make: a
      page is the record of the answers to those queries.
    - [browser.close()] is taken to fulfil.
    - A JavaScript number is an IEEE 754 double, a primitive float.  The
      [Math] functions that ECMAScript leaves to the implementation
      ([sin], [cos], [atan2], [sqrt]) are those of the engine the code runs
      in, given with the page. *)

From Stdlib Require Import String Ascii.
From Stdlib Require Import ZArith NArith Arith Bool List Lia.
From Stdlib Require Import Permutation.
From Stdlib Require Floats.
Import ListNotations.

#[local] Open Scope Z_scope.

(* ================================================================== *)
(** * Date ranges of the multi-day scheduler *)
(* ================================================================== *)

Module Partition.

(** [const dateRanges = [ [0, Math.min(30, days-1)], [31, Math.min(60, days-1)],
    [61, Math.min(90, days-1)] ].filter(([a,b]) => a <= b)] *)
Definition dateRanges (days : Z) : list (Z * Z) :=
  filter (fun r => fst r <=? snd r)
    [ (0, Z.min 30 (days - 1));
      (31, Z.min 60 (days - 1));
      (61, Z.min 90 (days - 1)) ].

(** Day offsets visited by [for (offset = start; offset <= end; offset++)]. *)
Definition offsets (r : Z * Z) : list Z :=
  map (fun k => fst r + Z.of_nat k) (seq 0 (Z.to_nat (snd r - fst r + 1))).

Definition allOffsets (rs : list (Z * Z)) : list Z := flat_map offsets rs.

(** A day offset lies in one of the inclusive ranges. *)
Definition covered (rs : list (Z * Z)) (d : Z) : Prop :=
  exists r, In r rs /\ fst r <= d <= snd r.

Definition disjoint (r1 r2 : Z * Z) : Prop :=
  forall d, ~ (fst r1 <= d <= snd r1 /\ fst r2 <= d <= snd r2).

(** [chain s rs e]: the ranges are non-empty, the first starts at [s],
    each one starts right after the previous one ends, the last ends
    at [e]. *)
Inductive chain : Z -> list (Z * Z) -> Z -> Prop :=
| chain_last : forall a b, a <= b -> chain a [(a, b)] b
| chain_next : forall a b rs e,
    a <= b -> chain (b + 1) rs e -> chain a ((a, b) :: rs) e.

#[local] Hint Constructors chain : core.

Lemma chain_bounds : forall s rs e, chain s rs e -> s <= e.
Proof. induction 1; lia. Qed.

Lemma chain_starts : forall s rs e r,
    chain s rs e -> In r rs -> s <= fst r /\ snd r <= e.
Proof.
  induction 1 as [a b Hab | a b rs e Hab Hc IH]; intros Hin.
  - destruct Hin as [<- | []]; simpl; lia.
  - destruct Hin as [<- | Hin].
    + apply chain_bounds in Hc. simpl; lia.
    + specialize (IH Hin). lia.
Qed.

Lemma chain_covered : forall s rs e,
    chain s rs e -> forall d, covered rs d <-> s <= d <= e.
Proof.
  induction 1 as [a b Hab | a b rs e Hab Hc IH]; intros d; split.
  - intros (r & [<- | []] & Hd). simpl in Hd. lia.
  - intros Hd. exists (a, b). simpl. auto.
  - intros (r & [<- | Hin] & Hd).
    + apply chain_bounds in Hc. simpl in Hd. lia.
    + assert (b + 1 <= d <= e) by (apply IH; exists r; auto). lia.
  - intros Hd. destruct (Z_le_gt_dec d b) as [Hle | Hgt].
    + exists (a, b). simpl. split; [auto | lia].
    + destruct (proj2 (IH d)) as (r & Hin & Hr); [lia |].
      exists r. simpl. auto.
Qed.

Lemma chain_disjoint : forall s rs e,
    chain s rs e -> ForallOrdPairs disjoint rs.
Proof.
  induction 1 as [a b Hab | a b rs e Hab Hc IH].
  - repeat constructor.
  - constructor; [| exact IH].
    apply Forall_forall. intros r Hin d [H1 H2].
    destruct (chain_starts _ _ _ r Hc Hin) as [Hs _]. simpl in H1. lia.
Qed.

Lemma offsets_spec : forall r d, In d (offsets r) <-> fst r <= d <= snd r.
Proof.
  intros [a b] d. unfold offsets. simpl. rewrite in_map_iff. split.
  - intros (k & <- & Hk). apply in_seq in Hk. lia.
  - intros Hd. exists (Z.to_nat (d - a)). split; [lia |].
    apply in_seq. lia.
Qed.

Lemma allOffsets_spec : forall rs d, In d (allOffsets rs) <-> covered rs d.
Proof.
  intros rs d. unfold allOffsets, covered. rewrite in_flat_map.
  split; intros (r & Hin & Hd); exists r; split; auto;
    now apply offsets_spec.
Qed.

(** The three shapes the filtered list takes on windows of 1 to 90 days. *)
Lemma dateRanges_cases : forall days,
    1 <= days <= 90 ->
    (days <= 31 /\ dateRanges days = [(0, days - 1)]) \/
    (32 <= days <= 61 /\ dateRanges days = [(0, 30); (31, days - 1)]) \/
    (62 <= days /\ dateRanges days = [(0, 30); (31, 60); (61, days - 1)]).
Proof.
  intros days Hd. unfold dateRanges. simpl.
  destruct (Z_le_gt_dec days 31); [left | right;
    destruct (Z_le_gt_dec days 61); [left | right]];
    (split; [lia |]);
    repeat match goal with
      | |- context [Z.min ?a ?b] =>
          first [rewrite (Z.min_l a b) by lia | rewrite (Z.min_r a b) by lia]
      end;
    repeat match goal with
      | |- context [?a <=? ?b] =>
          first [rewrite (proj2 (Z.leb_le a b)) by lia
                | rewrite (proj2 (Z.leb_gt a b)) by lia]
      end; reflexivity.
Qed.

Lemma map_seq_from : forall (f : nat -> Z) n len,
    map f (seq n len) = map (fun k => f (n + k)%nat) (seq 0 len).
Proof.
  intros f n len. revert f n.
  induction len as [| len IH]; intros f n; simpl; [reflexivity |].
  rewrite Nat.add_0_r. f_equal.
  rewrite (IH f (S n)), (IH (fun k => f (n + k)%nat) 1%nat).
  apply map_ext. intros k. f_equal. lia.
Qed.

(** The offsets of a chain of ranges, in visiting order, are the integers
    from its start to its end. *)
Lemma chain_allOffsets : forall s rs e,
    chain s rs e ->
    allOffsets rs = map (fun k => s + Z.of_nat k) (seq 0 (Z.to_nat (e - s + 1))).
Proof.
  induction 1 as [a b Hab | a b rs e Hab Hc IH].
  - unfold allOffsets. simpl. now rewrite app_nil_r.
  - pose proof (chain_bounds _ _ _ Hc) as Hb.
    unfold allOffsets in *. simpl. rewrite IH. unfold offsets. simpl.
    replace (Z.to_nat (e - a + 1))
      with (Z.to_nat (b - a + 1) + Z.to_nat (e - (b + 1) + 1))%nat by lia.
    rewrite seq_app, map_app. f_equal.
    rewrite (map_seq_from _ (0 + Z.to_nat (b - a + 1))%nat).
    apply map_ext_in. intros k _. lia.
Qed.

Lemma dateRanges_chain : forall days,
    1 <= days <= 90 -> chain 0 (dateRanges days) (days - 1).
Proof.
  intros days Hd.
  destruct (dateRanges_cases days Hd) as [[H ->] | [[H ->] | [H ->]]];
    repeat (first [apply chain_last | apply chain_next]; try lia).
Qed.

Lemma dateRanges_offsets : forall days,
    1 <= days <= 90 ->
    allOffsets (dateRanges days) = map Z.of_nat (seq 0 (Z.to_nat days)).
Proof.
  intros days Hd. rewrite (chain_allOffsets _ _ _ (dateRanges_chain days Hd)).
  replace (days - 1 - 0 + 1) with days by lia. reflexivity.
Qed.

(** Windows of any length: nothing for [days <= 0], and never beyond
    offset 90. *)
Lemma dateRanges_any : forall days,
    (days <= 0 /\ dateRanges days = []) \/
    (1 <= days /\ chain 0 (dateRanges days) (Z.min days 91 - 1)).
Proof.
  intros days. destruct (Z_le_gt_dec days 0) as [H0 | H0]; [left | right];
    (split; [lia |]).
  - unfold dateRanges. simpl.
    repeat match goal with
      | |- context [?a <=? ?b] =>
          first [rewrite (proj2 (Z.leb_le a b)) by lia
                | rewrite (proj2 (Z.leb_gt a b)) by lia]
      end. reflexivity.
  - destruct (Z_le_gt_dec days 90) as [H90 | H90].
    + rewrite Z.min_l by lia. apply dateRanges_chain. lia.
    + rewrite Z.min_r by lia. unfold dateRanges. simpl.
      repeat match goal with
        | |- context [Z.min ?a ?b] =>
            first [rewrite (Z.min_l a b) by lia | rewrite (Z.min_r a b) by lia]
        end. simpl.
      repeat (first [apply chain_last | apply chain_next]; try lia).
Qed.

Lemma dateRanges_offsets_any : forall days,
    allOffsets (dateRanges days) = map Z.of_nat (seq 0 (Z.to_nat (Z.min days 91))).
Proof.
  intros days. destruct (dateRanges_any days) as [[H ->] | [H Hc]].
  - now replace (Z.to_nat (Z.min days 91)) with 0%nat by lia.
  - rewrite (chain_allOffsets _ _ _ Hc).
    replace (Z.min days 91 - 1 - 0 + 1) with (Z.min days 91) by lia.
    reflexivity.
Qed.

Lemma dateRanges_offsets_NoDup : forall days, NoDup (allOffsets (dateRanges days)).
Proof.
  intros days. rewrite dateRanges_offsets_any.
  apply Finite.Injective_map_NoDup; [| apply seq_NoDup].
  intros a b H. lia.
Qed.

Lemma dateRanges_disjoint : forall days, ForallOrdPairs disjoint (dateRanges days).
Proof.
  intros days. destruct (dateRanges_any days) as [[_ ->] | [_ Hc]].
  - constructor.
  - exact (chain_disjoint _ _ _ Hc).
Qed.

Lemma dateRanges_length : forall days, (length (dateRanges days) <= 3)%nat.
Proof.
  intros days. unfold dateRanges.
  match goal with |- (length (filter ?f ?l) <= _)%nat =>
    pose proof (filter_length_le f l) as H end.
  simpl in *. exact H.
Qed.

(** C4. For a window of 1 to 90 days, [dateRanges] is a list of at most
    three inclusive ranges; each is non-empty, the first starts at offset 0,
    each next one starts right after the previous one ends, the last ends at
    [days - 1] (contiguity); no offset lies in two of them; and an offset is
    covered exactly when it lies in [0, days - 1]. *)
Theorem dateRanges_partition : forall days,
    1 <= days <= 90 ->
    (length (dateRanges days) <= 3)%nat /\
    chain 0 (dateRanges days) (days - 1) /\
    ForallOrdPairs disjoint (dateRanges days) /\
    (forall d, covered (dateRanges days) d <-> 0 <= d <= days - 1).
Proof.
  intros days Hd. pose proof (dateRanges_chain days Hd) as Hc.
  split; [| split; [exact Hc | split]].
  - destruct (dateRanges_cases days Hd) as [[_ ->] | [[_ ->] | [_ ->]]];
      simpl; lia.
  - exact (chain_disjoint _ _ _ Hc).
  - exact (chain_covered _ _ _ Hc).
Qed.

Lemma dateRanges_partition_witness :
  1 <= 45 <= 90 /\
  dateRanges 45 = [(0, 30); (31, 44)] /\
  (forall d, covered (dateRanges 45) d <-> 0 <= d <= 45 - 1).
Proof.
  split; [lia |]. split; [reflexivity |].
  apply (dateRanges_partition 45). lia.
Defined.

End Partition.

(* ================================================================== *)
(** * JavaScript strings and the text functions the extractors use *)
(* ================================================================== *)

Module JsString.

(** A string is the list of its UTF-16 code units. *)
Definition str : Type := list N.

(** An ASCII literal as a JavaScript string. *)
Definition lit (s : string) : str := map N_of_ascii (list_ascii_of_string s).

Definition str_eq_dec : forall a b : str, {a = b} + {a <> b} :=
  list_eq_dec N.eq_dec.

(** [a === b] on strings. *)
Definition str_eqb (a b : str) : bool := if str_eq_dec a b then true else false.

(** [set.has(x)] for a [Set] of strings, kept as the list of its members. *)
Definition has (seen : list str) (x : str) : bool := existsb (str_eqb x) seen.

(** Truthiness of a string: [!s] holds exactly for the empty string. *)
Definition nonEmpty (s : str) : bool :=
  match s with [] => false | _ :: _ => true end.

(** [s.length > 3] *)
Definition longerThan3 (s : str) : bool := (3 <? length s)%nat.

(** White space and line terminators: the characters [String.prototype.trim]
    strips and the class [\s] matches (TAB, LF, VT, FF, CR, SP, NBSP,
    U+1680, U+2000..U+200A, LS, PS, U+202F, U+205F, U+3000, BOM). *)
Definition isWhiteSpace (c : N) : bool :=
  ((9 <=? c) && (c <=? 13) || (c =? 32) || (c =? 160) || (c =? 5760)
   || (8192 <=? c) && (c <=? 8202) || (c =? 8232) || (c =? 8233)
   || (c =? 8239) || (c =? 8287) || (c =? 12288) || (c =? 65279))%N.

Fixpoint trimStart (s : str) : str :=
  match s with
  | [] => []
  | c :: r => if isWhiteSpace c then trimStart r else s
  end.

Definition trimEnd (s : str) : str := rev (trimStart (rev s)).

(** [s.trim()] *)
Definition trim (s : str) : str := trimEnd (trimStart s).

(** [s.replace(/\s+/g, ' ')]: every maximal run of white space becomes one
    space; [inRun] tells that the previous character was white space. *)
Fixpoint collapseFrom (inRun : bool) (s : str) : str :=
  match s with
  | [] => []
  | c :: r =>
      if isWhiteSpace c
      then (if inRun then collapseFrom true r else 32%N :: collapseFrom true r)
      else c :: collapseFrom false r
  end.

Definition collapseWs (s : str) : str := collapseFrom false s.

(** [s.split(sep)] for a one-character separator; [cur] is the piece
    being read, reversed. *)
Fixpoint splitFrom (sep : N) (cur : str) (s : str) : list str :=
  match s with
  | [] => [rev cur]
  | c :: r => if (c =? sep)%N then rev cur :: splitFrom sep [] r
              else splitFrom sep (c :: cur) r
  end.

(** [s.split('\n')] *)
Definition splitLines (s : str) : list str := splitFrom 10 [] s.

(** [s.split(' ')] *)
Definition splitSpaces (s : str) : list str := splitFrom 32 [] s.

(** [parts.join(' ')] *)
Fixpoint joinSpace (parts : list str) : str :=
  match parts with
  | [] => []
  | [p] => p
  | p :: rest => p ++ 32%N :: joinSpace rest
  end.

(** Upper-case partner of a pattern character under the [i] flag.  The
    patterns only hold ASCII lower-case letters, [.] and U+00E1; without
    the [u] flag a non-ASCII character never folds to an ASCII one, so a
    pattern letter matches its two ASCII cases only, and U+00E1 matches
    U+00E1 and U+00C1. *)
Definition upperOf (p : N) : N :=
  (if (97 <=? p) && (p <=? 122) then p - 32
   else if p =? 225 then 193 else p)%N.

Definition ciChar (p c : N) : bool := ((c =? p) || (c =? upperOf p))%N.

(** The pattern [pat], read case-insensitively, matches at the start of [s]. *)
Fixpoint ciPrefix (pat s : str) : bool :=
  match pat, s with
  | [], _ => true
  | _ :: _, [] => false
  | p :: pat', c :: s' => ciChar p c && ciPrefix pat' s'
  end.

(** The pattern matches somewhere in [s]. *)
Fixpoint ciContains (pat s : str) : bool :=
  ciPrefix pat s ||
  match s with
  | [] => false
  | _ :: r => ciContains pat r
  end.

(** [/^(max\.|máx\.|max|solo|only|capacidad|occupancy)/i.test(s)] *)
Definition capacityLead (s : str) : bool :=
  existsb (fun pat => ciPrefix pat s)
    [ lit "max."; [109; 225; 120; 46]%N; lit "max"; lit "solo"; lit "only";
      lit "capacidad"; lit "occupancy" ].

(** [/(people|personas|guests?)/i.test(s)] *)
Definition capacityWord (s : str) : bool :=
  existsb (fun pat => ciContains pat s)
    [ lit "people"; lit "personas"; lit "guests"; lit "guest" ].

(** The cleaning chain of the room-type label:
    [.split('\n').map(s => s.trim()).filter(s => s && !/^(max...)/i.test(s)
      && !/(people|personas|guests?)/i.test(s)).join(' ')
     .replace(/\s+/g, ' ').trim()] *)
Definition cleanLabel (raw : str) : str :=
  trim (collapseWs (joinSpace
    (filter (fun s => nonEmpty s && negb (capacityLead s) && negb (capacityWord s))
       (map trim (splitLines raw))))).

(** [tx.replace(/\s+/g,' ').trim()] *)
Definition squeeze (raw : str) : str := trim (collapseWs raw).

(** Longest prefix of characters in a class, and the rest. *)
Fixpoint span (p : N -> bool) (s : str) : str * str :=
  match s with
  | [] => ([], [])
  | c :: r => if p c then let (a, b) := span p r in (c :: a, b) else ([], s)
  end.

Fixpoint stripPrefix (pre s : str) : option str :=
  match pre, s with
  | [], _ => Some s
  | _ :: _, [] => None
  | p :: pre', c :: s' => if (p =? c)%N then stripPrefix pre' s' else None
  end.

(** [s.startsWith(pre)] *)
Definition startsWith (pre s : str) : bool :=
  match stripPrefix pre s with Some _ => true | None => false end.

(** [s.includes(sub)] *)
Fixpoint includes (sub s : str) : bool :=
  startsWith sub s ||
  match s with
  | [] => false
  | _ :: r => includes sub r
  end.

(** [toLowerCase] on the ASCII letters, other characters unchanged: the
    reading of the samples, which are ASCII. *)
Definition asciiLower (s : str) : str :=
  map (fun c => if (65 <=? c) && (c <=? 90) then c + 32 else c)%N s.

(** The string has no lone surrogate: [encodeURIComponent] throws a
    [URIError] exactly on the strings that have one. *)
Fixpoint wellFormed (s : str) : bool :=
  match s with
  | [] => true
  | c :: r =>
      if ((55296 <=? c) && (c <=? 56319))%N then
        match r with
        | d :: r' => ((56320 <=? d) && (d <=? 57343))%N && wellFormed r'
        | [] => false
        end
      else if ((56320 <=? c) && (c <=? 57343))%N then false
      else wellFormed r
  end.

(** [\d.,] *)
Definition isAmountChar (c : N) : bool :=
  ((48 <=? c) && (c <=? 57) || (c =? 46) || (c =? 44))%N.

(** [\s*[\d.,]+] at the start of [s]: the text it matches. *)
Definition amountAt (s : str) : option str :=
  let (ws, r) := span isWhiteSpace s in
  let (num, _) := span isAmountChar r in
  match num with
  | [] => None
  | _ :: _ => Some (ws ++ num)
  end.

(** [(MXN\s*\$?|\$|USD|EUR)\s*[\d.,]+] at the start of [s].  The four
    alternatives start with different characters, and white space, [$] and
    amount characters are disjoint classes, so the greedy reading below is
    the only way the pattern can match at a position. *)
Definition priceAt (s : str) : option str :=
  match stripPrefix (lit "MXN") s with
  | Some r =>
      let (ws, r1) := span isWhiteSpace r in
      let (dollar, r2) :=
        match r1 with
        | c :: r2 => if (c =? 36)%N then ([36%N], r2) else ([], r1)
        | [] => ([], r1)
        end in
      option_map (fun a => lit "MXN" ++ ws ++ dollar ++ a) (amountAt r2)
  | None =>
      match stripPrefix (lit "$") s with
      | Some r => option_map (fun a => lit "$" ++ a) (amountAt r)
      | None =>
          match stripPrefix (lit "USD") s with
          | Some r => option_map (fun a => lit "USD" ++ a) (amountAt r)
          | None =>
              match stripPrefix (lit "EUR") s with
              | Some r => option_map (fun a => lit "EUR" ++ a) (amountAt r)
              | None => None
              end
          end
      end
  end.

(** [s.match(/(MXN\s*\$?|\$|USD|EUR)\s*[\d.,]+/)]: [m[0]] of the leftmost
    match, or [None] for [null]. *)
Fixpoint priceMatch (s : str) : option str :=
  match priceAt s with
  | Some m => Some m
  | None => match s with
            | [] => None
            | _ :: r => priceMatch r
            end
  end.

(** ** Properties of [trim] *)

Definition headClean (s : str) : Prop :=
  match s with
  | [] => True
  | c :: _ => isWhiteSpace c = false
  end.

Lemma trimStart_headClean : forall s, headClean (trimStart s).
Proof.
  induction s as [| c r IH]; simpl; [exact I |].
  destruct (isWhiteSpace c) eqn:E; [exact IH | exact E].
Qed.

Lemma trimStart_fixed : forall s, headClean s -> trimStart s = s.
Proof. intros [| c r] H; simpl in *; [reflexivity | now rewrite H]. Qed.

Lemma trimStart_suffix : forall s, exists ws, s = ws ++ trimStart s.
Proof.
  induction s as [| c r [ws IH]]; simpl.
  - now exists [].
  - destruct (isWhiteSpace c).
    + exists (c :: ws). simpl. now f_equal.
    + now exists [].
Qed.

Lemma headClean_prefix : forall a b, headClean (a ++ b) -> headClean a.
Proof. intros [| c a] b H; simpl in *; auto. Qed.

Lemma trimEnd_headClean : forall s, headClean s -> headClean (trimEnd s).
Proof.
  intros s H. unfold trimEnd.
  destruct (trimStart_suffix (rev s)) as [ws E].
  apply (f_equal (@rev N)) in E. rewrite rev_involutive, rev_app_distr in E.
  rewrite E in H. exact (headClean_prefix _ _ H).
Qed.

Lemma trim_fixed : forall s,
    headClean s -> headClean (rev s) -> trim s = s.
Proof.
  intros s H1 H2. unfold trim, trimEnd.
  rewrite (trimStart_fixed s H1), (trimStart_fixed _ H2).
  apply rev_involutive.
Qed.

Lemma trim_clean : forall s, headClean (trim s) /\ headClean (rev (trim s)).
Proof.
  intros s. split.
  - apply trimEnd_headClean, trimStart_headClean.
  - unfold trim, trimEnd. rewrite rev_involutive. apply trimStart_headClean.
Qed.

(** Trimming twice is trimming once. *)
Lemma trim_idempotent : forall s, trim (trim s) = trim s.
Proof. intros s. destruct (trim_clean s). now apply trim_fixed. Qed.

Lemma str_eqb_eq : forall a b, str_eqb a b = true <-> a = b.
Proof.
  intros a b. unfold str_eqb. destruct (str_eq_dec a b); split; congruence.
Qed.

Lemma has_In : forall seen x, has seen x = true <-> In x seen.
Proof.
  intros seen x. unfold has. rewrite existsb_exists. split.
  - intros (y & Hy & E). apply str_eqb_eq in E. now subst.
  - intros H. exists x. split; [exact H | now apply str_eqb_eq].
Qed.

Lemma has_false : forall seen x, has seen x = false <-> ~ In x seen.
Proof.
  intros seen x. rewrite <- has_In. destruct (has seen x); split; congruence.
Qed.

(** Some readings of the text functions. *)
Example trim_sample : trim (lit "  Deluxe  Room ") = lit "Deluxe  Room".
Proof. reflexivity. Qed.

Example cleanLabel_sample :
  cleanLabel (lit "Deluxe   Room" ++ [10%N] ++ lit " Max. people: 2 "
              ++ [10%N] ++ lit "2 guests") = lit "Deluxe Room".
Proof. reflexivity. Qed.

Example priceMatch_sample :
  priceMatch (lit "Price MXN $ 1,234.50 per night") = Some (lit "MXN $ 1,234.50").
Proof. reflexivity. Qed.

Example priceMatch_none : priceMatch (lit "sold out") = None.
Proof. reflexivity. Qed.

End JsString.

(* ================================================================== *)
(** * Price records, the rendered page, and the extraction strategies *)
(* ================================================================== *)

Module Rooms.
Import JsString.

Inductive Source : Type := HprtTable | Generic.

(** [{ room_type, price, source }]; the retry and multi-day extractors
    leave [source] out. *)
Record Room : Type := mkRoom {
  room_type : str;
  price : str;
  source : option Source
}.

(** [{ date, rooms }]; [date] is the UTC day index of the check-in day. *)
Record DayEntry : Type := mkDay {
  date : Z;
  rooms : list Room
}.

(** A table cell as the extractors query it. *)
Record Cell : Type := mkCell {
  (** [cell.textContent] *)
  cell_text : str;
  (** [cell.querySelector(sel)?.textContent] for each of the seven
      [nameSelectors], in their order *)
  cell_names : list (option str);
  (** [cell.querySelector('.hprt-roomtype-icon-link, ..., h3, h2')
      ?.textContent], the selectors joined into one query *)
  cell_nameAny : option str
}.

(** A [tr] of the pricing table. *)
Record Row : Type := mkRow {
  (** [row.querySelectorAll('td, th')] *)
  row_cells : list Cell;
  (** [row.querySelector('.prco-valign-middle-helper')?.textContent] *)
  row_priceEl : option str
}.

(** A price-bearing element of the generic scan. *)
Record Candidate : Type := mkCand {
  (** [el.textContent] *)
  cand_text : str;
  (** [container.querySelector(sel)?.textContent] for each of the ten
      label selectors, in their order, in the container [el.closest(...)] *)
  cand_near : list (option str);
  (** [el.closest('tr').children[0].textContent] when the element sits in a
      row that has children *)
  cand_rowFirst : option str
}.

(** What an in-page callback sees of the document. *)
Record Dom : Type := mkDom {
  (** [document.querySelector('#hprt-table, .hprt-table')] and its [tr]s *)
  hprtTable : option (list Row);
  (** [document.querySelectorAll('[data-testid*="RoomRow"], ...')] *)
  priceEls : list Candidate
}.

(** The dedupe key [(r.room_type || '').trim()]. *)
Definition keyOf (r : Room) : str := trim (room_type r).

(** [for (const r of roomData) { const key = (r.room_type || '').trim();
      if (!key || seen.has(key)) continue; seen.add(key); out.push(r) }] *)
Fixpoint firstByType (seen : list str) (roomData : list Room) : list Room :=
  match roomData with
  | [] => []
  | r :: rest =>
      let key := keyOf r in
      if negb (nonEmpty key) || has seen key
      then firstByType seen rest
      else r :: firstByType (key :: seen) rest
  end.

Definition firstPriceByType (roomData : list Room) : list Room :=
  firstByType [] roomData.

(** The first record of a list that carries a given key. *)
Definition firstWithKey (k : str) (l : list Room) : option Room :=
  find (fun x => str_eqb (keyOf x) k) l.

(** A price variable is falsy when it is [null] or the empty string. *)
Definition falsy (p : option str) : bool :=
  match p with
  | Some (_ :: _) => false
  | _ => true
  end.

(** [for (const sel of sels) { const txt = el?.textContent?.trim();
      if (txt && txt.length > 3) { ...accept(txt)... } }]: the first answer
    whose trimmed text is longer than 3 and that [accept] turns into a
    usable label. *)
Fixpoint firstLabel (accept : str -> option str) (answers : list (option str))
  : option str :=
  match answers with
  | [] => None
  | None :: rest => firstLabel accept rest
  | Some t :: rest =>
      let txt := trim t in
      if nonEmpty txt && longerThan3 txt
      then match accept txt with
           | Some l => Some l
           | None => firstLabel accept rest
           end
      else firstLabel accept rest
  end.

(** Scan of the cells from the last one to the first for a price:
    [for (let i = cells.length - 1; i >= 0; i--) { const cellText =
      cells[i]?.textContent?.trim(); if (cellText) { const priceMatch =
      cellText.match(...); if (priceMatch) { price = priceMatch[0]; break } } }] *)
Fixpoint scanCells (cellsRev : list Cell) : option str :=
  match cellsRev with
  | [] => None
  | c :: rest =>
      let cellText := trim (cell_text c) in
      if nonEmpty cellText
      then match priceMatch cellText with
           | Some m => Some m
           | None => scanCells rest
           end
      else scanCells rest
  end.

(** The price of a row: the dedicated element first, then the cells. *)
Definition rowPrice (row : Row) : option str :=
  let price :=
    match row_priceEl row with
    | Some t => if nonEmpty t then priceMatch (trim t) else None
    | None => None
    end in
  if falsy price then scanCells (rev (row_cells row)) else price.

(** ** Primary strategy of [scrapeBookingPrices]: the [hprt-table] rows *)

(** The body of [rows.forEach(row => { ... })]; the state is [results]
    and [seenTypes]. *)
Definition hprtRow (st : list Room * list str) (row : Row)
  : list Room * list str :=
  let (results, seenTypes) := st in
  match row_cells row with
  | roomTypeCell :: _ :: _ =>
      let roomTypeRaw :=
        match firstLabel Some (cell_names roomTypeCell) with
        | Some txt => txt
        | None => trim (cell_text roomTypeCell)
        end in
      let roomType := cleanLabel roomTypeRaw in
      if negb (nonEmpty roomType) || negb (longerThan3 roomType) then st
      else if has seenTypes roomType then st
      else
        match rowPrice row with
        | Some (c :: p) =>
            (results ++ [mkRoom roomType (c :: p) (Some HprtTable)],
             roomType :: seenTypes)
        | _ => st
        end
  | _ => st
  end.

Definition hprtStrategy (dom : Dom) : list Room :=
  match hprtTable dom with
  | Some rows => fst (fold_left hprtRow rows ([], []))
  | None => []
  end.

(** ** Fallback strategy of [scrapeBookingPrices]: the generic scan *)

Definition cleanedLabel (txt : str) : option str :=
  let cleaned := cleanLabel txt in
  if nonEmpty cleaned && longerThan3 cleaned then Some cleaned else None.

(** [getRoomTypeNear(el)]; [None] stands for the empty label. *)
Definition getRoomTypeNear (el : Candidate) : option str :=
  match firstLabel cleanedLabel (cand_near el) with
  | Some l => Some l
  | None => firstLabel cleanedLabel [cand_rowFirst el]
  end.

(** [results.some(r => r.room_type === roomType && r.price === m[0])] *)
Definition somePair (results : list Room) (roomType p : str) : bool :=
  existsb (fun r => str_eqb (room_type r) roomType && str_eqb (price r) p) results.

Definition genericEl (results : list Room) (el : Candidate) : list Room :=
  match priceMatch (trim (cand_text el)) with
  | None => results
  | Some m =>
      match getRoomTypeNear el with
      | None => results
      | Some roomType =>
          if somePair results roomType m then results
          else results ++ [mkRoom roomType m (Some Generic)]
      end
  end.

Definition genericStrategy (dom : Dom) : list Room :=
  fold_left genericEl (priceEls dom) [].

(** ** The one-callback extractors of the retry loop and of [processRange] *)

(** [tx.replace(/\s+/g,' ').trim()] of the first answer longer than 3. *)
Definition nearName (el : Candidate) : option str :=
  match firstLabel (fun tx => Some (squeeze tx)) (cand_near el) with
  | Some l => Some l
  | None => firstLabel (fun tx => Some (squeeze tx)) [cand_rowFirst el]
  end.

(** The body of the fallback [forEach]; the state is [out] and [seen]. *)
Definition nearEl (st : list Room * list str) (el : Candidate)
  : list Room * list str :=
  let (out, seen) := st in
  match priceMatch (trim (cand_text el)) with
  | None => st
  | Some m =>
      match nearName el with
      | None => st
      | Some name =>
          if negb (nonEmpty name) || has seen name then st
          else (out ++ [mkRoom name m None], name :: seen)
      end
  end.

(** Price of a row by its cells alone, last cell first:
    [const t = cells[i]?.textContent?.trim() || ''; const m = t.match(...)] *)
Fixpoint scanCellsPlain (cellsRev : list Cell) : option str :=
  match cellsRev with
  | [] => None
  | c :: rest =>
      match priceMatch (trim (cell_text c)) with
      | Some m => Some m
      | None => scanCellsPlain rest
      end
  end.

(** A table row in the retry loop: the name is the text of the first cell. *)
Definition retryRow (st : list Room * list str) (row : Row)
  : list Room * list str :=
  let (out, seen) := st in
  match row_cells row with
  | c0 :: _ :: _ =>
      let name := squeeze (trim (cell_text c0)) in
      if negb (nonEmpty name) || has seen name then st
      else
        match scanCellsPlain (rev (row_cells row)) with
        | Some (c :: p) => (out ++ [mkRoom name (c :: p) None], name :: seen)
        | _ => st
        end
  | _ => st
  end.

(** A table row in [processRange]: the name element first, then the cell
    text; the price element first, then the cells. *)
Definition rangeRow (st : list Room * list str) (row : Row)
  : list Room * list str :=
  let (out, seen) := st in
  match row_cells row with
  | c0 :: _ :: _ =>
      let nameRaw :=
        match cell_nameAny c0 with
        | Some (c :: t) => trim (c :: t)
        | _ => trim (cell_text c0)
        end in
      let name := squeeze nameRaw in
      if negb (nonEmpty name) || has seen name then st
      else
        let price :=
          match row_priceEl row with
          | Some t => if nonEmpty t then priceMatch (trim t) else None
          | None => None
          end in
        let price :=
          if falsy price then scanCellsPlain (rev (row_cells row)) else price in
        match price with
        | Some (c :: p) => (out ++ [mkRoom name (c :: p) None], name :: seen)
        | _ => st
        end
  | _ => st
  end.

(** [if (table) { rows.forEach(rowBody) }  if (out.length === 0) { fallback }] *)
Definition tableThenNear
  (rowBody : list Room * list str -> Row -> list Room * list str) (dom : Dom)
  : list Room :=
  let st :=
    match hprtTable dom with
    | Some rows => fold_left rowBody rows ([], [])
    | None => ([], [])
    end in
  match fst st with
  | [] => fst (fold_left nearEl (priceEls dom) st)
  | _ :: _ => fst st
  end.

Definition retryExtract (dom : Dom) : list Room := tableThenNear retryRow dom.
Definition rangeExtract (dom : Dom) : list Room := tableThenNear rangeRow dom.

(** The natural keys of the records of a collection: the room type within
    its date. *)
Definition naturalKeys (out : list DayEntry) : list (Z * str) :=
  flat_map (fun e => map (fun r => (date e, room_type r)) (rooms e)) out.

(** The rooms of an entry are what the dedupe loop kept of the candidate
    records of its day: for each key, the first candidate that carried it. *)
Definition keptFrom (candidates : list Room) (e : DayEntry) : Prop :=
  rooms e = firstPriceByType candidates /\
  forall r, In r (rooms e) -> firstWithKey (keyOf r) candidates = Some r.

(** The table part of a one-callback extractor. *)
Definition tablePart
  (rowBody : list Room * list str -> Row -> list Room * list str) (dom : Dom)
  : list Room :=
  match hprtTable dom with
  | Some rows => fst (fold_left rowBody rows ([], []))
  | None => []
  end.

(** A label list that the dedupe loop leaves alone: the labels are
    already trimmed, non-empty and pairwise different. *)
Definition clean (out : list Room) : Prop :=
  NoDup (map room_type out) /\
  forall r, In r out -> keyOf r = room_type r /\ nonEmpty (room_type r) = true.

(** The state of a [forEach] over rows: [seen] holds the labels pushed. *)
Definition tracked (st : list Room * list str) : Prop :=
  clean (fst st) /\ forall x, In x (snd st) <-> In x (map room_type (fst st)).

(** ** Properties of the dedupe loop *)

Lemma firstByType_fresh : forall l seen r,
    In r (firstByType seen l) ->
    nonEmpty (keyOf r) = true /\ ~ In (keyOf r) seen.
Proof.
  induction l as [| x rest IH]; intros seen r Hin; simpl in Hin; [easy |].
  destruct (negb (nonEmpty (keyOf x)) || has seen (keyOf x)) eqn:E.
  - exact (IH _ _ Hin).
  - apply orb_false_iff in E. destruct E as [E1 E2].
    apply negb_false_iff in E1. apply has_false in E2.
    destruct Hin as [<- | Hin]; [now split |].
    destruct (IH _ _ Hin) as [H1 H2]. split; [exact H1 |].
    intros H. apply H2. now right.
Qed.

Lemma firstByType_NoDup_keys : forall l seen,
    NoDup (map keyOf (firstByType seen l)).
Proof.
  induction l as [| x rest IH]; intros seen; simpl; [constructor |].
  destruct (negb (nonEmpty (keyOf x)) || has seen (keyOf x)); [apply IH |].
  simpl. constructor; [| apply IH].
  intros Hin. apply in_map_iff in Hin. destruct Hin as (r & Hk & Hr).
  destruct (firstByType_fresh _ _ _ Hr) as [_ Hf].
  apply Hf. left. now symmetry.
Qed.

Lemma NoDup_map_inner : forall (A B C : Type) (f : B -> C) (g : A -> B) l,
    NoDup (map (fun x => f (g x)) l) -> NoDup (map g l).
Proof.
  intros A B C f g. induction l as [| x l IH]; simpl; intros H; [constructor |].
  inversion H as [| ? ? Hn Hd]; subst. constructor; [| now apply IH].
  intros Hin. apply Hn. apply in_map_iff in Hin.
  destruct Hin as (y & Hy & Hl). apply in_map_iff. exists y.
  split; [now rewrite Hy | exact Hl].
Qed.

Lemma firstByType_NoDup : forall l seen,
    NoDup (map room_type (firstByType seen l)).
Proof.
  intros l seen.
  apply (NoDup_map_inner _ _ _ trim room_type), (firstByType_NoDup_keys l seen).
Qed.

Lemma firstByType_incl : forall l seen r, In r (firstByType seen l) -> In r l.
Proof.
  induction l as [| x rest IH]; intros seen r Hin; simpl in Hin; [easy |].
  destruct (negb (nonEmpty (keyOf x)) || has seen (keyOf x)).
  - right. exact (IH _ _ Hin).
  - destruct Hin as [<- | Hin]; [now left | right; exact (IH _ _ Hin)].
Qed.

(** The record kept for a key is the first record of the input with it. *)
Lemma firstByType_first : forall l seen r,
    In r (firstByType seen l) -> firstWithKey (keyOf r) l = Some r.
Proof.
  unfold firstWithKey.
  induction l as [| x rest IH]; intros seen r Hin; simpl in Hin; [easy |].
  simpl. destruct (negb (nonEmpty (keyOf x)) || has seen (keyOf x)) eqn:E.
  - destruct (firstByType_fresh _ _ _ Hin) as [Hne Hns].
    destruct (str_eqb (keyOf x) (keyOf r)) eqn:Ek; [| exact (IH _ _ Hin)].
    apply str_eqb_eq in Ek. apply orb_true_iff in E.
    destruct E as [E | E].
    + apply negb_true_iff in E. congruence.
    + apply has_In in E. rewrite Ek in E. contradiction.
  - destruct Hin as [<- | Hin].
    + now rewrite (proj2 (str_eqb_eq (keyOf x) (keyOf x)) eq_refl).
    + destruct (firstByType_fresh _ _ _ Hin) as [_ Hns].
      destruct (str_eqb (keyOf x) (keyOf r)) eqn:Ek; [| exact (IH _ _ Hin)].
      apply str_eqb_eq in Ek. exfalso. apply Hns. now left.
Qed.

(** Every key that occurs in the input, is non-empty and was not seen
    before, is represented in the output. *)
Lemma firstByType_kept : forall l seen r,
    firstWithKey (keyOf r) l = Some r ->
    nonEmpty (keyOf r) = true -> ~ In (keyOf r) seen ->
    In r (firstByType seen l).
Proof.
  unfold firstWithKey.
  induction l as [| x rest IH]; intros seen r Hf Hne Hns; simpl in Hf; [easy |].
  simpl. destruct (str_eqb (keyOf x) (keyOf r)) eqn:Ek.
  - injection Hf as ->.
    rewrite Hne, (proj2 (has_false seen (keyOf r)) Hns). now left.
  - assert (Hd : keyOf x <> keyOf r).
    { intros H. apply str_eqb_eq in H. congruence. }
    destruct (negb (nonEmpty (keyOf x)) || has seen (keyOf x)).
    + now apply IH.
    + right. apply IH; auto. intros [H | H]; auto.
Qed.

(** Records with distinct, non-empty, unseen keys pass unchanged. *)
Lemma firstByType_id : forall l seen,
    NoDup (map keyOf l) ->
    (forall r, In r l -> nonEmpty (keyOf r) = true /\ ~ In (keyOf r) seen) ->
    firstByType seen l = l.
Proof.
  induction l as [| x rest IH]; intros seen Hnd Hall; simpl; [reflexivity |].
  inversion Hnd as [| ? ? Hx Hrest]; subst.
  destruct (Hall x (or_introl eq_refl)) as [Hne Hns].
  rewrite Hne, (proj2 (has_false seen (keyOf x)) Hns). simpl. f_equal.
  apply IH; [exact Hrest |].
  intros r Hr. destruct (Hall r (or_intror Hr)) as [H1 H2].
  split; [exact H1 |]. intros [H | H]; [| contradiction].
  apply Hx. rewrite H. now apply in_map.
Qed.

(** ** What the table strategies produce *)

Lemma clean_dedupe : forall out, clean out -> firstPriceByType out = out.
Proof.
  intros out [Hnd Hall]. apply firstByType_id.
  - rewrite (map_ext_in keyOf room_type); [exact Hnd |].
    intros r Hr. now destruct (Hall r Hr).
  - intros r Hr. destruct (Hall r Hr) as [-> H]. now split.
Qed.

Lemma tracked_push : forall out seen name p src,
    tracked (out, seen) ->
    trim name = name -> nonEmpty name = true -> has seen name = false ->
    tracked (out ++ [mkRoom name p src], name :: seen).
Proof.
  intros out seen name p src [[Hnd Hall] Hs] Ht Hne Hh. simpl in *.
  apply has_false in Hh. split; [split |]; simpl.
  - rewrite map_app. simpl. apply NoDup_rev in Hnd.
    rewrite <- (rev_involutive (map room_type out ++ [name])).
    apply NoDup_rev. rewrite rev_app_distr. simpl. constructor; [| exact Hnd].
    rewrite <- in_rev. intros H. apply Hh. now apply Hs.
  - intros r Hr. apply in_app_or in Hr. destruct Hr as [Hr | [<- | []]].
    + now apply Hall.
    + unfold keyOf. simpl. now split.
  - intros x. rewrite map_app, in_app_iff. simpl. rewrite Hs. tauto.
Qed.

Lemma fold_left_tracked :
  forall (A : Type) (body : list Room * list str -> A -> list Room * list str),
    (forall st a, tracked st -> tracked (body st a)) ->
    forall l st, tracked st -> tracked (fold_left body l st).
Proof.
  intros A body Hb. induction l as [| a l IH]; intros st Hst; simpl; auto.
Qed.

Lemma tracked_nil : tracked ([], []).
Proof.
  split; [split |]; simpl; [constructor | easy | tauto].
Qed.

Lemma cleanLabel_trimmed : forall raw, trim (cleanLabel raw) = cleanLabel raw.
Proof. intros raw. apply trim_idempotent. Qed.

Lemma squeeze_trimmed : forall raw, trim (squeeze raw) = squeeze raw.
Proof. intros raw. apply trim_idempotent. Qed.

Lemma hprtRow_tracked : forall st row, tracked st -> tracked (hprtRow st row).
Proof.
  intros [out seen] row Hst. unfold hprtRow.
  destruct (row_cells row) as [| c0 [| c1 cs]]; auto.
  set (raw := match firstLabel Some (cell_names c0) with
              | Some txt => txt | None => trim (cell_text c0) end).
  destruct (nonEmpty (cleanLabel raw)) eqn:E1; simpl; auto.
  destruct (longerThan3 (cleanLabel raw)); simpl; auto.
  destruct (has seen (cleanLabel raw)) eqn:E2; auto.
  destruct (rowPrice row) as [[| c p] |]; auto.
  apply tracked_push; auto using cleanLabel_trimmed.
Qed.

(** The primary strategy returns trimmed, non-empty, pairwise different
    labels: one price per room type. *)
Lemma hprtStrategy_clean : forall dom, clean (hprtStrategy dom).
Proof.
  intros dom. unfold hprtStrategy.
  destruct (hprtTable dom) as [rows |]; [| exact (proj1 tracked_nil)].
  exact (proj1 (fold_left_tracked _ _ hprtRow_tracked rows _ tracked_nil)).
Qed.

Lemma firstLabel_accepts : forall accept answers l,
    firstLabel accept answers = Some l -> exists txt, accept txt = Some l.
Proof.
  intros accept. induction answers as [| [t |] rest IH]; intros l H;
    simpl in H; [easy | | now apply IH].
  destruct (nonEmpty (trim t) && longerThan3 (trim t)); [| now apply IH].
  destruct (accept (trim t)) eqn:E; [| now apply IH].
  injection H as <-. now exists (trim t).
Qed.

Lemma nearName_trimmed : forall el name,
    nearName el = Some name -> trim name = name.
Proof.
  intros el name H. unfold nearName in H.
  assert (Hx : exists txt, Some (squeeze txt) = Some name).
  { destruct (firstLabel _ (cand_near el)) eqn:E.
    - injection H as <-. exact (firstLabel_accepts _ _ _ E).
    - exact (firstLabel_accepts _ _ _ H). }
  destruct Hx as (txt & Hx). injection Hx as <-. apply squeeze_trimmed.
Qed.

Lemma nearEl_tracked : forall st el, tracked st -> tracked (nearEl st el).
Proof.
  intros [out seen] el Hst. unfold nearEl.
  destruct (priceMatch (trim (cand_text el))) as [m |]; auto.
  destruct (nearName el) as [name |] eqn:En; auto.
  destruct (nonEmpty name) eqn:E1; simpl; auto.
  destruct (has seen name) eqn:E2; auto.
  apply tracked_push; auto. exact (nearName_trimmed _ _ En).
Qed.

Lemma retryRow_tracked : forall st row, tracked st -> tracked (retryRow st row).
Proof.
  intros [out seen] row Hst. unfold retryRow.
  destruct (row_cells row) as [| c0 [| c1 cs]]; auto.
  destruct (nonEmpty (squeeze (trim (cell_text c0)))) eqn:E1; simpl; auto.
  destruct (has seen (squeeze (trim (cell_text c0)))) eqn:E2; auto.
  destruct (scanCellsPlain _) as [[| c p] |]; auto.
  apply tracked_push; auto using squeeze_trimmed.
Qed.

Lemma rangeRow_tracked : forall st row, tracked st -> tracked (rangeRow st row).
Proof.
  intros [out seen] row Hst. unfold rangeRow.
  destruct (row_cells row) as [| c0 [| c1 cs]]; auto.
  set (raw := match cell_nameAny c0 with
              | Some (c :: t) => trim (c :: t) | _ => trim (cell_text c0) end).
  destruct (nonEmpty (squeeze raw)) eqn:E1; simpl; auto.
  destruct (has seen (squeeze raw)) eqn:E2; auto.
  match goal with |- tracked (match ?found with _ => _ end) =>
    destruct found as [[| c p] |] end; auto.
  apply tracked_push; auto using squeeze_trimmed.
Qed.

Lemma tableThenNear_clean : forall rowBody dom,
    (forall st row, tracked st -> tracked (rowBody st row)) ->
    clean (tableThenNear rowBody dom).
Proof.
  intros rowBody dom Hb. unfold tableThenNear.
  set (st := match hprtTable dom with
             | Some rows => fold_left rowBody rows ([], [])
             | None => ([], []) end).
  assert (Hst : tracked st).
  { subst st. destruct (hprtTable dom); [| exact tracked_nil].
    apply fold_left_tracked; [exact Hb | exact tracked_nil]. }
  destruct (fst st) eqn:E.
  - exact (proj1 (fold_left_tracked _ _ nearEl_tracked _ _ Hst)).
  - rewrite <- E. exact (proj1 Hst).
Qed.

Lemma retryExtract_clean : forall dom, clean (retryExtract dom).
Proof. intros dom. apply tableThenNear_clean, retryRow_tracked. Qed.

Lemma rangeExtract_clean : forall dom, clean (rangeExtract dom).
Proof. intros dom. apply tableThenNear_clean, rangeRow_tracked. Qed.

Lemma keptFrom_deduped : forall d candidates,
    keptFrom candidates (mkDay d (firstPriceByType candidates)).
Proof.
  intros d candidates. split; [reflexivity |].
  intros r Hr. exact (firstByType_first _ _ _ Hr).
Qed.

Lemma naturalKeys_NoDup : forall out,
    NoDup (map date out) ->
    (forall e, In e out -> NoDup (map room_type (rooms e))) ->
    NoDup (naturalKeys out).
Proof.
  induction out as [| e out IH]; simpl; intros Hd Hr; [constructor |].
  inversion Hd as [| ? ? Hn Hd']; subst.
  apply NoDup_app.
  - rewrite <- (map_map room_type (fun k => (date e, k))).
    apply Finite.Injective_map_NoDup; [| apply Hr; now left].
    intros a b H. now injection H.
  - apply IH; auto.
  - intros [d k] H1 H2. apply in_map_iff in H1.
    destruct H1 as (r & Hk & _). injection Hk as <- _.
    apply in_flat_map in H2. destruct H2 as (e' & He' & H2).
    apply in_map_iff in H2. destruct H2 as (r' & Hk' & _).
    injection Hk' as Hk' _. apply Hn. rewrite <- Hk'. now apply in_map.
Qed.

(** A single deduped entry has unique keys. *)
Lemma naturalKeys_single : forall d roomData,
    NoDup (naturalKeys [mkDay d (firstPriceByType roomData)]).
Proof.
  intros d roomData. apply naturalKeys_NoDup; simpl.
  - repeat constructor. easy.
  - intros e [<- | []]. simpl. apply firstByType_NoDup.
Qed.

Lemma tableThenNear_primary : forall rowBody dom,
    tablePart rowBody dom <> [] ->
    tableThenNear rowBody dom = tablePart rowBody dom.
Proof.
  intros rowBody dom H. unfold tableThenNear, tablePart in *.
  destruct (hprtTable dom) as [rows |]; [| contradiction].
  destruct (fst (fold_left rowBody rows ([], []))); [contradiction | reflexivity].
Qed.

End Rooms.

(* ================================================================== *)
(** * Awaited calls, exceptions and early returns *)
(* ================================================================== *)

Module Effects.

(** How a block of statements completes: normally, by [return r], or by
    throwing. *)
Inductive Completion (R A : Type) : Type :=
| Normal (a : A)
| Return (r : R)
| Throw.

Arguments Normal {R A} a.
Arguments Return {R A} r.
Arguments Throw {R A}.

(** A block that may log events (of type [E]) of the calls it awaits. *)
Definition M (E R A : Type) : Type := list E -> Completion R A * list E.

(** How an [async] function settles. *)
Inductive Outcome (R : Type) : Type :=
| Resolved (r : R)
| Rejected.

Arguments Resolved {R} r.
Arguments Rejected {R}.

Section Combinators.
Context {E R : Type}.

Definition ret {A} (a : A) : M E R A := fun tr => (Normal a, tr).

Definition bind {A B} (m : M E R A) (k : A -> M E R B) : M E R B :=
  fun tr =>
    match m tr with
    | (Normal a, tr') => k a tr'
    | (Return r, tr') => (Return r, tr')
    | (Throw, tr') => (Throw, tr')
    end.

(** [return r] *)
Definition returnWith {A} (r : R) : M E R A := fun tr => (Return r, tr).

Definition emit (e : E) : M E R unit := fun tr => (Normal tt, tr ++ [e]).

(** [await call] where the oracle says whether the call fulfils. *)
Definition await (e : E) (ok : bool) : M E R unit :=
  fun tr => (if ok then Normal tt else Throw, tr ++ [e]).

(** A synchronous call that throws unless [ok]. *)
Definition guard (ok : bool) : M E R unit :=
  fun tr => (if ok then Normal tt else Throw, tr).

(** [await call] where the oracle gives the value, or [None] for a throw. *)
Definition awaitValue {A} (e : E) (v : option A) : M E R A :=
  fun tr => (match v with Some a => Normal a | None => Throw end, tr ++ [e]).

(** [try { m } catch { h }] *)
Definition tryCatch {A} (m h : M E R A) : M E R A :=
  fun tr =>
    match m tr with
    | (Throw, tr') => h tr'
    | done => done
    end.

(** [for (const x of l) { body x }] *)
Fixpoint forEach {B} (l : list B) (body : B -> M E R unit) : M E R unit :=
  match l with
  | [] => ret tt
  | x :: rest => bind (body x) (fun _ => forEach rest body)
  end.

(** The settlement of an [async] function with body [m], and its log. *)
Definition call (m : M E R R) : Outcome R * list E :=
  match m [] with
  | (Normal r, tr) => (Resolved r, tr)
  | (Return r, tr) => (Resolved r, tr)
  | (Throw, tr) => (Rejected, tr)
  end.

End Combinators.

(** ** Blocks that never throw *)

Section Safety.
Context {E R : Type}.

Definition throws {A} (c : Completion R A) : bool :=
  match c with Throw => true | _ => false end.

(** The block throws from no log. *)
Definition noThrow {A} (m : M E R A) : Prop :=
  forall tr, throws (fst (m tr)) = false.

Lemma noThrow_ret : forall A (a : A), noThrow (ret a).
Proof. intros A a tr. reflexivity. Qed.

Lemma noThrow_returnWith : forall A (r : R), noThrow (@returnWith E R A r).
Proof. intros A r tr. reflexivity. Qed.

Lemma noThrow_emit : forall e : E, noThrow (emit e).
Proof. intros e tr. reflexivity. Qed.

Lemma noThrow_await : forall e : E, noThrow (await e true).
Proof. intros e tr. reflexivity. Qed.

Lemma noThrow_guard : noThrow (@guard E R true).
Proof. intros tr. reflexivity. Qed.

Lemma noThrow_awaitValue : forall A (e : E) (a : A), noThrow (awaitValue e (Some a)).
Proof. intros A e a tr. reflexivity. Qed.

Lemma noThrow_bind : forall A B (m : M E R A) (k : A -> M E R B),
    noThrow m -> (forall a, noThrow (k a)) -> noThrow (bind m k).
Proof.
  intros A B m k Hm Hk tr. unfold bind. specialize (Hm tr).
  destruct (m tr) as [[a | r |] tr']; simpl in *; [apply Hk | easy | easy].
Qed.

Lemma noThrow_tryCatch : forall A (m h : M E R A),
    noThrow h -> noThrow (tryCatch m h).
Proof.
  intros A m h Hh tr. unfold tryCatch.
  destruct (m tr) as [[a | r |] tr']; simpl; [easy | easy | apply Hh].
Qed.

Lemma noThrow_tryCatch_body : forall A (m h : M E R A),
    noThrow m -> noThrow (tryCatch m h).
Proof.
  intros A m h Hm tr. unfold tryCatch. specialize (Hm tr).
  destruct (m tr) as [[a | r |] tr']; simpl in *; easy.
Qed.

Lemma noThrow_forEach : forall B (l : list B) (body : B -> M E R unit),
    (forall x, noThrow (body x)) -> noThrow (forEach l body).
Proof.
  intros B l body Hb. induction l as [| x rest IH]; simpl.
  - apply noThrow_ret.
  - apply noThrow_bind; auto.
Qed.

(** A function whose body never throws resolves. *)
Lemma noThrow_call : forall m : M E R R,
    noThrow m -> exists r, fst (call m) = Resolved r.
Proof.
  intros m Hm. unfold call. specialize (Hm []).
  destruct (m []) as [[a | r |] tr']; simpl in *; eauto; easy.
Qed.

(** A block that throws at once makes the function reject. *)
Lemma bind_throw : forall A B (m : M E R A) (k : A -> M E R B) tr,
    fst (m tr) = Throw -> fst (bind m k tr) = Throw.
Proof.
  intros A B m k tr H. unfold bind.
  destruct (m tr) as [[a | r |] tr']; simpl in *; congruence.
Qed.

(** Running [m] and then [n], and seeing [n] end normally with [a], is
    running the continuation of the pair from there. *)
Lemma bind_bind_normal : forall A B C (m : M E R A) (n : M E R B)
                                (k : B -> M E R C) tr b tr',
    bind m (fun _ => n) tr = (Normal b, tr') ->
    bind m (fun _ => bind n k) tr = k b tr'.
Proof.
  intros A B C m n k tr b tr' H. unfold bind in *.
  destruct (m tr) as [[a | r |] tr1]; try discriminate.
  now rewrite H.
Qed.

(** The completion of a sequence, read off the completion of its head. *)
Lemma fst_bind : forall A B (m : M E R A) (k : A -> M E R B) tr,
    fst (bind m k tr) =
      match fst (m tr) with
      | Normal a => fst (k a (snd (m tr)))
      | Return r => Return r
      | Throw => Throw
      end.
Proof.
  intros A B m k tr. unfold bind. now destruct (m tr) as [[a | r |] tr'].
Qed.

Lemma fst_await : forall (e : E) ok tr,
    fst (@await E R e ok tr) = if ok then Normal tt else Throw.
Proof. reflexivity. Qed.

(** [try { await call } catch {}] always completes normally. *)
Lemma fst_try_await : forall (e : E) ok tr,
    fst (tryCatch (@await E R e ok) (ret tt) tr) = Normal tt.
Proof. intros e ok tr. unfold tryCatch, await, ret. now destruct ok. Qed.

Lemma fst_forEach_await : forall B (f : B -> E) (ok : B -> bool) l tr,
    fst (forEach l (fun x => @await E R (f x) (ok x)) tr) =
      if forallb ok l then Normal tt else Throw.
Proof.
  intros B f ok. induction l as [| x rest IH]; intros tr; simpl; [reflexivity |].
  rewrite fst_bind, fst_await. destruct (ok x); simpl; [apply IH | reflexivity].
Qed.

(** ** What a block can return *)

(** Every [return] of the block returns a value in [P]. *)
Definition yields {A} (P : R -> Prop) (m : M E R A) : Prop :=
  forall tr, match fst (m tr) with Return r => P r | _ => True end.

(** Every way the function body ends without throwing gives a value in [P]. *)
Definition settles (P : R -> Prop) (m : M E R R) : Prop :=
  forall tr, match fst (m tr) with
             | Return r => P r
             | Normal r => P r
             | Throw => True
             end.

Lemma yields_ret : forall P A (a : A), yields P (ret a).
Proof. intros P A a tr. exact I. Qed.

Lemma yields_emit : forall P (e : E), yields P (emit e).
Proof. intros P e tr. exact I. Qed.

Lemma yields_await : forall P (e : E) ok, yields P (await e ok).
Proof. intros P e ok tr. simpl. now destruct ok. Qed.

Lemma yields_guard : forall P ok, yields P (@guard E R ok).
Proof. intros P ok tr. simpl. now destruct ok. Qed.

Lemma yields_awaitValue : forall P A (e : E) (v : option A),
    yields P (awaitValue e v).
Proof. intros P A e v tr. simpl. now destruct v. Qed.

Lemma yields_returnWith : forall (P : R -> Prop) A r,
    P r -> yields P (@returnWith E R A r).
Proof. intros P A r H tr. exact H. Qed.

Lemma yields_bind : forall P A B (m : M E R A) (k : A -> M E R B),
    yields P m -> (forall a, yields P (k a)) -> yields P (bind m k).
Proof.
  intros P A B m k Hm Hk tr. unfold bind. specialize (Hm tr).
  destruct (m tr) as [[a | r |] tr']; simpl in *; [apply Hk | easy | easy].
Qed.

Lemma yields_tryCatch : forall P A (m h : M E R A),
    yields P m -> yields P h -> yields P (tryCatch m h).
Proof.
  intros P A m h Hm Hh tr. unfold tryCatch. specialize (Hm tr).
  destruct (m tr) as [[a | r |] tr']; simpl in *; [easy | easy | apply Hh].
Qed.

Lemma yields_forEach : forall P B (l : list B) (body : B -> M E R unit),
    (forall x, yields P (body x)) -> yields P (forEach l body).
Proof.
  intros P B l body Hb. induction l as [| x rest IH]; simpl.
  - apply yields_ret.
  - apply yields_bind; auto.
Qed.

Lemma settles_ret : forall (P : R -> Prop) r, P r -> settles P (ret r).
Proof. intros P r H tr. exact H. Qed.

Lemma settles_bind : forall P A (m : M E R A) (k : A -> M E R R),
    yields P m -> (forall a, settles P (k a)) -> settles P (bind m k).
Proof.
  intros P A m k Hm Hk tr. unfold bind. specialize (Hm tr).
  destruct (m tr) as [[a | r |] tr']; simpl in *; [apply Hk | easy | easy].
Qed.

Lemma settles_bind_normally :
  forall (P : R -> Prop) A (Q : A -> Prop) (m : M E R A) (k : A -> M E R R),
    yields P m ->
    (forall tr a, fst (m tr) = Normal a -> Q a) ->
    (forall a, Q a -> settles P (k a)) ->
    settles P (bind m k).
Proof.
  intros P A Q m k Hm Hq Hk tr. unfold bind.
  specialize (Hm tr). specialize (Hq tr).
  destruct (m tr) as [[a | r |] tr']; simpl in *; [| easy | easy].
  apply Hk. now apply Hq.
Qed.

Lemma settles_yields : forall P (m : M E R R),
    yields P m -> (forall tr r, fst (m tr) = Normal r -> P r) -> settles P m.
Proof.
  intros P m Hm Hn tr. specialize (Hm tr). specialize (Hn tr).
  destruct (fst (m tr)); auto.
Qed.

Lemma settles_call : forall P (m : M E R R) r,
    settles P m -> fst (call m) = Resolved r -> P r.
Proof.
  intros P m r Hm H. unfold call in H. specialize (Hm []).
  destruct (m []) as [[a | r' |] tr']; simpl in *;
    try discriminate; now injection H as <-.
Qed.

End Safety.

Module Notations.
Declare Scope eff_scope.
Delimit Scope eff_scope with eff.
Notation "x <- m ;; k" := (bind m (fun x => k))
  (at level 61, m at next level, right associativity) : eff_scope.
Notation "m ;; k" := (bind m (fun _ => k))
  (at level 61, right associativity) : eff_scope.
End Notations.

End Effects.

(* ================================================================== *)
(** * [scrapeBookingPrices]: the single-target price query *)
(* ================================================================== *)

Module Booking.
Import JsString Rooms Effects Effects.Notations.
#[local] Open Scope eff_scope.

(** [new Date(ms).toISOString().split('T')[0]] as a UTC day index. *)
Definition isoDay (ms : Z) : Z := ms / 86400000.

(** The in-page callbacks of the program. *)
Inductive Callback : Type := CbCandidates | CbHprt | CbGeneric | CbRetry.

(** The awaited browser calls; [EvGoto d] is a [page.goto] whose URL the
    program stamped with the check-in day [d] ([None]: a URL taken from
    the page as it is). *)
Inductive Event : Type :=
| EvLaunch
| EvNewPage
| EvGoto (checkin : option Z)
| EvWait
| EvScreenshot
| EvClick
| EvEval (cb : Callback)
| EvClose.

(** A search result as the candidates callback reads it. *)
Record Card : Type := mkCard {
  card_title : str;
  (** [linkEl?.href || ''] *)
  card_href : str
}.

Record SearchDom : Type := mkSearchDom {
  (** [document.querySelectorAll('[data-testid="property-card"]')] *)
  propertyCards : list Card;
  (** [document.querySelectorAll('a[href*="/hotel/"]')] *)
  hotelAnchors : list Card
}.

(** One pass of the retry loop as the world answers it. *)
Record RetryDay : Type := mkRetryDay {
  (** [new URL(page.url())] and [page.goto] went through *)
  rd_goto : bool;
  (** the document [page.evaluate] saw, [None] if it threw *)
  rd_dom : option Dom
}.

(** The world of one call, one answer per call site.  [browser.close()]
    is taken to fulfil. *)
Record World : Type := mkWorld {
  (** first [new Date()], in milliseconds *)
  today : Z;
  (** the [new Date()] of the reload with dates *)
  todayInner : Z;
  launch_ok : bool;
  newPage_ok : bool;
  (** [page.goto(url, { waitUntil: 'networkidle' })] *)
  searchIdle_ok : bool;
  (** [page.goto(url, { waitUntil: 'domcontentloaded' })] *)
  searchDom_ok : bool;
  (** [page.waitForSelector('[data-testid*="property"], ...')] *)
  resultsSel_ok : bool;
  (** [page.waitForLoadState("networkidle")] *)
  loadState_ok : bool;
  (** [page.screenshot({ path: 'search_results.png' })] *)
  searchShot_ok : bool;
  (** the document of the candidates callback *)
  searchPage : option SearchDom;
  (** [page.goto(chosenHref)] *)
  hotelGoto_ok : bool;
  (** the hotel URL already carries [checkin=] and [checkout=] *)
  urlHasDates : bool;
  datesGoto_ok : bool;
  availability_ok : bool;
  cookies_ok : bool;
  hotelShot_ok : bool;
  raceWait_ok : bool;
  (** the document of the [hprt-table] callback *)
  hotelPage : option Dom;
  (** the document of the generic callback *)
  genericPage : option Dom;
  (** the passes of the retry loop, by [add] *)
  retry : Z -> RetryDay
}.

Section Scoring.

(** [String.prototype.toLowerCase], whose Unicode tables stay outside. *)
Variable toLowerCase : str -> str.

(** The argument [hotelName]. *)
Variable hotelName : str.

(** [s.toLowerCase().replace(/\s+/g, ' ').trim()] *)
Definition normalize (s : str) : str := trim (collapseWs (toLowerCase s)).

Definition targetName : str := normalize hotelName.

(** [/sandiego|san-diego|usa|united-states/i.test(href)] *)
Definition foreignHint (href : str) : bool :=
  existsb (fun pat => ciContains pat href)
    [ lit "sandiego"; lit "san-diego"; lit "usa"; lit "united-states" ].

(** The score of a candidate: 100 for a title that includes the name, 2
    for each word of the name (longer than 2) the title includes, -5 for a
    link that hints at another city. *)
Definition scoreOf (c : Card) : Z :=
  let title := normalize (card_title c) in
  let score := if includes targetName title then 100 else 0 in
  let words := filter (fun w => (2 <? length w)%nat) (splitSpaces targetName) in
  let score :=
    fold_left (fun score w => if includes w title then score + 2 else score)
      words score in
  if foreignHint (card_href c) then score - 5 else score.

(** The candidates callback: property cards with a link, else hotel links. *)
Definition searchCandidates (d : SearchDom) : list Card :=
  match filter (fun c => nonEmpty (card_href c)) (propertyCards d) with
  | [] => filter (fun c => nonEmpty (card_href c)) (hotelAnchors d)
  | out => out
  end.

(** [if (score > bestScore) { bestScore = score; best = c }] *)
Definition betterCard (st : option Card * Z) (c : Card) : option Card * Z :=
  if snd st <? scoreOf c then (Some c, scoreOf c) else st.

(** [(best && bestScore >= 0) ? best.href : (candidates[0]?.href || null)] *)
Definition chosenHref (candidates : list Card) : option str :=
  let (best, bestScore) := fold_left betterCard candidates (None, -1) in
  let first :=
    match candidates with
    | c :: _ => if nonEmpty (card_href c) then Some (card_href c) else None
    | [] => None
    end in
  match best with
  | Some b => if 0 <=? bestScore then Some (card_href b) else first
  | None => first
  end.

Definition ME (A : Type) : Type := M Event (list DayEntry) A.

(** From the launch to the hotel page: everything before the extraction.
    The [guard] is [encodeURIComponent(hotelName)]. *)
Definition openHotelPage (w : World) : ME unit :=
  await EvLaunch (launch_ok w) ;;
  await EvNewPage (newPage_ok w) ;;
  let checkin := isoDay (today w) in
  guard (wellFormed hotelName) ;;
  tryCatch (await (EvGoto (Some checkin)) (searchIdle_ok w))
    (tryCatch (await (EvGoto (Some checkin)) (searchDom_ok w))
       (emit EvClose ;; returnWith [])) ;;
  tryCatch (await EvWait (resultsSel_ok w)) (await EvWait (loadState_ok w)) ;;
  await EvScreenshot (searchShot_ok w) ;;
  tryCatch
    (candidates <- awaitValue (EvEval CbCandidates)
                     (option_map searchCandidates (searchPage w)) ;;
     match chosenHref candidates with
     | Some (_ :: _) => await (EvGoto None) (hotelGoto_ok w)
     | _ => emit EvClose ;; returnWith []
     end)
    (emit EvClose ;; returnWith []) ;;
  tryCatch
    (if urlHasDates w then ret tt
     else await (EvGoto (Some (isoDay (todayInner w)))) (datesGoto_ok w))
    (ret tt) ;;
  tryCatch (await EvClick (availability_ok w)) (ret tt) ;;
  tryCatch (await EvClick (cookies_ok w)) (ret tt) ;;
  tryCatch (await EvScreenshot (hotelShot_ok w)) (ret tt) ;;
  tryCatch (await EvWait (raceWait_ok w)) (ret tt).

(** The extraction pipeline on the hotel page: the table strategy, the
    generic one only [if (roomData.length === 0)], then the dedupe. *)
Definition extractToday (w : World) : ME (list Room) :=
  roomData <- awaitValue (EvEval CbHprt) (option_map hprtStrategy (hotelPage w)) ;;
  roomData <-
    match roomData with
    | [] => tryCatch
              (awaitValue (EvEval CbGeneric)
                 (option_map genericStrategy (genericPage w)))
              (ret roomData)
    | _ :: _ => ret roomData
    end ;;
  ret (firstPriceByType roomData).

(** The body of [for (let add = 1; add <= 5; add++) { try { ... } catch {} }]. *)
Definition retryPass (w : World) (add : Z) : ME unit :=
  tryCatch
    (let ci := isoDay (today w + add * 86400000) in
     await (EvGoto (Some ci)) (rd_goto (retry w add)) ;;
     emit EvWait ;;
     retryData <- awaitValue (EvEval CbRetry)
                    (option_map retryExtract (rd_dom (retry w add))) ;;
     match firstPriceByType retryData with
     | [] => ret tt
     | unique => emit EvClose ;; returnWith [mkDay ci unique]
     end)
    (ret tt).

(** What follows an initial date without records. *)
Definition retryLoop (w : World) : ME (list DayEntry) :=
  forEach [1; 2; 3; 4; 5] (retryPass w) ;;
  emit EvClose ;;
  ret [].

Definition scrapeBookingPrices_body (w : World) : ME (list DayEntry) :=
  openHotelPage w ;;
  firstPrices <- extractToday w ;;
  match firstPrices with
  | _ :: _ => emit EvClose ;; returnWith [mkDay (isoDay (today w)) firstPrices]
  | [] => retryLoop w
  end.

(** [async function scrapeBookingPrices(hotelName, ...)] *)
Definition scrapeBookingPrices (w : World) : Outcome (list DayEntry) * list Event :=
  call (scrapeBookingPrices_body w).

(** The CLI wrapper for [days === 1]:
    [try { const prices = await scrapeBookingPrices(...); ... }
     catch (error) { console.error(...) }]: the records handed on, if any. *)
Definition cliSingleDay (w : World) : option (list DayEntry) :=
  match fst (scrapeBookingPrices w) with
  | Resolved prices => Some prices
  | Rejected => None
  end.

(** ** Reading the log *)

(** The check-in days of the date-stamped navigations of a log. *)
Fixpoint gotoDays (tr : list Event) : list Z :=
  match tr with
  | [] => []
  | EvGoto (Some d) :: rest => d :: gotoDays rest
  | _ :: rest => gotoDays rest
  end.

(** ** The retry policy as the specification words it *)

(** The result of the retry day [add], when the day is reached and yields
    records. *)
Definition retryFound (w : World) (add : Z) : option DayEntry :=
  if rd_goto (retry w add) then
    match rd_dom (retry w add) with
    | Some dom =>
        match firstPriceByType (retryExtract dom) with
        | [] => None
        | unique => Some (mkDay (isoDay (today w) + add) unique)
        end
    | None => None
    end
  else None.

(** The first non-empty day among the shifts [adds]. *)
Fixpoint firstFound (w : World) (adds : list Z) : option DayEntry :=
  match adds with
  | [] => None
  | a :: rest =>
      match retryFound w a with
      | Some e => Some e
      | None => firstFound w rest
      end
  end.

(** The shifts tried: up to and including the first non-empty day. *)
Fixpoint passesRun (w : World) (adds : list Z) : list Z :=
  match adds with
  | [] => []
  | a :: rest =>
      a :: match retryFound w a with
           | Some _ => []
           | None => passesRun w rest
           end
  end.

(** The calls of [scrapeBookingPrices] outside every [try]: when they
    fulfil, nothing is thrown to the caller. *)
Definition unguardedOk (w : World) : Prop :=
  launch_ok w = true /\ newPage_ok w = true /\
  (resultsSel_ok w = true \/ loadState_ok w = true) /\
  searchShot_ok w = true /\ hotelPage w <> None.

(** The candidate records of the initial date: what the table strategy
    finds, else what the generic strategy finds. *)
Definition candidatesToday (w : World) : list Room :=
  match hotelPage w with
  | Some dom =>
      match hprtStrategy dom with
      | [] => match genericPage w with
              | Some g => genericStrategy g
              | None => []
              end
      | found => found
      end
  | None => []
  end.

(** The candidate records of the retry day [add]. *)
Definition candidatesRetry (w : World) (add : Z) : list Room :=
  match rd_dom (retry w add) with
  | Some dom => retryExtract dom
  | None => []
  end.

(** The shape of every array the function resolves with: empty, or the
    one entry of the initial date, or the one entry of a retry day, with
    the rooms the dedupe loop kept of the candidates of that day. *)
Definition oneDeduped (w : World) (l : list DayEntry) : Prop :=
  l = [] \/
  l = [mkDay (isoDay (today w)) (firstPriceByType (candidatesToday w))] \/
  exists add, l = [mkDay (isoDay (today w + add * 86400000))
                     (firstPriceByType (candidatesRetry w add))].

(** The first part of the function: up to the records of the initial date. *)
Definition initialRecords (w : World)
  : Completion (list DayEntry) (list Room) * list Event :=
  (openHotelPage w ;; extractToday w) [].

(** ** Lemmas on [scrapeBookingPrices] *)

Lemma isoDay_shift : forall ms add,
    isoDay (ms + add * 86400000) = isoDay ms + add.
Proof. intros ms add. unfold isoDay. now rewrite Z.div_add. Qed.

Ltac no_throw :=
  repeat first
    [ apply noThrow_ret | apply noThrow_emit | apply noThrow_returnWith
    | apply noThrow_await | apply noThrow_awaitValue | apply noThrow_guard
    | apply noThrow_tryCatch | apply noThrow_forEach; intros
    | apply noThrow_bind; [| intros] ].

Ltac yields_all :=
  repeat first
    [ apply yields_ret | apply yields_emit | apply yields_await
    | apply yields_guard | apply yields_awaitValue | apply yields_returnWith
    | apply yields_forEach; intros
    | apply yields_tryCatch
    | apply yields_bind; [| intros] ].

Lemma openHotelPage_noThrow : forall w,
    wellFormed hotelName = true ->
    launch_ok w = true -> newPage_ok w = true ->
    (resultsSel_ok w = true \/ loadState_ok w = true) ->
    searchShot_ok w = true ->
    noThrow (openHotelPage w).
Proof.
  intros w H0 H1 H2 H3 H4. unfold openHotelPage. rewrite H0, H1, H2, H4.
  apply noThrow_bind; [no_throw | intros _].
  apply noThrow_bind; [no_throw | intros _].
  apply noThrow_bind; [no_throw | intros _].
  apply noThrow_bind; [no_throw | intros _].
  apply noThrow_bind; [| intros _; no_throw].
  destruct H3 as [-> | ->]; [apply noThrow_tryCatch_body | ]; no_throw.
Qed.

Lemma retryLoop_noThrow : forall w, noThrow (retryLoop w).
Proof. intros w. unfold retryLoop, retryPass. no_throw. Qed.

Lemma extractToday_noThrow : forall w,
    hotelPage w <> None -> noThrow (extractToday w).
Proof.
  intros w H. unfold extractToday.
  destruct (hotelPage w) as [dom |]; [| contradiction]. simpl.
  apply noThrow_bind; [no_throw | intros roomData].
  apply noThrow_bind; [| intros; no_throw].
  destruct roomData; no_throw.
Qed.

(** With the unguarded calls fulfilled the function resolves. *)
Lemma scrapeBookingPrices_resolves : forall w,
    wellFormed hotelName = true -> unguardedOk w ->
    exists l, fst (scrapeBookingPrices w) = Resolved l.
Proof.
  intros w H0 (H1 & H2 & H3 & H4 & H5). apply noThrow_call.
  unfold scrapeBookingPrices_body.
  apply noThrow_bind; [now apply openHotelPage_noThrow | intros _].
  apply noThrow_bind; [now apply extractToday_noThrow | intros [| r l]].
  - apply retryLoop_noThrow.
  - no_throw.
Qed.

(** A hotel name with a lone surrogate makes [encodeURIComponent] throw,
    outside every [try]. *)
Lemma scrapeBookingPrices_name_rejects : forall w,
    launch_ok w = true -> newPage_ok w = true -> wellFormed hotelName = false ->
    scrapeBookingPrices w = (Rejected, [EvLaunch; EvNewPage]).
Proof.
  intros w H1 H2 H3. unfold scrapeBookingPrices, call, scrapeBookingPrices_body,
    openHotelPage, bind, await, guard. now rewrite H1, H2, H3.
Qed.

(** A failed launch is thrown to the caller. *)
Lemma scrapeBookingPrices_launch_rejects : forall w,
    launch_ok w = false -> scrapeBookingPrices w = (Rejected, [EvLaunch]).
Proof.
  intros w H. unfold scrapeBookingPrices, call, scrapeBookingPrices_body,
    openHotelPage, bind, await. now rewrite H.
Qed.

Lemma openHotelPage_yields : forall w, yields (oneDeduped w) (openHotelPage w).
Proof.
  intros w. unfold openHotelPage.
  yields_all; try (now left).
  match goal with
  | |- yields _ (match chosenHref ?c with _ => _ end) =>
      destruct (chosenHref c) as [[| ? ?] |]
  end; yields_all; try (now left).
  destruct (urlHasDates w); yields_all.
Qed.

Lemma retryPass_yields : forall w add, yields (oneDeduped w) (retryPass w add).
Proof.
  intros w add tr.
  unfold retryPass, tryCatch, bind, await, awaitValue, emit, returnWith, ret.
  destruct (rd_goto (retry w add)); simpl; [| exact I].
  destruct (rd_dom (retry w add)) as [dom |] eqn:Ed; simpl; [| exact I].
  destruct (firstPriceByType (retryExtract dom)) as [| r u] eqn:E; simpl;
    [exact I |].
  right; right. exists add. unfold candidatesRetry. now rewrite Ed, E.
Qed.

Lemma extractToday_yields : forall w, yields (oneDeduped w) (extractToday w).
Proof.
  intros w. unfold extractToday. yields_all.
  match goal with
  | |- yields _ (match ?rd with _ => _ end) => destruct rd
  end; yields_all.
Qed.

Lemma extractToday_normal : forall w tr firstPrices,
    fst (extractToday w tr) = Normal firstPrices ->
    firstPrices = firstPriceByType (candidatesToday w).
Proof.
  intros w tr fp.
  unfold extractToday, candidatesToday, bind, awaitValue, tryCatch, ret.
  destruct (hotelPage w) as [dom |]; simpl; [| discriminate].
  destruct (hprtStrategy dom) as [| r l]; simpl.
  - destruct (genericPage w) as [g |]; simpl; intros H;
      injection H as <-; reflexivity.
  - intros H. injection H as <-. reflexivity.
Qed.

Lemma scrapeBookingPrices_shape : forall w l,
    fst (scrapeBookingPrices w) = Resolved l -> oneDeduped w l.
Proof.
  intros w l. apply settles_call. unfold scrapeBookingPrices_body.
  apply settles_bind; [apply openHotelPage_yields | intros _].
  apply (settles_bind_normally _ _
           (fun fp => fp = firstPriceByType (candidatesToday w))).
  - apply extractToday_yields.
  - apply extractToday_normal.
  - intros fp ->.
    destruct (firstPriceByType (candidatesToday w)) as [| r u] eqn:E.
    + unfold retryLoop. apply settles_bind.
      * apply yields_forEach. intros add. apply retryPass_yields.
      * intros _. apply settles_bind; [apply yields_emit | intros _].
        apply settles_ret. now left.
    + apply settles_bind; [apply yields_emit | intros _].
      intros tr. simpl. right; left. now rewrite E.
Qed.

(** The array the function resolves with has unique natural keys, and the
    rooms of its entry are the first candidates per key of its day. *)
Lemma scrapeBookingPrices_keys : forall w out,
    fst (scrapeBookingPrices w) = Resolved out ->
    NoDup (naturalKeys out) /\
    forall e, In e out ->
      keptFrom (candidatesToday w) e \/
      exists add, keptFrom (candidatesRetry w add) e.
Proof.
  intros w out H.
  destruct (scrapeBookingPrices_shape w out H) as [-> | [-> | [add ->]]].
  - split; [constructor | intros e []].
  - split; [apply naturalKeys_single |].
    intros e [<- | []]. left. apply keptFrom_deduped.
  - split; [apply naturalKeys_single |].
    intros e [<- | []]. right. exists add. apply keptFrom_deduped.
Qed.

(** *** The extraction pipeline *)

(** When the table strategy finds records, its result is the result of the
    pipeline, untouched by the dedupe loop, and the generic callback is not
    evaluated. *)
Lemma extractToday_primary : forall w dom tr,
    hotelPage w = Some dom -> hprtStrategy dom <> [] ->
    extractToday w tr = (Normal (hprtStrategy dom), tr ++ [EvEval CbHprt]).
Proof.
  intros w dom tr Hp Hne. unfold extractToday, bind, awaitValue, ret.
  rewrite Hp. simpl.
  pose proof (clean_dedupe _ (hprtStrategy_clean dom)) as Hd.
  destruct (hprtStrategy dom) as [| r l]; [contradiction |].
  now rewrite Hd.
Qed.

(** The generic callback is evaluated only after an empty table result. *)
Lemma extractToday_generic_only_after_empty : forall w tr,
    In (EvEval CbGeneric) (snd (extractToday w tr)) ->
    In (EvEval CbGeneric) tr \/
    exists dom, hotelPage w = Some dom /\ hprtStrategy dom = [].
Proof.
  intros w tr. unfold extractToday, bind, awaitValue, tryCatch, ret.
  destruct (hotelPage w) as [dom |]; simpl.
  - destruct (hprtStrategy dom) as [| r l] eqn:E; simpl.
    + intros _. right. now exists dom.
    + intros H. apply in_app_or in H. destruct H as [H | [H | []]];
        [now left | discriminate].
  - intros H. apply in_app_or in H. destruct H as [H | [H | []]];
      [now left | discriminate].
Qed.

Lemma scrapeBookingPrices_primary : forall w dom tr1,
    openHotelPage w [] = (Normal tt, tr1) ->
    hotelPage w = Some dom -> hprtStrategy dom <> [] ->
    scrapeBookingPrices w =
      (Resolved [mkDay (isoDay (today w)) (hprtStrategy dom)],
       tr1 ++ [EvEval CbHprt; EvClose]).
Proof.
  intros w dom tr1 Ho Hp Hne.
  unfold scrapeBookingPrices, call, scrapeBookingPrices_body.
  unfold bind at 1. rewrite Ho. unfold bind at 1.
  rewrite (extractToday_primary w dom tr1 Hp Hne).
  destruct (hprtStrategy dom) as [| r l]; [contradiction |].
  unfold bind, emit, returnWith. now rewrite <- app_assoc.
Qed.

(** *** The retry loop *)

Lemma gotoDays_app : forall a b, gotoDays (a ++ b) = gotoDays a ++ gotoDays b.
Proof.
  induction a as [| e a IH]; intros b; simpl; [reflexivity |].
  destruct e as [| | [d |] | | | | |]; simpl; now rewrite ?IH.
Qed.

Lemma retryPass_spec : forall w add tr,
    fst (retryPass w add tr) =
      match retryFound w add with
      | Some e => Return [e]
      | None => Normal tt
      end /\
    gotoDays (snd (retryPass w add tr)) = gotoDays tr ++ [isoDay (today w) + add].
Proof.
  intros w add tr.
  unfold retryPass, retryFound, tryCatch, bind, await, awaitValue, emit,
    returnWith, ret.
  rewrite isoDay_shift.
  destruct (rd_goto (retry w add)); simpl.
  - destruct (rd_dom (retry w add)) as [dom |]; simpl.
    + destruct (firstPriceByType (retryExtract dom)) as [| r u]; simpl;
        rewrite !gotoDays_app; simpl; now rewrite !app_nil_r.
    + rewrite !gotoDays_app. simpl. now rewrite !app_nil_r.
  - now rewrite gotoDays_app.
Qed.

Lemma retryPasses_spec : forall w adds tr,
    fst (forEach adds (retryPass w) tr) =
      match firstFound w adds with
      | Some e => Return [e]
      | None => Normal tt
      end /\
    gotoDays (snd (forEach adds (retryPass w) tr)) =
      gotoDays tr ++ map (fun add => isoDay (today w) + add) (passesRun w adds).
Proof.
  intros w. induction adds as [| a rest IH]; intros tr; simpl.
  - now rewrite app_nil_r.
  - destruct (retryPass_spec w a tr) as [H1 H2]. unfold bind.
    destruct (retryPass w a tr) as [c tr']. simpl in H1, H2.
    destruct (retryFound w a) as [e |]; subst c; simpl.
    + now split.
    + destruct (IH tr') as [H3 H4]. split; [exact H3 |].
      rewrite H4, H2, <- app_assoc. reflexivity.
Qed.

Lemma retryLoop_spec : forall w tr,
    fst (retryLoop w tr) =
      match firstFound w [1; 2; 3; 4; 5] with
      | Some e => Return [e]
      | None => Normal []
      end /\
    gotoDays (snd (retryLoop w tr)) =
      gotoDays tr ++
      map (fun add => isoDay (today w) + add) (passesRun w [1; 2; 3; 4; 5]).
Proof.
  intros w tr. unfold retryLoop.
  destruct (retryPasses_spec w [1; 2; 3; 4; 5] tr) as [H1 H2].
  unfold bind, emit, ret.
  destruct (forEach [1; 2; 3; 4; 5] (retryPass w) tr) as [c tr'].
  cbn [fst snd] in H1, H2.
  destruct (firstFound w [1; 2; 3; 4; 5]) as [e |]; subst c; cbn [fst snd].
  - now split.
  - split; [reflexivity |].
    rewrite gotoDays_app, H2. simpl. now rewrite app_nil_r.
Qed.

(** The shifts tried are an initial segment of the shifts. *)
Lemma passesRun_prefix : forall w adds,
    exists k, (k <= length adds)%nat /\ passesRun w adds = firstn k adds.
Proof.
  intros w. induction adds as [| a rest (k & Hk & IH)]; simpl.
  - exists 0%nat. now split.
  - destruct (retryFound w a).
    + exists 1%nat. split; [lia | reflexivity].
    + exists (S k). split; [lia | simpl; now rewrite IH].
Qed.

Lemma passesRun_all : forall w adds,
    firstFound w adds = None -> passesRun w adds = adds.
Proof.
  intros w. induction adds as [| a rest IH]; simpl; [reflexivity |].
  destruct (retryFound w a); [discriminate |]. intros H. now rewrite IH.
Qed.

(** The day found is the result of the first shift that yields records. *)
Lemma firstFound_first : forall w adds e,
    firstFound w adds = Some e ->
    exists pre a post,
      adds = pre ++ a :: post /\
      (forall b, In b pre -> retryFound w b = None) /\
      retryFound w a = Some e.
Proof.
  intros w. induction adds as [| a rest IH]; intros e H; simpl in H;
    [discriminate |].
  destruct (retryFound w a) as [e' |] eqn:E.
  - injection H as <-. exists [], a, rest. now repeat split.
  - destruct (IH e H) as (pre & b & post & -> & Hpre & Hb).
    exists (a :: pre), b, post. repeat split; auto.
    intros c [<- | Hc]; auto.
Qed.

Lemma scrapeBookingPrices_retries : forall w tr1,
    initialRecords w = (Normal [], tr1) ->
    fst (scrapeBookingPrices w) =
      Resolved match firstFound w [1; 2; 3; 4; 5] with
               | Some e => [e]
               | None => []
               end /\
    gotoDays (snd (scrapeBookingPrices w)) =
      gotoDays tr1 ++
      map (fun add => isoDay (today w) + add) (passesRun w [1; 2; 3; 4; 5]).
Proof.
  intros w tr1 Hi. unfold initialRecords in Hi.
  unfold scrapeBookingPrices, call, scrapeBookingPrices_body.
  rewrite (bind_bind_normal _ _ _ _ _ _ _ _ _ Hi).
  destruct (retryLoop_spec w tr1) as [H1 H2].
  destruct (retryLoop w tr1) as [c tr']. cbn [fst snd] in H1, H2.
  destruct (firstFound w [1; 2; 3; 4; 5]) as [e |]; subst c; cbn [fst snd];
    now split.
Qed.

End Scoring.

End Booking.

(* ================================================================== *)
(** * [scrapeMultipleDates]: the multi-day run and its date blocks *)
(* ================================================================== *)

Module MultiDates.
Import JsString Rooms Effects Effects.Notations Partition.
Import Booking (isoDay, Event, EvLaunch, EvNewPage, EvGoto, EvWait, EvEval,
                EvClose, CbCandidates).
#[local] Open Scope eff_scope.

(** One day of a block as the world answers it. *)
Record DayVisit : Type := mkVisit {
  (** [p.goto(newUrl)] fulfilled *)
  dv_goto : bool;
  (** the document [p.evaluate] saw, [None] if it threw *)
  dv_dom : option Dom
}.

(** The world of one call.  [browser.close()] is taken to fulfil. *)
Record World : Type := mkWorld {
  (** [new Date()], in milliseconds *)
  today : Z;
  launch_ok : bool;
  newPage_ok : bool;
  (** [encodeURIComponent(hotelName)] and [page.goto(searchUrl)] *)
  searchGoto_ok : bool;
  (** the first-result callback: [None] if it threw, [Some None] for [null] *)
  firstLink : option (option str);
  (** [page.goto(href)] *)
  hotelGoto_ok : bool;
  (** [browser.newPage()] of the block with a given index *)
  pageOpen : nat -> bool;
  (** [p.close()] of the block with a given index *)
  pageClose : nat -> bool;
  (** the day with a given offset *)
  visit : Z -> DayVisit
}.

(** Part 1 of the function: search, first result, hotel page. *)
Definition setup (w : World) : M Event (list DayEntry) unit :=
  await EvLaunch (launch_ok w) ;;
  await EvNewPage (newPage_ok w) ;;
  await (EvGoto (Some (isoDay (today w)))) (searchGoto_ok w) ;;
  emit EvWait ;;
  href <- awaitValue (EvEval CbCandidates) (firstLink w) ;;
  match href with
  | Some (_ :: _) => await (EvGoto None) (hotelGoto_ok w)
  | _ => emit EvClose ;; returnWith []
  end.

(** [const CONCURRENT_TASKS = Math.min(concurrency, 5)] *)
Definition CONCURRENT_TASKS (concurrency : Z) : Z := Z.min concurrency 5.

(** The entry one pass of the loop body pushes for the day [offset]:
    [try { await p.goto(newUrl); ...; const dayRooms = await p.evaluate(...);
           ...unique...; results.push({ date: ci, rooms: unique }) }
     catch (e) { results.push({ date: ci, rooms: [] }) }] *)
Definition dayResult (w : World) (offset : Z) : DayEntry :=
  let ci := isoDay (today w + offset * 86400000) in
  if dv_goto (visit w offset) then
    match dv_dom (visit w offset) with
    | Some dom => mkDay ci (firstPriceByType (rangeExtract dom))
    | None => mkDay ci []
    end
  else mkDay ci [].

(** The candidate records of the day [offset]: what the extraction
    callback finds, nothing when the day fails. *)
Definition candidatesOf (w : World) (offset : Z) : list Room :=
  if dv_goto (visit w offset) then
    match dv_dom (visit w offset) with
    | Some dom => rangeExtract dom
    | None => []
    end
  else [].

(** Where a call [processRange(start, end)] stands. *)
Inductive Phase : Type :=
| Opening                 (** awaiting [browser.newPage()] *)
| Visiting (offset : Z)   (** page open, in the loop body for [offset] *)
| Closing                 (** loop left, awaiting [p.close()] *)
| Finished                (** the promise is fulfilled *)
| OpenFailed              (** [browser.newPage()] threw: the promise is rejected *)
| CloseFailed.            (** [p.close()] threw: the promise is rejected *)

Record Block : Type := mkBlock {
  b_range : Z * Z;
  b_phase : Phase
}.

(** The run between [dateRanges.map(...)] and the settlement of
    [Promise.all]: the blocks, and the array [results] they all push to. *)
Record State : Type := mkState {
  blocks : list Block;
  results : list DayEntry
}.

(** The phase after the loop test [offset <= end]. *)
Definition enterLoop (r : Z * Z) (offset : Z) : Phase :=
  if offset <=? snd r then Visiting offset else Closing.

(** The block with index [i] runs to its next [await]: the block after the
    step and the entries it pushed; [None] when the block is settled. *)
Definition stepBlock (w : World) (i : nat) (b : Block)
  : option (Block * list DayEntry) :=
  match b_phase b with
  | Opening =>
      if pageOpen w i
      then Some (mkBlock (b_range b) (enterLoop (b_range b) (fst (b_range b))), [])
      else Some (mkBlock (b_range b) OpenFailed, [])
  | Visiting offset =>
      Some (mkBlock (b_range b) (enterLoop (b_range b) (offset + 1)),
            [dayResult w offset])
  | Closing =>
      if pageClose w i
      then Some (mkBlock (b_range b) Finished, [])
      else Some (mkBlock (b_range b) CloseFailed, [])
  | Finished | OpenFailed | CloseFailed => None
  end.

(** One block, any one, takes its step; [i] is the index of the head. *)
Inductive stepBlocks (w : World) :
  nat -> list Block -> list DayEntry -> list Block -> list DayEntry -> Prop :=
| step_here : forall i b bs res b' pushed,
    stepBlock w i b = Some (b', pushed) ->
    stepBlocks w i (b :: bs) res (b' :: bs) (res ++ pushed)
| step_later : forall i b bs res bs' res',
    stepBlocks w (S i) bs res bs' res' ->
    stepBlocks w i (b :: bs) res (b :: bs') res'.

Definition step (w : World) (st st' : State) : Prop :=
  stepBlocks w 0 (blocks st) (results st) (blocks st') (results st').

(** Any number of steps, in any interleaving. *)
Inductive steps (w : World) : State -> State -> Prop :=
| steps_refl : forall st, steps w st st
| steps_more : forall st st' st'',
    steps w st st' -> step w st' st'' -> steps w st st''.

(** The state [dateRanges.map(([s,e]) => processRange(s,e))] leaves: every
    call has run to its first [await], the one on [browser.newPage()].
    [CONCURRENT_TASKS] is computed and not consulted. *)
Definition started (days concurrency : Z) : State :=
  let CONCURRENT_TASKS := CONCURRENT_TASKS concurrency in
  mkState (map (fun r => mkBlock r Opening) (dateRanges days)) [].

Definition isFinished (b : Block) : bool :=
  match b_phase b with Finished => true | _ => false end.

Definition isFailed (b : Block) : bool :=
  match b_phase b with OpenFailed | CloseFailed => true | _ => false end.

(** The block holds an open page. *)
Definition hasPage (b : Block) : bool :=
  match b_phase b with Visiting _ | Closing => true | _ => false end.

(** The block is started and not settled. *)
Definition isActive (b : Block) : bool :=
  match b_phase b with Opening | Visiting _ | Closing => true | _ => false end.

Definition livePages (st : State) : nat := length (filter hasPage (blocks st)).
Definition activeBlocks (st : State) : nat := length (filter isActive (blocks st)).

(** How [scrapeMultipleDates(hotelName, userId, { days, concurrency })]
    settles: part 1 returns or throws; otherwise [Promise.all] is fulfilled
    when every block is, and then [results] is returned, or it is rejected
    with the first block that is. *)
Inductive settlesWith (w : World) (days concurrency : Z)
  : Outcome (list DayEntry) -> Prop :=
| settle_early : forall l tr,
    setup w [] = (Return l, tr) ->
    settlesWith w days concurrency (Resolved l)
| settle_setup_throw : forall tr,
    setup w [] = (Throw, tr) ->
    settlesWith w days concurrency Rejected
| settle_joined : forall tr st,
    setup w [] = (Normal tt, tr) ->
    steps w (started days concurrency) st ->
    forallb isFinished (blocks st) = true ->
    settlesWith w days concurrency (Resolved (results st))
| settle_block_throw : forall tr st,
    setup w [] = (Normal tt, tr) ->
    steps w (started days concurrency) st ->
    existsb isFailed (blocks st) = true ->
    settlesWith w days concurrency Rejected.

(** ** Running a schedule *)

(** The block with index [i] of the list takes its step, if it has one. *)
Fixpoint stepAt (w : World) (base i : nat) (bs : list Block) (res : list DayEntry)
  : list Block * list DayEntry :=
  match bs, i with
  | [], _ => ([], res)
  | b :: rest, O =>
      match stepBlock w base b with
      | Some (b', pushed) => (b' :: rest, res ++ pushed)
      | None => (bs, res)
      end
  | b :: rest, S j =>
      let (rest', res') := stepAt w (S base) j rest res in (b :: rest', res')
  end.

(** The blocks resume in the order the schedule lists their indices. *)
Fixpoint runSchedule (w : World) (sched : list nat) (st : State) : State :=
  match sched with
  | [] => st
  | i :: rest =>
      let (bs, res) := stepAt w 0 i (blocks st) (results st) in
      runSchedule w rest (mkState bs res)
  end.

(** The offsets a block has pushed entries for. *)
Definition doneOffsets (b : Block) : list Z :=
  match b_phase b with
  | Opening | OpenFailed => []
  | Visiting offset => offsets (fst (b_range b), offset - 1)
  | Closing | Finished | CloseFailed => offsets (b_range b)
  end.

Definition pushedBy (w : World) (bs : list Block) : list DayEntry :=
  flat_map (fun b => map (dayResult w) (doneOffsets b)) bs.

(** The loop variable of a block stays within its range. *)
Definition inLoop (b : Block) : Prop :=
  fst (b_range b) <= snd (b_range b) /\
  match b_phase b with
  | Visiting offset => fst (b_range b) <= offset <= snd (b_range b)
  | _ => True
  end.

(** Steps a block still has to take. *)
Definition stepsLeft (b : Block) : Z :=
  match b_phase b with
  | Opening => snd (b_range b) - fst (b_range b) + 3
  | Visiting offset => snd (b_range b) - offset + 2
  | Closing => 1
  | Finished | OpenFailed | CloseFailed => 0
  end.

Definition workLeft (bs : list Block) : Z :=
  fold_right (fun b acc => stepsLeft b + acc) 0 bs.

(** The entry is dated with a day of the range. *)
Definition ofRange (w : World) (r : Z * Z) (e : DayEntry) : bool :=
  let offset := date e - isoDay (today w) in
  (fst r <=? offset) && (offset <=? snd r).

(** The entries of the days of a block, as they follow one another in the
    shared array, are the entries of an initial segment of the range, in
    ascending offset. *)
Definition inOrder (w : World) (res : list DayEntry) (b : Block) : Prop :=
  filter (ofRange w (b_range b)) res = map (dayResult w) (doneOffsets b).

(** What holds in every state the blocks can reach. *)
Record reachable (w : World) (days : Z) (st : State) : Prop := mkReachable {
  reach_ranges : map b_range (blocks st) = dateRanges days;
  reach_inLoop : Forall inLoop (blocks st);
  reach_pushed : Permutation (results st) (pushedBy w (blocks st));
  reach_inOrder : Forall (inOrder w (results st)) (blocks st)
}.

(** The promise of the block is settled. *)
Definition isSettled (b : Block) : bool := negb (isActive b).

(** The pages of all blocks open and close. *)
Definition pagesOk (w : World) : Prop :=
  forall i, pageOpen w i = true /\ pageClose w i = true.

(** ** Sample worlds and schedules *)

(** A page without a pricing table and without price elements. *)
Definition emptyDom : Dom := mkDom None [].

(** Every call fulfils, the search has a first result, every day loads. *)
Definition calmWorld : World :=
  mkWorld 0 true true true (Some (Some (lit "https://www.booking.com/hotel/mx/a.html")))
    true (fun _ => true) (fun _ => true) (fun _ => mkVisit true (Some emptyDom)).

(** The search page has no result link. *)
Definition noLinkWorld : World :=
  mkWorld 0 true true true (Some None)
    true (fun _ => true) (fun _ => true) (fun _ => mkVisit true (Some emptyDom)).

(** For a window of 33 days (blocks [0,30] and [31,32]): the first block
    runs to its end, then the second. *)
Definition blockByBlock : list nat := repeat 0%nat 33 ++ repeat 1%nat 4.

(** The second block runs to its end, then the first. *)
Definition lastBlockFirst : list nat := repeat 1%nat 4 ++ repeat 0%nat 33.

(** ** Lemmas on the run of the blocks *)

Lemma dayResult_date : forall w offset,
    date (dayResult w offset) = isoDay (today w) + offset.
Proof.
  intros w offset. unfold dayResult. rewrite Booking.isoDay_shift.
  destruct (dv_goto (visit w offset)); [destruct (dv_dom (visit w offset)) |];
    reflexivity.
Qed.

Lemma dayResult_rooms : forall w offset,
    exists roomData, rooms (dayResult w offset) = firstPriceByType roomData.
Proof.
  intros w offset. unfold dayResult.
  destruct (dv_goto (visit w offset)); [destruct (dv_dom (visit w offset)) as [dom |] |].
  - now exists (rangeExtract dom).
  - now exists [].
  - now exists [].
Qed.

(** A day whose navigation or extraction fails is recorded with no rooms. *)
Lemma dayResult_failed : forall w offset,
    dv_goto (visit w offset) = false \/ dv_dom (visit w offset) = None ->
    dayResult w offset = mkDay (isoDay (today w) + offset) [].
Proof.
  intros w offset H. unfold dayResult. rewrite Booking.isoDay_shift.
  destruct H as [-> | H]; [reflexivity |]. rewrite H.
  now destruct (dv_goto (visit w offset)).
Qed.


Lemma steps_trans : forall w a b c, steps w a b -> steps w b c -> steps w a c.
Proof.
  intros w a b c Hab Hbc. induction Hbc as [| b c d Hbc IH Hcd]; [exact Hab |].
  exact (steps_more w _ _ _ (IH Hab) Hcd).
Qed.

Lemma stepAt_stepBlocks : forall w i base bs res bs' res',
    stepAt w base i bs res = (bs', res') ->
    (bs' = bs /\ res' = res) \/ stepBlocks w base bs res bs' res'.
Proof.
  intros w. induction i as [| j IH]; intros base [| b rest] res bs' res' H;
    simpl in H; try (injection H as <- <-; now left).
  - destruct (stepBlock w base b) as [[b' pushed] |] eqn:E;
      injection H as <- <-; [right; now constructor | now left].
  - destruct (stepAt w (S base) j rest res) as [rest' r'] eqn:E.
    injection H as <- <-.
    destruct (IH _ _ _ _ _ E) as [[-> ->] | Hs]; [now left | right].
    now constructor.
Qed.

(** Every schedule is a run of the step relation. *)
Lemma runSchedule_steps : forall w sched st, steps w st (runSchedule w sched st).
Proof.
  intros w. induction sched as [| i rest IH]; intros st; simpl.
  - constructor.
  - destruct (stepAt w 0 i (blocks st) (results st)) as [bs res] eqn:E.
    apply (steps_trans w _ (mkState bs res)); [| apply IH].
    destruct (stepAt_stepBlocks _ _ _ _ _ _ _ E) as [[-> ->] | Hs].
    + destruct st; constructor.
    + apply (steps_more w _ st); [constructor | exact Hs].
Qed.

Lemma offsets_empty : forall a b, b < a -> offsets (a, b) = [].
Proof.
  intros a b H. unfold offsets. simpl.
  now replace (Z.to_nat (b - a + 1)) with 0%nat by lia.
Qed.

Lemma offsets_snoc : forall a b, a <= b -> offsets (a, b) = offsets (a, b - 1) ++ [b].
Proof.
  intros a b H. unfold offsets. simpl.
  replace (Z.to_nat (b - a + 1)) with (Z.to_nat (b - 1 - a + 1) + 1)%nat by lia.
  rewrite seq_app, map_app. simpl. repeat f_equal. lia.
Qed.

Lemma stepBlock_range : forall w i b b' pushed,
    stepBlock w i b = Some (b', pushed) -> b_range b' = b_range b.
Proof.
  intros w i [r ph] b' pushed H. unfold stepBlock in H. simpl in H.
  destruct ph; try discriminate;
    repeat match type of H with
      | context [if ?c then _ else _] => destruct c
      end; injection H as <- <-; reflexivity.
Qed.

Lemma stepBlock_inLoop : forall w i b b' pushed,
    stepBlock w i b = Some (b', pushed) -> inLoop b -> inLoop b'.
Proof.
  intros w i [[s e] ph] b' pushed H [Hr Hp]. unfold stepBlock in H.
  simpl in *.
  destruct ph; try discriminate; unfold enterLoop in H; simpl in H;
    repeat match type of H with
      | context [if ?c then _ else _] => destruct c eqn:?
      end; injection H as <- <-; split; simpl; auto; lia.
Qed.

(** A step of a block adds to what it has pushed exactly the entries it
    pushes now. *)
Lemma stepBlock_pushed : forall w i b b' pushed,
    stepBlock w i b = Some (b', pushed) -> inLoop b ->
    map (dayResult w) (doneOffsets b') = map (dayResult w) (doneOffsets b) ++ pushed.
Proof.
  intros w i [[s e] ph] b' pushed H [Hr Hp]. unfold stepBlock in H.
  simpl in *.
  destruct ph; try discriminate; unfold enterLoop in H; simpl in H.
  - destruct (pageOpen w i); [destruct (s <=? e) eqn:E |];
      injection H as <- <-; unfold doneOffsets; simpl;
      rewrite ?offsets_empty by lia; reflexivity.
  - destruct (offset + 1 <=? e) eqn:E; injection H as <- <-;
      unfold doneOffsets; simpl.
    + replace (offset + 1 - 1) with offset by lia.
      rewrite (offsets_snoc s offset) by lia. now rewrite map_app.
    + assert (offset = e) as -> by lia.
      rewrite (offsets_snoc s e) by lia. now rewrite map_app.
  - destruct (pageClose w i); injection H as <- <-; unfold doneOffsets; simpl;
      now rewrite app_nil_r.
Qed.

Lemma stepBlocks_inLoop : forall w i bs res bs' res',
    stepBlocks w i bs res bs' res' -> Forall inLoop bs -> Forall inLoop bs'.
Proof.
  induction 1 as [i b bs res b' pushed Hs | i b bs res bs' res' Hs IH];
    intros Hall; inversion Hall; subst; constructor; auto.
  eapply stepBlock_inLoop; eauto.
Qed.

Lemma stepBlocks_ranges : forall w i bs res bs' res',
    stepBlocks w i bs res bs' res' -> map b_range bs' = map b_range bs.
Proof.
  induction 1 as [i b bs res b' pushed Hs | i b bs res bs' res' Hs IH];
    simpl; f_equal; auto.
  eapply stepBlock_range; eauto.
Qed.

(** The shared array holds, in some order, what the blocks have pushed. *)
Lemma stepBlocks_pushed : forall w i bs res bs' res',
    stepBlocks w i bs res bs' res' -> Forall inLoop bs ->
    forall before,
      Permutation res (before ++ pushedBy w bs) ->
      Permutation res' (before ++ pushedBy w bs').
Proof.
  induction 1 as [i b bs res b' pushed Hs | i b bs res bs' res' Hs IH];
    intros Hall before Hp; inversion Hall; subst; unfold pushedBy in *; simpl in *.
  - rewrite (stepBlock_pushed _ _ _ _ _ Hs) by assumption.
    rewrite Hp. rewrite <- !app_assoc.
    apply Permutation_app_head, Permutation_app_head, Permutation_app_comm.
  - rewrite app_assoc in *. now apply IH.
Qed.

Lemma filter_all : forall (A : Type) (f : A -> bool) l,
    Forall (fun x => f x = true) l -> filter f l = l.
Proof.
  intros A f. induction 1 as [| x l Hx _ IH]; simpl; [reflexivity |].
  now rewrite Hx, IH.
Qed.

Lemma filter_none : forall (A : Type) (f : A -> bool) l,
    Forall (fun x => f x = false) l -> filter f l = [].
Proof.
  intros A f. induction 1 as [| x l Hx _ IH]; simpl; [reflexivity |].
  now rewrite Hx.
Qed.

Lemma ofRange_dayResult : forall w r offset,
    ofRange w r (dayResult w offset) = (fst r <=? offset) && (offset <=? snd r).
Proof.
  intros w r offset. unfold ofRange. rewrite dayResult_date.
  now replace (isoDay (today w) + offset - isoDay (today w)) with offset by lia.
Qed.

(** What a block pushes is dated within its range ... *)
Lemma stepBlock_pushed_inside : forall w i b b' pushed,
    stepBlock w i b = Some (b', pushed) -> inLoop b ->
    Forall (fun e => ofRange w (b_range b) e = true) pushed.
Proof.
  intros w i [[s e] ph] b' pushed H [Hr Hp]. unfold stepBlock in H. simpl in *.
  destruct ph; try discriminate;
    repeat match type of H with
      | context [if ?c then _ else _] => destruct c
      end; injection H as <- <-; repeat constructor.
  rewrite ofRange_dayResult. simpl. lia.
Qed.

(** ... and outside every range disjoint from it. *)
Lemma stepBlock_pushed_outside : forall w i b b' pushed r,
    stepBlock w i b = Some (b', pushed) -> inLoop b ->
    disjoint r (b_range b) ->
    Forall (fun e => ofRange w r e = false) pushed.
Proof.
  intros w i [[s e] ph] b' pushed r H [Hr Hp] Hd. unfold stepBlock in H.
  simpl in *.
  destruct ph; try discriminate;
    repeat match type of H with
      | context [if ?c then _ else _] => destruct c
      end; injection H as <- <-; repeat constructor.
  rewrite ofRange_dayResult.
  destruct ((fst r <=? offset) && (offset <=? snd r)) eqn:E; [| reflexivity].
  exfalso. apply (Hd offset). simpl. lia.
Qed.

Lemma disjoint_sym : forall r1 r2, disjoint r1 r2 -> disjoint r2 r1.
Proof. intros r1 r2 H d [H1 H2]. apply (H d). now split. Qed.

(** A step is the step of one block, the others standing still. *)
Lemma stepBlocks_split : forall w i bs res bs' res',
    stepBlocks w i bs res bs' res' ->
    exists pre b post b' pushed,
      bs = pre ++ b :: post /\ bs' = pre ++ b' :: post /\
      stepBlock w (i + length pre) b = Some (b', pushed) /\
      res' = res ++ pushed.
Proof.
  induction 1 as [i b bs res b' pushed Hs | i b bs res bs' res' Hs IH].
  - exists [], b, bs, b', pushed. simpl. rewrite Nat.add_0_r. auto.
  - destruct IH as (pre & b0 & post & b' & pushed & -> & -> & H3 & ->).
    exists (b :: pre), b0, post, b', pushed. simpl.
    replace (i + S (length pre))%nat with (S i + length pre)%nat by lia. auto.
Qed.

Lemma ForallOrdPairs_middle : forall (A : Type) (R : A -> A -> Prop) pre b post,
    ForallOrdPairs R (pre ++ b :: post) ->
    Forall (fun x => R x b) pre /\ Forall (R b) post.
Proof.
  intros A R. induction pre as [| x pre IH]; intros b post H; simpl in H;
    inversion H as [| ? ? Hx Hrest]; subst.
  - split; [constructor | assumption].
  - destruct (IH b post Hrest) as [H1 H2]. split; [| exact H2].
    constructor; [| exact H1].
    rewrite Forall_forall in Hx. apply Hx, in_or_app. right. now left.
Qed.

(** A step keeps the entries of every block in order. *)
Lemma stepBlocks_inOrder : forall w i bs res bs' res',
    stepBlocks w i bs res bs' res' ->
    Forall inLoop bs -> ForallOrdPairs disjoint (map b_range bs) ->
    Forall (inOrder w res) bs -> Forall (inOrder w res') bs'.
Proof.
  intros w i bs res bs' res' Hs Hloop Hdis Hord.
  destruct (stepBlocks_split _ _ _ _ _ _ Hs)
    as (pre & b & post & b' & pushed & -> & -> & Hb & ->).
  rewrite map_app in Hdis. simpl in Hdis.
  destruct (ForallOrdPairs_middle _ _ _ _ _ Hdis) as [Hpre Hpost].
  apply Forall_app in Hloop. destruct Hloop as [_ Hloop].
  inversion Hloop as [| ? ? Hbl _]; subst.
  apply Forall_app in Hord. destruct Hord as [Hord1 Hord2].
  inversion Hord2 as [| ? ? Hob Hord3]; subst.
  apply Forall_app. split; [| constructor].
  - rewrite Forall_forall in *. intros x Hx. unfold inOrder.
    rewrite filter_app, (Hord1 x Hx).
    rewrite (filter_none _ _ _ (stepBlock_pushed_outside _ _ _ _ _ (b_range x)
                                  Hb Hbl (Hpre _ (in_map b_range _ _ Hx)))).
    apply app_nil_r.
  - unfold inOrder in *.
    rewrite (stepBlock_range _ _ _ _ _ Hb), filter_app, Hob.
    rewrite (filter_all _ _ _ (stepBlock_pushed_inside _ _ _ _ _ Hb Hbl)).
    symmetry. exact (stepBlock_pushed _ _ _ _ _ Hb Hbl).
  - rewrite Forall_forall in *. intros x Hx. unfold inOrder.
    rewrite filter_app, (Hord3 x Hx).
    rewrite (filter_none _ _ _ (stepBlock_pushed_outside _ _ _ _ _ (b_range x)
                                  Hb Hbl
                                  (disjoint_sym _ _ (Hpost _ (in_map b_range _ _ Hx))))).
    apply app_nil_r.
Qed.

Lemma dateRanges_nonempty : forall days r,
    In r (dateRanges days) -> fst r <= snd r.
Proof.
  intros days r H. unfold dateRanges in H. apply filter_In in H.
  destruct H as [_ H]. lia.
Qed.

Lemma started_reachable : forall w days concurrency,
    reachable w days (started days concurrency).
Proof.
  intros w days c. unfold started. split; simpl.
  - rewrite map_map. simpl. apply map_id.
  - apply Forall_forall. intros b Hb. apply in_map_iff in Hb.
    destruct Hb as (r & <- & Hr). split; simpl; [| exact I].
    exact (dateRanges_nonempty days r Hr).
  - unfold pushedBy. induction (dateRanges days); simpl; auto.
  - apply Forall_forall. intros b Hb. apply in_map_iff in Hb.
    destruct Hb as (r & <- & Hr). reflexivity.
Qed.

Lemma steps_reachable : forall w days st st',
    steps w st st' -> reachable w days st -> reachable w days st'.
Proof.
  induction 1 as [| st st' st'' Hs IH Hstep]; intros Hr; [exact Hr |].
  destruct (IH Hr) as [H1 H2 H3 H4]. unfold step in Hstep. split.
  - now rewrite (stepBlocks_ranges _ _ _ _ _ _ Hstep).
  - exact (stepBlocks_inLoop _ _ _ _ _ _ Hstep H2).
  - exact (stepBlocks_pushed _ _ _ _ _ _ Hstep H2 [] H3).
  - apply (stepBlocks_inOrder _ _ _ _ _ _ Hstep H2); [| exact H4].
    rewrite H1. apply dateRanges_disjoint.
Qed.

Lemma pushedBy_finished : forall w bs,
    forallb isFinished bs = true ->
    pushedBy w bs = map (dayResult w) (allOffsets (map b_range bs)).
Proof.
  intros w. unfold pushedBy, allOffsets.
  induction bs as [| [r ph] bs IH]; simpl; intros H; [reflexivity |].
  apply andb_true_iff in H. destruct H as [Hb Hbs].
  rewrite map_app, (IH Hbs). f_equal.
  unfold isFinished in Hb. simpl in Hb. destruct ph; try discriminate.
  reflexivity.
Qed.

(** The array returned after the join holds one entry per offset of the
    ranges, each the entry of its day. *)
Lemma joined_results : forall w days concurrency st,
    steps w (started days concurrency) st ->
    forallb isFinished (blocks st) = true ->
    Permutation (results st)
      (map (dayResult w) (allOffsets (dateRanges days))).
Proof.
  intros w days c st Hs Hf.
  destruct (steps_reachable w days _ _ Hs (started_reachable w days c))
    as [H1 _ H3 _].
  now rewrite H3, (pushedBy_finished w _ Hf), H1.
Qed.

(** *** Termination of the blocks *)

Lemma stepsLeft_nonneg : forall b, inLoop b -> 0 <= stepsLeft b.
Proof.
  intros [[s e] ph] [Hr Hp]. unfold stepsLeft. simpl in *. destruct ph; lia.
Qed.

Lemma workLeft_nonneg : forall bs, Forall inLoop bs -> 0 <= workLeft bs.
Proof.
  induction 1 as [| b bs Hb _ IH]; simpl; [lia |].
  pose proof (stepsLeft_nonneg b Hb). lia.
Qed.

Lemma stepBlock_decreases : forall w i b b' pushed,
    stepBlock w i b = Some (b', pushed) -> inLoop b ->
    stepsLeft b' < stepsLeft b.
Proof.
  intros w i [[s e] ph] b' pushed H [Hr Hp]. unfold stepBlock in H.
  simpl in *.
  destruct ph; try discriminate; unfold enterLoop in H; simpl in H;
    repeat match type of H with
      | context [if ?c then _ else _] => destruct c eqn:?
      end; injection H as <- <-; unfold stepsLeft; simpl; lia.
Qed.

Lemma stepBlocks_decreases : forall w i bs res bs' res',
    stepBlocks w i bs res bs' res' -> Forall inLoop bs ->
    workLeft bs' < workLeft bs.
Proof.
  induction 1 as [i b bs res b' pushed Hs | i b bs res bs' res' Hs IH];
    intros Hall; inversion Hall; subst; simpl.
  - pose proof (stepBlock_decreases _ _ _ _ _ Hs ltac:(assumption)). lia.
  - specialize (IH ltac:(assumption)). lia.
Qed.

(** As long as a block is not settled, a step is possible. *)
Lemma stepBlocks_progress : forall w bs i res,
    forallb isSettled bs = false ->
    exists bs' res', stepBlocks w i bs res bs' res'.
Proof.
  intros w. induction bs as [| b bs IH]; intros i res H; simpl in H;
    [discriminate |].
  destruct (isSettled b) eqn:E; simpl in H.
  - destruct (IH (S i) res H) as (bs' & res' & Hs).
    exists (b :: bs'), res'. now constructor.
  - destruct (stepBlock w i b) as [[b' pushed] |] eqn:Es.
    + exists (b' :: bs), (res ++ pushed). now constructor.
    + exfalso. unfold isSettled, isActive in E. unfold stepBlock in Es.
      destruct (b_phase b); try discriminate;
        repeat match type of Es with
          | context [if ?c then _ else _] => destruct c
          end; discriminate.
Qed.

(** From every state the blocks run, in finitely many steps, to a state
    in which each of them is settled. *)
Lemma blocks_settle : forall w n st,
    Forall inLoop (blocks st) -> workLeft (blocks st) <= Z.of_nat n ->
    exists st', steps w st st' /\ forallb isSettled (blocks st') = true.
Proof.
  intros w. induction n as [| n IH]; intros st Hall Hn.
  - exists st. split; [constructor |].
    destruct (forallb isSettled (blocks st)) eqn:E; [reflexivity |].
    destruct (stepBlocks_progress w _ 0%nat (results st) E) as (bs' & res' & Hs).
    pose proof (stepBlocks_decreases _ _ _ _ _ _ Hs Hall).
    pose proof (workLeft_nonneg _ (stepBlocks_inLoop _ _ _ _ _ _ Hs Hall)).
    lia.
  - destruct (forallb isSettled (blocks st)) eqn:E.
    + exists st. split; [constructor | exact E].
    + destruct (stepBlocks_progress w _ 0%nat (results st) E) as (bs' & res' & Hs).
      pose proof (stepBlocks_decreases _ _ _ _ _ _ Hs Hall).
      destruct (IH (mkState bs' res')) as (st' & Hst & Hf); simpl.
      * exact (stepBlocks_inLoop _ _ _ _ _ _ Hs Hall).
      * lia.
      * exists st'. split; [| exact Hf].
        apply (steps_trans w _ (mkState bs' res')); [| exact Hst].
        apply (steps_more w _ st); [constructor | exact Hs].
Qed.

(** *** Pages that open and close *)

Lemma stepBlock_no_failure : forall w i b b' pushed,
    pagesOk w -> stepBlock w i b = Some (b', pushed) -> isFailed b' = false.
Proof.
  intros w i [r ph] b' pushed Hok H. destruct (Hok i) as [Ho Hc].
  unfold stepBlock in H. simpl in H. rewrite ?Ho, ?Hc in H.
  destruct ph; try discriminate; injection H as <- <-; unfold isFailed, enterLoop;
    simpl; try reflexivity;
    match goal with |- context [if ?c then _ else _] => now destruct c end.
Qed.

Lemma stepBlocks_no_failure : forall w i bs res bs' res',
    pagesOk w -> stepBlocks w i bs res bs' res' ->
    existsb isFailed bs = false -> existsb isFailed bs' = false.
Proof.
  intros w i bs res bs' res' Hok.
  induction 1 as [i b bs res b' pushed Hs | i b bs res bs' res' Hs IH];
    simpl; intros H; apply orb_false_iff in H; destruct H as [H1 H2];
    apply orb_false_iff; split; auto.
  eapply stepBlock_no_failure; eauto.
Qed.

Lemma steps_no_failure : forall w st st',
    pagesOk w -> steps w st st' ->
    existsb isFailed (blocks st) = false -> existsb isFailed (blocks st') = false.
Proof.
  intros w st st' Hok. induction 1 as [| st st' st'' Hs IH Hstep]; auto.
  intros H. exact (stepBlocks_no_failure _ _ _ _ _ _ Hok Hstep (IH H)).
Qed.

Lemma started_no_failure : forall days concurrency,
    existsb isFailed (blocks (started days concurrency)) = false.
Proof.
  intros days c. unfold started. simpl.
  induction (dateRanges days); simpl; auto.
Qed.

Lemma settled_finished : forall bs,
    forallb isSettled bs = true -> existsb isFailed bs = false ->
    forallb isFinished bs = true.
Proof.
  induction bs as [| [r ph] bs IH]; simpl; intros H1 H2; [reflexivity |].
  apply andb_true_iff in H1. apply orb_false_iff in H2.
  destruct H1 as [Ha Hb], H2 as [Hc Hd]. rewrite (IH Hb Hd), andb_true_r.
  unfold isSettled, isActive, isFailed, isFinished in *. simpl in *.
  destruct ph; simpl in *; congruence.
Qed.

(** *** How many blocks run at once *)

Lemma stepBlocks_length : forall w i bs res bs' res',
    stepBlocks w i bs res bs' res' -> length bs' = length bs.
Proof.
  intros w i bs res bs' res' H.
  rewrite <- (length_map b_range bs'), <- (length_map b_range bs).
  now rewrite (stepBlocks_ranges _ _ _ _ _ _ H).
Qed.

(** *** What the function resolves with *)

Lemma setup_returns_empty : forall w l tr,
    setup w [] = (Return l, tr) -> l = [].
Proof.
  intros w l tr. unfold setup, bind, await, awaitValue, emit, returnWith.
  destruct (launch_ok w), (newPage_ok w), (searchGoto_ok w); simpl;
    try discriminate.
  destruct (firstLink w) as [[[| c h] |] |]; simpl; try discriminate;
    try (intros H; now injection H as <- _).
  destruct (hotelGoto_ok w); discriminate.
Qed.

(** Every array the function resolves with is empty or, up to the order of
    the entries, the list of the day entries of the offsets of the ranges. *)
Lemma settlesWith_resolved : forall w days concurrency out,
    settlesWith w days concurrency (Resolved out) ->
    out = [] \/
    Permutation out (map (dayResult w) (allOffsets (dateRanges days))).
Proof.
  intros w days c out H. inversion H as [l tr Hs | | tr st Hs Hst Hf |]; subst.
  - left. exact (setup_returns_empty _ _ _ Hs).
  - right. exact (joined_results _ _ _ _ Hst Hf).
Qed.

(** With part 1 through and the pages opening and closing, the function
    resolves, and only with the entries of all the days. *)
Lemma settlesWith_all_days : forall w days concurrency,
    fst (setup w []) = Normal tt -> pagesOk w ->
    (exists out, settlesWith w days concurrency (Resolved out)) /\
    forall o, settlesWith w days concurrency o ->
      exists out, o = Resolved out /\
        Permutation out (map (dayResult w) (allOffsets (dateRanges days))).
Proof.
  intros w days c Hs Hok.
  destruct (setup w []) as [cs tr] eqn:Es. simpl in Hs. subst cs. split.
  - pose proof (started_reachable w days c) as Hr.
    destruct (blocks_settle w (Z.to_nat (workLeft (blocks (started days c))))
                (started days c) (reach_inLoop _ _ _ Hr)) as (st & Hst & Hf).
    { pose proof (workLeft_nonneg _ (reach_inLoop _ _ _ Hr)). lia. }
    exists (results st). apply (settle_joined w days c tr st Es Hst).
    apply settled_finished; [exact Hf |].
    exact (steps_no_failure _ _ _ Hok Hst (started_no_failure days c)).
  - intros o H. inversion H as [l tr' E | tr' E | tr' st E Hst Hf | tr' st E Hst Hf];
      subst; rewrite Es in E; try discriminate.
    + exists (results st). split; [reflexivity |].
      exact (joined_results _ _ _ _ Hst Hf).
    + rewrite (steps_no_failure _ _ _ Hok Hst (started_no_failure days c)) in Hf.
      discriminate.
Qed.

Lemma livePages_bound : forall w days concurrency st,
    steps w (started days concurrency) st -> (livePages st <= 3)%nat.
Proof.
  intros w days c st Hs.
  destruct (steps_reachable w days _ _ Hs (started_reachable w days c))
    as [H1 _ _ _].
  unfold livePages.
  pose proof (filter_length_le hasPage (blocks st)) as H.
  pose proof (dateRanges_length days) as H3.
  rewrite <- H1, length_map in H3. lia.
Qed.

Lemma dayResult_kept : forall w offset,
    keptFrom (candidatesOf w offset) (dayResult w offset).
Proof.
  intros w offset. unfold dayResult, candidatesOf.
  destruct (dv_goto (visit w offset)); [destruct (dv_dom (visit w offset)) |];
    try apply keptFrom_deduped; apply (keptFrom_deduped _ []).
Qed.

Lemma dayResult_rooms_NoDup : forall w offset,
    NoDup (map room_type (rooms (dayResult w offset))).
Proof.
  intros w offset. destruct (dayResult_rooms w offset) as [roomData ->].
  apply firstByType_NoDup.
Qed.

(** The multi-day output has unique natural keys, and the rooms of each
    entry are the first candidates per key of its day. *)
Lemma settlesWith_keys : forall w days concurrency out,
    settlesWith w days concurrency (Resolved out) ->
    NoDup (naturalKeys out) /\
    forall e, In e out ->
      exists offset, e = dayResult w offset /\ keptFrom (candidatesOf w offset) e.
Proof.
  intros w days c out H.
  destruct (settlesWith_resolved _ _ _ _ H) as [-> | Hp];
    [split; [constructor | intros e []] |].
  assert (Hall : forall e, In e out -> exists offset, e = dayResult w offset).
  { intros e He. apply (Permutation_in _ Hp) in He. apply in_map_iff in He.
    destruct He as (offset & <- & _). now exists offset. }
  split.
  - apply naturalKeys_NoDup.
    + apply (Permutation_NoDup (Permutation_sym (Permutation_map date Hp))).
      rewrite map_map.
      rewrite (map_ext _ (fun offset => isoDay (today w) + offset)
                 (dayResult_date w)).
      apply Finite.Injective_map_NoDup; [| apply dateRanges_offsets_NoDup].
      intros a b Hab. lia.
    + intros e He. destruct (Hall e He) as [offset ->].
      apply dayResult_rooms_NoDup.
  - intros e He. destruct (Hall e He) as [offset ->].
    exists offset. split; [reflexivity | apply dayResult_kept].
Qed.

(** *** The order of the entries *)

Lemma settlesWith_joined : forall w days concurrency out,
    settlesWith w days concurrency (Resolved out) ->
    out = [] \/
    exists st, steps w (started days concurrency) st /\
               forallb isFinished (blocks st) = true /\ out = results st.
Proof.
  intros w days c out H. inversion H as [l tr Hs | | tr st Hs Hst Hf |]; subst.
  - left. exact (setup_returns_empty _ _ _ Hs).
  - right. now exists st.
Qed.

(** After the join, the entries of each range stand in the array in
    ascending offset. *)
Lemma joined_inOrder : forall w days concurrency st r,
    steps w (started days concurrency) st ->
    forallb isFinished (blocks st) = true ->
    In r (dateRanges days) ->
    filter (ofRange w r) (results st) = map (dayResult w) (offsets r).
Proof.
  intros w days c st r Hs Hf Hr.
  destruct (steps_reachable w days _ _ Hs (started_reachable w days c))
    as [H1 _ _ H4].
  rewrite <- H1 in Hr. apply in_map_iff in Hr. destruct Hr as (b & <- & Hb).
  rewrite Forall_forall in H4. rewrite (H4 b Hb).
  rewrite forallb_forall in Hf. specialize (Hf b Hb).
  unfold isFinished in Hf. unfold doneOffsets.
  destruct (b_phase b); try discriminate. reflexivity.
Qed.

(** With a single range the array is in ascending offset. *)
Lemma joined_single_range : forall w days concurrency st r,
    steps w (started days concurrency) st ->
    forallb isFinished (blocks st) = true ->
    dateRanges days = [r] ->
    results st = map (dayResult w) (offsets r).
Proof.
  intros w days c st r Hs Hf Hr.
  rewrite <- (joined_inOrder w days c st r Hs Hf) by (rewrite Hr; now left).
  symmetry. apply filter_all. apply Forall_forall. intros e He.
  apply (Permutation_in _ (joined_results w days c st Hs Hf)) in He.
  rewrite Hr in He. unfold allOffsets in He. simpl in He.
  rewrite app_nil_r in He. apply in_map_iff in He.
  destruct He as (offset & <- & Ho). rewrite ofRange_dayResult.
  apply offsets_spec in Ho. lia.
Qed.

End MultiDates.

(* ================================================================== *)
(** * [EventsFetcher.getAllEvents]: the pagination loop *)
(* ================================================================== *)

Module Ticketmaster.
Import JsString Effects.

Section Fetcher.

(** JavaScript numbers; the loop never computes with them. *)
Variable num : Type.

(** The options object [getAllEvents] is called with. *)
Record Options : Type := mkOptions {
  city : option str;
  daysAhead : num;
  latitude : option num;
  longitude : option num;
  radius : num;
  countryCode : option str
}.

(** The options object [getEvents] is called with. *)
Record Query : Type := mkQuery {
  q_city : option str;
  q_daysAhead : num;
  q_limit : Z;
  q_latitude : option num;
  q_longitude : option num;
  q_radius : num;
  q_countryCode : option str
}.

(** An event as [getEvents] returns it. *)
Record EventInfo : Type := mkEventInfo {
  ev_name : str;
  ev_url : str;
  ev_date : str;
  ev_time : str;
  ev_venue : str;
  ev_genre : str;
  ev_price_range : str
}.

(** The provider: what the [n]-th call of [getEvents] returns for a query,
    [None] when [fetch] or [res.json()] throws. *)
Definition Provider : Type := nat -> Query -> option (list EventInfo).

(** [const pageSize = 200] *)
Definition pageSize : Z := 200.

(** [{ city, daysAhead, limit: pageSize, latitude, longitude, radius,
       countryCode }]: the page counter is not part of it.  ([getEvents]
    adds the time window, from its own reading of the clock.) *)
Definition queryOf (o : Options) : Query :=
  mkQuery (city o) (daysAhead o) pageSize (latitude o) (longitude o)
    (radius o) (countryCode o).

(** [while (true) { ... }] from the loop head, with [fuel] bounding the
    number of passes: the settlement and the queries issued so far, or
    [None] when the fuel runs out. *)
Fixpoint pages (fuel : nat) (provider : Provider) (o : Options)
  (page : Z) (allEvents : list EventInfo) (issued : list Query)
  : option (Outcome (list EventInfo) * list Query) :=
  match fuel with
  | O => None
  | S fuel' =>
      let issued' := issued ++ [queryOf o] in
      match provider (length issued) (queryOf o) with
      | None => Some (Rejected, issued')
      | Some events =>
          if Z.of_nat (length events) =? 0 then Some (Resolved allEvents, issued')
          else
            let allEvents' := allEvents ++ events in
            if Z.of_nat (length events) <? pageSize
            then Some (Resolved allEvents', issued')
            else
              let page' := page + 1 in
              if 50 <? page' then Some (Resolved allEvents', issued')
              else pages fuel' provider o page' allEvents' issued'
      end
  end.

(** [async getAllEvents({ city, daysAhead, latitude, longitude, radius,
     countryCode })], started with [page = 0] and [allEvents = []]. *)
Definition getAllEvents (fuel : nat) (provider : Provider) (o : Options)
  : option (Outcome (list EventInfo) * list Query) :=
  pages fuel provider o 0 [] [].

(** The provider answers the query of [o] at call [n] with a full page:
    neither empty nor shorter than [pageSize]. *)
Definition fullAt (provider : Provider) (o : Options) (n : nat) : Prop :=
  exists events, provider n (queryOf o) = Some events /\
                 pageSize <= Z.of_nat (length events).

(** The loop leaves at call [n]: the call throws, or its page is empty,
    or shorter than [pageSize], or the counter passes 50. *)
Definition leavesAt (provider : Provider) (o : Options) (n : nat) : Prop :=
  provider n (queryOf o) = None \/
  (exists events, provider n (queryOf o) = Some events /\
                  Z.of_nat (length events) < pageSize) \/
  n = 50%nat.

(** A provider that always returns a full page. *)
Definition fullPage (e : EventInfo) : Provider := fun _ _ => Some (repeat e 200).

(** From a loop head with counter [page], which counts the queries issued,
    [51 - page] passes are enough; every pass issues the same query; all
    passes but the last got a full page, and the last one leaves. *)
Lemma pages_terminate : forall fuel provider o page allEvents issued,
    page = Z.of_nat (length issued) ->
    0 <= page <= 50 -> 51 - page <= Z.of_nat fuel ->
    exists out more,
      pages fuel provider o page allEvents issued = Some (out, issued ++ more) /\
      (1 <= length more)%nat /\
      Z.of_nat (length more) <= 51 - page /\
      Forall (eq (queryOf o)) more /\
      (forall n, (length issued <= n < length issued + length more - 1)%nat ->
                 fullAt provider o n) /\
      leavesAt provider o (length issued + length more - 1).
Proof.
  induction fuel as [| fuel IH];
    intros provider o page allEvents issued Hpg Hp Hf; [lia |].
  cbn [pages].
  assert (Hone : forall out : Outcome (list EventInfo),
             leavesAt provider o (length issued) ->
             exists out' more,
               Some (out, issued ++ [queryOf o]) = Some (out', issued ++ more) /\
               (1 <= length more)%nat /\
               Z.of_nat (length more) <= 51 - page /\
               Forall (eq (queryOf o)) more /\
               (forall n, (length issued <= n < length issued + length more - 1)%nat ->
                          fullAt provider o n) /\
               leavesAt provider o (length issued + length more - 1)).
  { intros out Hl. exists out, [queryOf o].
    split; [reflexivity | split; [simpl; lia | split; [cbn [length]; lia |]]].
    split; [repeat constructor | split].
    - intros n Hn. cbn [length] in Hn. lia.
    - cbn [length]. now replace (length issued + 1 - 1)%nat with (length issued) by lia. }
  destruct (provider (length issued) (queryOf o)) as [events |] eqn:Ep;
    [| apply Hone; now left].
  destruct (Z.of_nat (length events) =? 0) eqn:E0.
  { apply Hone. right; left. exists events. split; [exact Ep |].
    unfold pageSize. lia. }
  destruct (Z.of_nat (length events) <? pageSize) eqn:E1.
  { apply Hone. right; left. exists events. split; [exact Ep | lia]. }
  destruct (50 <? page + 1) eqn:E.
  { apply Hone. right; right. lia. }
  destruct (IH provider o (page + 1) (allEvents ++ events)
              (issued ++ [queryOf o]))
    as (out & more & H1 & H2 & H3 & H4 & H5 & H6).
  { rewrite length_app. cbn [length]. lia. }
  { lia. }
  { lia. }
  rewrite length_app in H5, H6. cbn [length] in H5, H6.
  exists out, (queryOf o :: more). rewrite H1, <- app_assoc.
  split; [reflexivity | split; [simpl; lia | split; [cbn [length]; lia |]]].
  split; [now constructor | split].
  - intros n Hn. cbn [length] in Hn.
    destruct (Nat.eq_dec n (length issued)) as [-> | Hne].
    + exists events. split; [exact Ep | lia].
    + apply H5. lia.
  - cbn [length].
    replace (length issued + S (length more) - 1)%nat
      with (length issued + 1 + length more - 1)%nat by lia.
    exact H6.
Qed.

(** More fuel does not change a settled run. *)
Lemma pages_fuel_mono : forall fuel provider o page allEvents issued r,
    pages fuel provider o page allEvents issued = Some r ->
    pages (S fuel) provider o page allEvents issued = Some r.
Proof.
  induction fuel as [| fuel IH]; intros provider o page allEvents issued r H;
    [discriminate |].
  simpl in H. change (pages (S (S fuel)) provider o page allEvents issued)
    with (let issued' := issued ++ [queryOf o] in
          match provider (length issued) (queryOf o) with
          | None => Some (Rejected, issued')
          | Some events =>
              if Z.of_nat (length events) =? 0 then Some (Resolved allEvents, issued')
              else
                if Z.of_nat (length events) <? pageSize
                then Some (Resolved (allEvents ++ events), issued')
                else
                  if 50 <? page + 1 then Some (Resolved (allEvents ++ events), issued')
                  else pages (S fuel) provider o (page + 1) (allEvents ++ events) issued'
          end).
  simpl.
  destruct (provider (length issued) (queryOf o)) as [events |]; [| exact H].
  destruct (Z.of_nat (length events) =? 0); [exact H |].
  destruct (Z.of_nat (length events) <? pageSize); [exact H |].
  destruct (50 <? page + 1); [exact H |].
  now apply IH.
Qed.

Lemma pages_fuel_more : forall extra fuel provider o page allEvents issued r,
    pages fuel provider o page allEvents issued = Some r ->
    pages (extra + fuel) provider o page allEvents issued = Some r.
Proof.
  induction extra as [| extra IH]; intros fuel provider o page allEvents issued r H;
    [exact H |].
  change (S extra + fuel)%nat with (S (extra + fuel)).
  apply pages_fuel_mono. now apply IH.
Qed.

End Fetcher.

Arguments queryOf {num} o.
Arguments pages {num} fuel provider o page allEvents issued.
Arguments getAllEvents {num} fuel provider o.
Arguments fullAt {num} provider o n.
Arguments leavesAt {num} provider o n.
Arguments fullPage {num} e _ _.
Arguments mkOptions {num} _ _ _ _ _ _.
Arguments pages_terminate {num} fuel provider o page allEvents issued.
Arguments pages_fuel_more {num} extra fuel provider o page allEvents issued r.

End Ticketmaster.

(* ================================================================== *)
(** * [scrapeSongkick]: events near an origin *)
(* ================================================================== *)

Module Songkick.
Import JsString Effects Effects.Notations.
Import Stdlib.Floats.Floats.
#[local] Set Warnings "-inexact-float".
#[local] Open Scope float_scope.
#[local] Open Scope eff_scope.

(** A JavaScript number is an IEEE 754 double: a primitive float, with its
    arithmetic (rounding to nearest, ties to even) and its comparisons,
    which are false as soon as an operand is [NaN].  [Math.sin],
    [Math.cos], [Math.atan2] and [Math.sqrt] are approximated as the
    implementation sees fit: they are those of the engine in which the
    extraction callback runs, the browser's. *)
Record Engine : Type := mkEngine {
  Math_sin : float -> float;
  Math_cos : float -> float;
  Math_atan2 : float -> float -> float;
  Math_sqrt : float -> float
}.

(** [Math.PI], the double nearest to the number pi. *)
Definition Math_PI : float := 0x1.921fb54442d18p+1.


(** [Math.round(x)]: the integer nearest to [x], the upper one of two
    equally near; [x] itself when it is an integer, a zero, an infinity or
    [NaN]; [-0] for [-0.5 <= x < 0].  With [x] the integer [v] times
    [2 ^ e] and [e < 0], that integer is the floor of
    [(2 * v + 2 ^ (- e)) / 2 ^ (1 - e)], which is [x + 1 / 2]; it is below
    [2 ^ 53] in size and so a double. *)
Definition Math_round (x : float) : float :=
  match Prim2SF x with
  | S754_finite s m e =>
      if (0 <=? e)%Z then x
      else
        let v := if s then Z.neg m else Z.pos m in
        SF2Prim (binary_normalize prec emax
                   ((2 * v + 2 ^ (- e)) / 2 ^ (1 - e))%Z 0%Z s)
  | _ => x
  end.

(** [Math.round(distance * 100) / 100] *)
Definition round2 (distance : float) : float := Math_round (distance * 100) / 100.

(** The origin [{ lat, lon }]: the numbers the function is called with. *)
Record Point : Type := mkPoint { lat : float; lon : float }.

(** [function toKm(a, b)]: the haversine formula, Earth radius 6371 km. *)
Definition toKm (m : Engine) (a b : Point) : float :=
  let R := 6371 in
  let dLat := (lat b - lat a) * Math_PI / 180 in
  let dLon := (lon b - lon a) * Math_PI / 180 in
  let sindLat := Math_sin m (dLat / 2) in
  let sindLon := Math_sin m (dLon / 2) in
  let va := sindLat * sindLat
            + Math_cos m (lat a * Math_PI / 180) * Math_cos m (lat b * Math_PI / 180)
              * sindLon * sindLon in
  let c := 2 * Math_atan2 m (Math_sqrt m va) (Math_sqrt m (1 - va)) in
  R * c.

(** A value found under [geo.latitude] or [geo.longitude] that is neither
    [null] nor [undefined].  It is a number, or a value of another kind (a
    text, a boolean, an array, an object), given by its JSON text and by
    the number the arithmetic of [toKm] converts it to, [None] when that
    conversion throws. *)
Inductive Coord : Type :=
| CoordNum (x : float)
| CoordOther (json : str) (converted : option float).

Definition toNumber (c : Coord) : option float :=
  match c with
  | CoordNum x => Some x
  | CoordOther _ converted => converted
  end.

(** [toKm({ lat, lon }, { lat: evLat, lon: evLon })]; [None] when it
    throws: [evLat] and [evLon] are only subtracted from and multiplied,
    which converts them. *)
Definition distanceTo (m : Engine) (origin : Point) (evLat evLon : Coord)
  : option float :=
  match toNumber evLat, toNumber evLon with
  | Some la, Some lo => Some (toKm m origin (mkPoint la lo))
  | _, _ => None
  end.

(** [{ nombre, fecha, lugar, enlace, latitude?, longitude?, distance_km? }] *)
Record EventRecord : Type := mkEvent {
  nombre : str;
  fecha : str;
  lugar : str;
  enlace : str;
  latitude : option Coord;
  longitude : option Coord;
  distance_km : option float
}.

Definition BASE_URL : str := lit "https://www.songkick.com".

(** [url.startsWith('http') ? url : (BASE_URL + url)] *)
Definition absolute (url : str) : str :=
  match stripPrefix (lit "http") url with
  | Some _ => url
  | None => BASE_URL ++ url
  end.

(** An event object of the structured metadata, as the loop reads it. *)
Record LdEvent : Type := mkLdEvent {
  (** [ev.name || ''] *)
  ld_name : str;
  (** [ev.startDate || ''] *)
  ld_startDate : str;
  (** [ev.location?.name || ''] *)
  ld_venue : str;
  (** [ev.url || ''] *)
  ld_url : str;
  (** [geo.latitude ?? null], [geo.longitude ?? null] *)
  ld_lat : option Coord;
  ld_lon : option Coord
}.

(** A member of a parsed [application/ld+json] script. *)
Inductive LdObj : Type :=
| LdPlain (isEvent : bool) (ev : LdEvent)
    (** an object without ['@graph']; [isEvent]: [obj['@type'] === 'Event'] *)
| LdGraph (isEvent : bool) (graph : list (bool * LdEvent))
    (** an object with ['@graph'], each member with its [x['@type'] === 'Event'] *)
| LdThrows.
    (** a value on which a property read or a string method throws *)

(** An [a.event-link] with what the loop body derives around it. *)
Record Anchor : Type := mkAnchor {
  (** the loop body throws on this anchor before it reaches the
      coordinates (its [catch {}] drops it) *)
  an_throws : bool;
  (** the strings the body derives from the elements near the anchor *)
  an_nombre : str;
  an_fecha : str;
  an_venue : str;
  (** [a.getAttribute('href')] *)
  an_href : option str;
  (** [geo?.latitude ?? null], [geo?.longitude ?? null] of the microformat *)
  an_lat : option Coord;
  an_lon : option Coord
}.

(** The page of the extraction callback: its engine and its document. *)
Record EventsDom : Type := mkEventsDom {
  math : Engine;
  (** the parsed scripts, each [Array.isArray(item) ? item : [item]] *)
  ld : list (list LdObj);
  (** [document.querySelectorAll('a.event-link[href^="/concerts/"]')] *)
  anchors : list Anchor
}.

(** What one pass of a loop body does with its event. *)
Inductive Pass : Type :=
| Pushes (r : EventRecord)
| Skips
| Throws.

(** The body of the structured-metadata loop for one event:
    [if (evLat != null && evLon != null) { const distance = toKm(...);
       if (distance <= radiusKm) { ldEvents.push({..., distance_km}) } }
     else { ldEvents.push({...}) }] *)
Definition ldRecord (m : Engine) (origin : Point) (radiusKm : float) (ev : LdEvent)
  : Pass :=
  let date := firstn 10 (ld_startDate ev) in
  match ld_lat ev, ld_lon ev with
  | Some evLat, Some evLon =>
      match distanceTo m origin evLat evLon with
      | Some distance =>
          if distance <=? radiusKm
          then Pushes (mkEvent (ld_name ev) date (ld_venue ev) (absolute (ld_url ev))
                         (Some evLat) (Some evLon) (Some (round2 distance)))
          else Skips
      | None => Throws
      end
  | _, _ =>
      Pushes (mkEvent (ld_name ev) date (ld_venue ev) (absolute (ld_url ev))
                None None None)
  end.

(** [ldEvents] after the body; [None] when it throws. *)
Definition ldPush (m : Engine) (origin : Point) (radiusKm : float)
  (ldEvents : list EventRecord) (ev : LdEvent) : option (list EventRecord) :=
  match ldRecord m origin radiusKm ev with
  | Pushes r => Some (ldEvents ++ [r])
  | Skips => Some ldEvents
  | Throws => None
  end.

(** [for (const ev of eventsIn) { ... }] *)
Fixpoint ldEach (m : Engine) (origin : Point) (radiusKm : float)
  (eventsIn : list LdEvent) (ldEvents : list EventRecord)
  : option (list EventRecord) :=
  match eventsIn with
  | [] => Some ldEvents
  | ev :: rest =>
      match ldPush m origin radiusKm ldEvents ev with
      | Some ldEvents' => ldEach m origin radiusKm rest ldEvents'
      | None => None
      end
  end.

(** [obj['@graph']?.filter(x => x['@type'] === 'Event') || [obj]] for a
    member that passes the test of the loop, nothing for another;
    [None] when reading the member throws. *)
Definition eventsIn (obj : LdObj) : option (list LdEvent) :=
  match obj with
  | LdThrows => None
  | LdPlain isEvent ev => Some (if isEvent then [ev] else [])
  | LdGraph isEvent graph =>
      Some (if isEvent || existsb fst graph then map snd (filter fst graph) else [])
  end.

(** One member [obj]; [None] when something throws. *)
Definition ldObj (m : Engine) (origin : Point) (radiusKm : float)
  (ldEvents : list EventRecord) (obj : LdObj) : option (list EventRecord) :=
  match eventsIn obj with
  | Some evs => ldEach m origin radiusKm evs ldEvents
  | None => None
  end.

Fixpoint ldAll (m : Engine) (origin : Point) (radiusKm : float)
  (objs : list LdObj) (ldEvents : list EventRecord) : option (list EventRecord) :=
  match objs with
  | [] => Some ldEvents
  | obj :: rest =>
      match ldObj m origin radiusKm ldEvents obj with
      | Some ldEvents' => ldAll m origin radiusKm rest ldEvents'
      | None => None
      end
  end.

(** The structured-metadata strategy: the list built inside its [try], or
    [None] when something in it throws. *)
Definition ldStrategy (origin : Point) (radiusKm : float) (dom : EventsDom)
  : option (list EventRecord) :=
  ldAll (math dom) origin radiusKm (concat (ld dom)) [].

(** The body of the anchor loop from the coordinates on:
    [if (evLat != null && evLon != null) { const distance = toKm(...);
       if (distance > radiusKm) continue; out.push({..., distance_km}) }
     else { out.push({ nombre, fecha, lugar: venue, enlace }) }] *)
Definition anchorRecord (m : Engine) (origin : Point) (radiusKm : float) (a : Anchor)
  : Pass :=
  let enlace := match an_href a with
                | Some (c :: h) => absolute (c :: h)
                | _ => []
                end in
  match an_lat a, an_lon a with
  | Some evLat, Some evLon =>
      match distanceTo m origin evLat evLon with
      | Some distance =>
          if radiusKm <? distance then Skips
          else Pushes (mkEvent (an_nombre a) (an_fecha a) (an_venue a) enlace
                         (Some evLat) (Some evLon) (Some (round2 distance)))
      | None => Throws
      end
  | _, _ =>
      Pushes (mkEvent (an_nombre a) (an_fecha a) (an_venue a) enlace None None None)
  end.

(** One anchor: [try { ... } catch {}]. *)
Definition anchorPass (m : Engine) (origin : Point) (radiusKm : float) (a : Anchor)
  : Pass :=
  if an_throws a then Throws else anchorRecord m origin radiusKm a.

Definition anchorPush (m : Engine) (origin : Point) (radiusKm : float)
  (out : list EventRecord) (a : Anchor) : list EventRecord :=
  match anchorPass m origin radiusKm a with
  | Pushes r => out ++ [r]
  | Skips | Throws => out
  end.

(** The anchor strategy. *)
Definition anchorStrategy (origin : Point) (radiusKm : float) (dom : EventsDom)
  : list EventRecord :=
  fold_left (anchorPush (math dom) origin radiusKm) (anchors dom) [].

(** The extraction callback: [if (ldEvents.length) return ldEvents] inside
    the [try], the anchors otherwise. *)
Definition extractEvents (origin : Point) (radiusKm : float) (dom : EventsDom)
  : list EventRecord :=
  match ldStrategy origin radiusKm dom with
  | Some (e :: more) => e :: more
  | _ => anchorStrategy origin radiusKm dom
  end.

(** ** Enrichment *)

(** What the detail page of an event gives. *)
Record Detail : Type := mkDetail {
  d_fecha : str;
  d_lugar : str;
  d_enlace : str
}.

(** [(!ev.fecha || !ev.lugar || !ev.enlace) && ev.enlace] *)
Definition needsDetail (ev : EventRecord) : bool :=
  (negb (nonEmpty (fecha ev)) || negb (nonEmpty (lugar ev))
   || negb (nonEmpty (enlace ev))) && nonEmpty (enlace ev).

Definition orElse (a b : str) : str := if nonEmpty a then a else b.

(** [ev.fecha = ev.fecha || detail.fecha; ...] on the event itself. *)
Definition patch (ev : EventRecord) (d : Detail) : EventRecord :=
  mkEvent (nombre ev) (orElse (fecha ev) (d_fecha d)) (orElse (lugar ev) (d_lugar d))
    (orElse (enlace ev) (d_enlace d)) (latitude ev) (longitude ev) (distance_km ev).

(** The events after the enrichment batches: the first 15 events that
    need a detail are patched in place, each when its own fetch (the
    [k]-th) goes through. *)
Fixpoint enrich (detail : nat -> option Detail) (k : nat) (events : list EventRecord)
  : list EventRecord :=
  match events with
  | [] => []
  | ev :: rest =>
      if needsDetail ev
      then (if (k <? 15)%nat
            then match detail k with Some d => patch ev d | None => ev end
            else ev) :: enrich detail (S k) rest
      else ev :: enrich detail k rest
  end.

(** ** The function *)

Inductive Step : Type :=
| SkLaunch | SkContext | SkNewPage | SkRoute | SkGoto | SkCookies
| SkWait | SkScroll (i : nat) | SkContent | SkEval | SkClose.

Record World : Type := mkWorld {
  (** [lat], [lon] and [radiusKm], the numbers the function is called
      with: its command line passes what [parseFloat] made of its
      arguments, a finite latitude and longitude and a radius that may be
      [NaN] *)
  origin : Point;
  radiusKm : float;
  launch_ok : bool;
  context_ok : bool;
  newPage_ok : bool;
  route_ok : bool;
  goto_ok : bool;
  cookies_ok : bool;
  (** [page.waitForTimeout(2000)] *)
  pause_ok : bool;
  (** [page.waitForLoadState('networkidle')] *)
  idle_ok : bool;
  (** the scroll pass [i]: [page.evaluate] and [page.waitForTimeout(1200)] *)
  scroll_ok : nat -> bool;
  (** [page.waitForSelector('a.event-link, li.event-listings-element')] *)
  anchorsWait_ok : bool;
  (** [page.waitForSelector(sel)] for the selector with a given index *)
  selectorWait_ok : nat -> bool;
  (** [page.content()] *)
  html : option str;
  (** the document of the extraction callback, [None] if it threw *)
  eventsDom : option EventsDom;
  (** the detail fetch of the [k]-th event to enrich, [None] if it failed *)
  detail : nat -> option Detail
}.

Definition MS (A : Type) : Type := M Step (list EventRecord) A.

(** [for (const sel of selectors) { try { await page.waitForSelector(sel);
      hasAny = true; break } catch (e) {} }] *)
Fixpoint anySelector (w : World) (indices : list nat) : MS unit :=
  match indices with
  | [] => ret tt
  | i :: rest => tryCatch (await SkWait (selectorWait_ok w i)) (anySelector w rest)
  end.

(** The body of the outer [try]. *)
Definition scrapeSongkick_try (w : World) : MS (list EventRecord) :=
  await SkLaunch (launch_ok w) ;;
  await SkContext (context_ok w) ;;
  await SkNewPage (newPage_ok w) ;;
  await SkRoute (route_ok w) ;;
  await SkGoto (goto_ok w) ;;
  tryCatch (await SkCookies (cookies_ok w)) (ret tt) ;;
  await SkWait (pause_ok w) ;;
  tryCatch (await SkWait (idle_ok w)) (ret tt) ;;
  forEach (seq 0 12) (fun i => await (SkScroll i) (scroll_ok w i)) ;;
  tryCatch (await SkWait (anchorsWait_ok w)) (ret tt) ;;
  anySelector w (seq 0 7) ;;
  html <- awaitValue SkContent (html w) ;;
  if (length html <? 1000)%nat then emit SkClose ;; returnWith []
  else
    events <- awaitValue SkEval
                (option_map (extractEvents (origin w) (radiusKm w)) (eventsDom w)) ;;
    let events := enrich (detail w) 0 events in
    emit SkClose ;;
    ret events.

(** [export async function scrapeSongkick(lat, lon, radiusKm)]:
    [try { ... } catch (e) { if (browser) try { await browser.close() }
     catch {}; return [] }] *)
Definition scrapeSongkick (w : World) : list EventRecord * list Step :=
  match scrapeSongkick_try w [] with
  | (Normal events, tr) => (events, tr)
  | (Return events, tr) => (events, tr)
  | (Throw, tr) => ([], if launch_ok w then tr ++ [SkClose] else tr)
  end.

(** The calls of the outer [try] that no inner [try] guards. *)
Definition unguardedAllOk (w : World) : bool :=
  launch_ok w && context_ok w && newPage_ok w && route_ok w && goto_ok w
  && pause_ok w && forallb (scroll_ok w) (seq 0 12)
  && match html w with Some _ => true | None => false end
  && match eventsDom w with Some _ => true | None => false end.


(** The records a run of passes pushes. *)
Fixpoint pushed (passes : list Pass) : list EventRecord :=
  match passes with
  | [] => []
  | Pushes r :: rest => r :: pushed rest
  | _ :: rest => pushed rest
  end.


(** An engine, at the arguments the sample below reaches: the sine of a
    twelfth of a turn, the arc tangent of its slope, the exact square
    root; elsewhere [NaN]. *)
Definition sampleEngine : Engine :=
  mkEngine
    (fun x => if x =? 0 then x
              else if x =? 0x1.0c152382d7365p-1 then 0x1.fffffffffffffp-2
              else nan)
    (fun x => if x =? 0 then 1 else nan)
    (fun y x => if (y =? 0x1.fffffffffffffp-2) && (x =? 0x1.bb67ae8584caap-1)
                then 0x1.0c152382d7365p-1
                else nan)
    PrimFloat.sqrt.



(** ** Numbers *)








(** [Math.round] on some doubles: halves go up, also below zero, and a
    double just under a half goes down. *)
Example Math_round_sample :
  map Math_round [2.5; -2.5; 0.49999999999999994; 667169.5598673524; nan]
  = [3; -2; 0; 667170; nan].
Proof. vm_compute. reflexivity. Qed.

(** On the equator, a sixth of a turn apart, in double arithmetic. *)
Example toKm_sixty_degrees :
  toKm sampleEngine (mkPoint 0 0) (mkPoint 0 60) = 0x1.a0fb212c131edp+12 /\
  round2 0x1.a0fb212c131edp+12 = 6671.7.
Proof. vm_compute. split; reflexivity. Qed.

(** ** The distance filter, record by record *)





(** ** What the strategies collect *)





(** ** The pipeline *)

Lemma extractEvents_primary : forall origin radiusKm dom e more,
    ldStrategy origin radiusKm dom = Some (e :: more) ->
    extractEvents origin radiusKm dom = e :: more.
Proof. intros origin radiusKm dom e more H. unfold extractEvents. now rewrite H. Qed.

Lemma extractEvents_fallback : forall origin radiusKm dom,
    ldStrategy origin radiusKm dom = Some [] \/
    ldStrategy origin radiusKm dom = None ->
    extractEvents origin radiusKm dom = anchorStrategy origin radiusKm dom.
Proof.
  intros origin radiusKm dom [H | H]; unfold extractEvents; now rewrite H.
Qed.

(** ** The function never throws *)

Lemma scrapeSongkick_failure : forall w,
    fst (scrapeSongkick_try w []) = Throw -> fst (scrapeSongkick w) = [].
Proof.
  intros w H. unfold scrapeSongkick.
  destruct (scrapeSongkick_try w []) as [[events | events |] tr]; simpl in *;
    try discriminate; reflexivity.
Qed.

Lemma scrapeSongkick_launch_failure : forall w,
    launch_ok w = false -> scrapeSongkick w = ([], [SkLaunch]).
Proof.
  intros w H. unfold scrapeSongkick, scrapeSongkick_try, bind, await.
  now rewrite H.
Qed.

Lemma fst_anySelector : forall w indices tr,
    fst (anySelector w indices tr) = Normal tt.
Proof.
  intros w. induction indices as [| i rest IH]; intros tr; simpl; [reflexivity |].
  unfold tryCatch, await. destruct (selectorWait_ok w i); [reflexivity | apply IH].
Qed.

(** What the function resolves with, call by call. *)
Lemma scrapeSongkick_value : forall w,
    fst (scrapeSongkick w) =
      if launch_ok w && context_ok w && newPage_ok w && route_ok w && goto_ok w
         && pause_ok w && forallb (scroll_ok w) (seq 0 12)
      then match html w with
           | Some h =>
               if (length h <? 1000)%nat then []
               else match eventsDom w with
                    | Some dom =>
                        enrich (detail w) 0
                          (extractEvents (origin w) (radiusKm w) dom)
                    | None => []
                    end
           | None => []
           end
      else [].
Proof.
  intros w.
  assert (H : fst (scrapeSongkick w) =
              match fst (scrapeSongkick_try w []) with
              | Normal events => events
              | Return events => events
              | Throw => []
              end).
  { unfold scrapeSongkick.
    now destruct (scrapeSongkick_try w []) as [[e | e |] tr]. }
  rewrite H. clear H. unfold scrapeSongkick_try.
  rewrite fst_bind, fst_await. destruct (launch_ok w); [| reflexivity].
  rewrite fst_bind, fst_await. destruct (context_ok w); [| reflexivity].
  rewrite fst_bind, fst_await. destruct (newPage_ok w); [| reflexivity].
  rewrite fst_bind, fst_await. destruct (route_ok w); [| reflexivity].
  rewrite fst_bind, fst_await. destruct (goto_ok w); [| reflexivity].
  rewrite fst_bind, fst_try_await.
  rewrite fst_bind, fst_await. destruct (pause_ok w); [| reflexivity].
  rewrite fst_bind, fst_try_await.
  rewrite fst_bind, fst_forEach_await.
  destruct (forallb (scroll_ok w) (seq 0 12)); [| reflexivity].
  rewrite fst_bind, fst_try_await.
  rewrite fst_bind, fst_anySelector.
  rewrite fst_bind. unfold awaitValue at 1. cbn [fst snd andb].
  destruct (html w) as [h |]; [| reflexivity].
  destruct (length h <? 1000)%nat; [reflexivity |].
  rewrite fst_bind. unfold awaitValue at 1. cbn [fst snd].
  destruct (eventsDom w) as [dom |]; reflexivity.
Qed.

(** A failure of any unguarded call gives the empty array. *)
Lemma scrapeSongkick_empty_on_failure : forall w,
    unguardedAllOk w = false -> fst (scrapeSongkick w) = [].
Proof.
  intros w H. rewrite scrapeSongkick_value. unfold unguardedAllOk in H.
  destruct (launch_ok w && context_ok w && newPage_ok w && route_ok w
            && goto_ok w && pause_ok w && forallb (scroll_ok w) (seq 0 12));
    [| reflexivity].
  simpl in H. destruct (html w) as [h |]; [| reflexivity].
  destruct (length h <? 1000)%nat; [reflexivity |].
  destruct (eventsDom w); [discriminate | reflexivity].
Qed.

(** The function resolves with the empty array or with the enriched
    result of the extraction callback. *)
Lemma scrapeSongkick_shape : forall w,
    fst (scrapeSongkick w) = [] \/
    exists dom, eventsDom w = Some dom /\
      fst (scrapeSongkick w) =
        enrich (detail w) 0 (extractEvents (origin w) (radiusKm w) dom).
Proof.
  intros w. rewrite scrapeSongkick_value.
  destruct (launch_ok w && context_ok w && newPage_ok w && route_ok w
            && goto_ok w && pause_ok w && forallb (scroll_ok w) (seq 0 12));
    [| now left].
  destruct (html w) as [h |]; [| now left].
  destruct (length h <? 1000)%nat; [now left |].
  destruct (eventsDom w) as [dom |]; [right; now exists dom | now left].
Qed.

(** ** Every record of the output *)







End Songkick.


(* ================================================================== *)
(** * The properties of the specification *)
(* ================================================================== *)

Module Claims.
Import JsString Rooms Effects.

(** ** Sample inputs *)

Definition lucernaName : str := lit "Hotel Lucerna".

Definition lucerna : Booking.Card :=
  Booking.mkCard (lit "Hotel Lucerna Tijuana")
    (lit "https://www.booking.com/hotel/mx/lucerna.html").

Example scoreOf_lucerna : Booking.scoreOf asciiLower lucernaName lucerna = 104.
Proof. reflexivity. Qed.

Definition textCell (t : string) : Cell := mkCell (lit t) [] None.

(** A pricing table with two room types; the first is listed twice. *)
Definition tableDom : Dom :=
  mkDom
    (Some [ mkRow [mkCell (lit " Deluxe Room ") [Some (lit "Deluxe Room")] None;
                   textCell "MXN 1,200"] None;
            mkRow [mkCell (lit "Deluxe Room") [Some (lit "Deluxe Room")] None;
                   textCell "MXN 1,350"] None;
            mkRow [textCell "Suite Familiar"; textCell "2 guests"]
                  (Some (lit " $ 2,500 ")) ])
    [].

(** A world in which every call fulfils, with the given hotel page and
    retry days; the clock reads 2025-11-02T00:00:00Z. *)
Definition bookingWorld (launches : bool) (hotel : option Dom)
  (retry : Z -> Booking.RetryDay) : Booking.World :=
  Booking.mkWorld 1762041600000 1762041600000 launches true true true true true
    true (Some (Booking.mkSearchDom [lucerna] [])) true true true true true true
    true hotel (Some MultiDates.emptyDom) retry.

Definition emptyDays : Z -> Booking.RetryDay :=
  fun _ => Booking.mkRetryDay true (Some MultiDates.emptyDom).

(** The browser does not start. *)
Definition launchFails : Booking.World := bookingWorld false None emptyDays.

(** The hotel page shows the table. *)
Definition tableToday : Booking.World := bookingWorld true (Some tableDom) emptyDays.

(** Nothing today, nothing tomorrow, the table on the day after. *)
Definition tableInTwoDays : Booking.World :=
  bookingWorld true (Some MultiDates.emptyDom)
    (fun add => Booking.mkRetryDay true
                  (Some (if add =? 2 then tableDom else MultiDates.emptyDom))).

Definition deluxe : Room :=
  mkRoom (lit "Deluxe Room") (lit "MXN 1,200") (Some HprtTable).
Definition suite : Room :=
  mkRoom (lit "Suite Familiar") (lit "$ 2,500") (Some HprtTable).

Example hprtStrategy_tableDom : hprtStrategy tableDom = [deluxe; suite].
Proof. reflexivity. Qed.

(** The retry extractor reads prices in the cells only: the third row,
    priced in its price element, is passed over. *)
Example retryExtract_tableDom :
  retryExtract tableDom = [ mkRoom (lit "Deluxe Room") (lit "MXN 1,200") None ].
Proof. reflexivity. Qed.

(** ** C1: what a scraping job settles with *)

(** C1, counterexample.  When the browser does not start,
    [scrapeBookingPrices] does not return an array: the failed launch is
    thrown to its caller (the CLI wrapper catches it and hands on no
    records).  So is the [URIError] of [encodeURIComponent] for a hotel
    name that holds a lone surrogate (here the one-character name U+D800),
    in a world where every call fulfils. *)
Lemma booking_launch_failure_is_thrown :
  Booking.scrapeBookingPrices asciiLower lucernaName launchFails
  = (Rejected, [Booking.EvLaunch]) /\
  Booking.cliSingleDay asciiLower lucernaName launchFails = None /\
  Booking.scrapeBookingPrices asciiLower [55296%N] tableToday
  = (Rejected, [Booking.EvLaunch; Booking.EvNewPage]).
Proof. repeat split; reflexivity. Qed.

(** C1, as amended.  [scrapeSongkick] never throws: it returns the empty
    array when any call that no inner [try] guards fails, the browser
    launch included, and otherwise the empty array or the enriched result
    of its extraction callback.  [scrapeBookingPrices] returns a (possibly
    empty) array whenever the hotel name has no lone surrogate and the
    calls it awaits outside every [try] fulfil (browser launch, page
    creation, the load-state wait after a missed results selector, the
    results screenshot, the table extraction); a search page that does not
    load under either wait gives the empty array; a failed launch, and an
    ill-formed hotel name, are thrown to the caller. *)
Theorem scrapers_settle :
  (forall w, Songkick.unguardedAllOk w = false ->
             fst (Songkick.scrapeSongkick w) = []) /\
  (forall w, Songkick.launch_ok w = false ->
             Songkick.scrapeSongkick w = ([], [Songkick.SkLaunch])) /\
  (forall w, fst (Songkick.scrapeSongkick w) = [] \/
             exists dom, Songkick.eventsDom w = Some dom /\
               fst (Songkick.scrapeSongkick w) =
                 Songkick.enrich (Songkick.detail w) 0
                   (Songkick.extractEvents (Songkick.origin w)
                      (Songkick.radiusKm w) dom)) /\
  (forall toLowerCase hotelName w,
      wellFormed hotelName = true -> Booking.unguardedOk w ->
      exists l,
        fst (Booking.scrapeBookingPrices toLowerCase hotelName w) = Resolved l) /\
  (forall toLowerCase hotelName w,
      wellFormed hotelName = true ->
      Booking.launch_ok w = true -> Booking.newPage_ok w = true ->
      Booking.searchIdle_ok w = false -> Booking.searchDom_ok w = false ->
      fst (Booking.scrapeBookingPrices toLowerCase hotelName w) = Resolved []) /\
  (forall toLowerCase hotelName w, Booking.launch_ok w = false ->
      fst (Booking.scrapeBookingPrices toLowerCase hotelName w) = Rejected) /\
  (forall toLowerCase hotelName w,
      Booking.launch_ok w = true -> Booking.newPage_ok w = true ->
      wellFormed hotelName = false ->
      fst (Booking.scrapeBookingPrices toLowerCase hotelName w) = Rejected).
Proof.
  split; [exact Songkick.scrapeSongkick_empty_on_failure |].
  split; [exact Songkick.scrapeSongkick_launch_failure |].
  split; [exact Songkick.scrapeSongkick_shape |].
  split; [exact Booking.scrapeBookingPrices_resolves |].
  split; [| split].
  - intros toLowerCase hotelName w H0 H1 H2 H3 H4.
    unfold Booking.scrapeBookingPrices, call, Booking.scrapeBookingPrices_body,
      Booking.openHotelPage, bind, await, guard, tryCatch, emit, returnWith.
    now rewrite H0, H1, H2, H3, H4.
  - intros toLowerCase hotelName w H.
    now rewrite (Booking.scrapeBookingPrices_launch_rejects
                   toLowerCase hotelName w H).
  - intros toLowerCase hotelName w H1 H2 H3.
    now rewrite (Booking.scrapeBookingPrices_name_rejects
                   toLowerCase hotelName w H1 H2 H3).
Qed.

(** C1, witness: a hotel page with a pricing table, every unguarded call
    fulfilled. *)
Lemma scrapers_settle_witness :
  wellFormed lucernaName = true /\
  Booking.unguardedOk tableToday /\
  exists l,
    fst (Booking.scrapeBookingPrices asciiLower lucernaName tableToday) = Resolved l.
Proof.
  assert (H : Booking.unguardedOk tableToday).
  { repeat split; try reflexivity; [now left | discriminate]. }
  split; [reflexivity |]. split; [exact H |].
  exact (proj1 (proj2 (proj2 (proj2 scrapers_settle)))
           asciiLower lucernaName tableToday eq_refl H).
Defined.

(** ** C2: how many blocks run at once *)

(** C2, the code at [days = 90], [concurrency = 1].  The bound
    [Math.min(concurrency, 5)] is 1, and after [dateRanges.map] each of the
    three blocks has asked for its page; once the three [browser.newPage()]
    calls are back, three page sessions are open at once.  (At most three
    are, whatever [concurrency] is: [MultiDates.livePages_bound].) *)
Theorem three_pages_under_concurrency_one :
  let st := MultiDates.runSchedule MultiDates.calmWorld [0; 1; 2]%nat
              (MultiDates.started 90 1) in
  MultiDates.CONCURRENT_TASKS 1 = 1 /\
  MultiDates.activeBlocks (MultiDates.started 90 1) = 3%nat /\
  MultiDates.steps MultiDates.calmWorld (MultiDates.started 90 1) st /\
  map MultiDates.b_phase (MultiDates.blocks st) =
    [MultiDates.Visiting 0; MultiDates.Visiting 31; MultiDates.Visiting 61] /\
  MultiDates.livePages st = 3%nat.
Proof.
  split; [reflexivity |]. split; [reflexivity |].
  split; [apply MultiDates.runSchedule_steps |].
  split; reflexivity.
Qed.

(** ** C3: the order of the multi-day output *)

(** C3, counterexample, at [days = 33].  Two runs in the same world,
    differing only in which block the scheduler resumes first, both end
    with every block fulfilled and return the per-day entries in different
    orders; when the last block completes first its days come first.  The
    shared array is pushed to while blocks are still running: after the
    second block has opened its page and done its first day, the array
    holds that day. *)
Lemma completion_order_decides_output :
  let early := MultiDates.runSchedule MultiDates.calmWorld
                 MultiDates.blockByBlock (MultiDates.started 33 5) in
  let late := MultiDates.runSchedule MultiDates.calmWorld
                MultiDates.lastBlockFirst (MultiDates.started 33 5) in
  let midway := MultiDates.runSchedule MultiDates.calmWorld [1; 1]%nat
                  (MultiDates.started 33 5) in
  MultiDates.settlesWith MultiDates.calmWorld 33 5
    (Resolved (MultiDates.results early)) /\
  MultiDates.settlesWith MultiDates.calmWorld 33 5
    (Resolved (MultiDates.results late)) /\
  map date (MultiDates.results early) = map Z.of_nat (seq 0 33) /\
  map date (MultiDates.results late) = [31; 32] ++ map Z.of_nat (seq 0 31) /\
  MultiDates.results midway = [mkDay 31 []] /\
  forallb MultiDates.isFinished (MultiDates.blocks midway) = false.
Proof.
  assert (Hs : MultiDates.setup MultiDates.calmWorld [] =
               (Normal tt, snd (MultiDates.setup MultiDates.calmWorld [])))
    by reflexivity.
  split; [| split]; [| | repeat split; vm_compute; reflexivity].
  - apply (MultiDates.settle_joined _ _ _ _ _ Hs);
      [apply MultiDates.runSchedule_steps | vm_compute; reflexivity].
  - apply (MultiDates.settle_joined _ _ _ _ _ Hs);
      [apply MultiDates.runSchedule_steps | vm_compute; reflexivity].
Qed.

(** C3, as amended.  An array [scrapeMultipleDates] resolves with is empty
    or holds the per-day entries of all the ranges; the entries of each
    range stand in ascending day offset, and entries of different ranges
    follow the order in which their days completed; for windows of at most
    31 days, which have a single range, the array is in ascending day
    offset.  Two runs that differ only in the interleaving of the blocks
    return the same entries, up to their order.  Each block pushes to the
    shared array as its days complete: at every moment of the run the array
    holds what the blocks have pushed so far. *)
Theorem output_follows_completion : forall w days concurrency out,
    MultiDates.settlesWith w days concurrency (Resolved out) ->
    (out = [] \/
     (Permutation out
        (map (MultiDates.dayResult w)
           (Partition.allOffsets (Partition.dateRanges days))) /\
      (forall r, In r (Partition.dateRanges days) ->
         filter (MultiDates.ofRange w r) out =
           map (MultiDates.dayResult w) (Partition.offsets r)) /\
      (1 <= days <= 31 ->
         out = map (MultiDates.dayResult w) (map Z.of_nat (seq 0 (Z.to_nat days)))))) /\
    (forall out', MultiDates.settlesWith w days concurrency (Resolved out') ->
                  Permutation out out') /\
    (forall st, MultiDates.steps w (MultiDates.started days concurrency) st ->
                Permutation (MultiDates.results st)
                  (MultiDates.pushedBy w (MultiDates.blocks st))).
Proof.
  intros w days c out H. split; [| split].
  - destruct (MultiDates.settlesWith_joined _ _ _ _ H)
      as [-> | (st & Hst & Hf & ->)]; [now left | right].
    split; [exact (MultiDates.joined_results _ _ _ _ Hst Hf) |].
    split; [intros r Hr; exact (MultiDates.joined_inOrder _ _ _ _ r Hst Hf Hr) |].
    intros Hd.
    destruct (Partition.dateRanges_cases days) as [[_ Hr] | [[Hx _] | [Hx _]]];
      try lia.
    rewrite (MultiDates.joined_single_range _ _ _ _ _ Hst Hf Hr).
    rewrite <- (Partition.dateRanges_offsets days) by lia.
    rewrite Hr. unfold Partition.allOffsets. simpl. now rewrite app_nil_r.
  - intros out' H'.
    inversion H as [l tr E | | tr st E Hst Hf |];
      inversion H' as [l' tr' E' | | tr' st' E' Hst' Hf' |]; subst;
      rewrite E in E'; try discriminate.
    + injection E' as <- _. apply Permutation_refl.
    + rewrite (MultiDates.joined_results _ _ _ _ Hst Hf).
      symmetry. exact (MultiDates.joined_results _ _ _ _ Hst' Hf').
  - intros st Hst.
    exact (MultiDates.reach_pushed _ _ _
             (MultiDates.steps_reachable w days _ _ Hst
                (MultiDates.started_reachable w days c))).
Qed.

(** C3, witness: the run of 33 days in which the last block completes
    first. *)
Lemma output_follows_completion_witness :
  let late := MultiDates.results
                (MultiDates.runSchedule MultiDates.calmWorld
                   MultiDates.lastBlockFirst (MultiDates.started 33 5)) in
  MultiDates.settlesWith MultiDates.calmWorld 33 5 (Resolved late) /\
  forall out', MultiDates.settlesWith MultiDates.calmWorld 33 5 (Resolved out') ->
               Permutation late out'.
Proof.
  intros late.
  assert (H : MultiDates.settlesWith MultiDates.calmWorld 33 5 (Resolved late)).
  { apply (MultiDates.settle_joined _ _ _
             (snd (MultiDates.setup MultiDates.calmWorld [])));
      [reflexivity | apply MultiDates.runSchedule_steps | vm_compute; reflexivity]. }
  split; [exact H |].
  exact (proj1 (proj2 (output_follows_completion MultiDates.calmWorld 33 5 late H))).
Defined.

(** ** C5: natural keys *)



(** ** C6: the first strategy that finds records decides *)

(** C6.  Prices: once the hotel page is open, a non-empty result of the
    table strategy is the rooms of the returned entry, unchanged, and the
    only calls that follow are the table callback and the closing of the
    browser; the generic callback is evaluated only after an empty table
    result; in the one-callback extractors a non-empty table part is the
    result.  Events: a non-empty result of the structured-metadata strategy
    is the result of the extraction callback; the anchors decide only when
    that strategy yields nothing or throws. *)
Theorem first_strategy_decides :
  (forall toLowerCase hotelName w dom tr1,
      Booking.openHotelPage toLowerCase hotelName w [] = (Normal tt, tr1) ->
      Booking.hotelPage w = Some dom -> hprtStrategy dom <> [] ->
      Booking.scrapeBookingPrices toLowerCase hotelName w =
        (Resolved [mkDay (Booking.isoDay (Booking.today w)) (hprtStrategy dom)],
         tr1 ++ [Booking.EvEval Booking.CbHprt; Booking.EvClose])) /\
  (forall w tr,
      In (Booking.EvEval Booking.CbGeneric) (snd (Booking.extractToday w tr)) ->
      In (Booking.EvEval Booking.CbGeneric) tr \/
      exists dom, Booking.hotelPage w = Some dom /\ hprtStrategy dom = []) /\
  (forall rowBody dom,
      tablePart rowBody dom <> [] ->
      tableThenNear rowBody dom = tablePart rowBody dom) /\
  (forall origin radiusKm dom e more,
      Songkick.ldStrategy origin radiusKm dom = Some (e :: more) ->
      Songkick.extractEvents origin radiusKm dom = e :: more) /\
  (forall origin radiusKm dom,
      Songkick.ldStrategy origin radiusKm dom = Some [] \/
      Songkick.ldStrategy origin radiusKm dom = None ->
      Songkick.extractEvents origin radiusKm dom =
        Songkick.anchorStrategy origin radiusKm dom).
Proof.
  split; [exact Booking.scrapeBookingPrices_primary |].
  split; [exact Booking.extractToday_generic_only_after_empty |].
  split; [exact tableThenNear_primary |].
  split; [exact Songkick.extractEvents_primary |].
  exact Songkick.extractEvents_fallback.
Qed.

(** C6, witness: the hotel page with the pricing table. *)
Lemma first_strategy_decides_witness :
  hprtStrategy tableDom = [deluxe; suite] /\
  Booking.scrapeBookingPrices asciiLower lucernaName tableToday =
    (Resolved [mkDay 20394 [deluxe; suite]],
     snd (Booking.openHotelPage asciiLower lucernaName tableToday [])
     ++ [Booking.EvEval Booking.CbHprt; Booking.EvClose]).
Proof.
  split; [reflexivity |].
  refine (proj1 first_strategy_decides asciiLower lucernaName tableToday tableDom
            (snd (Booking.openHotelPage asciiLower lucernaName tableToday [])) _ _ _).
  - reflexivity.
  - reflexivity.
  - discriminate.
Defined.

(** ** C7: the retry policy *)

(** C7.  When the initial date yields no records, [scrapeBookingPrices]
    goes to the check-in days [d0 + 1], [d0 + 2], ... one at a time, each
    with a fresh navigation and extraction, stops at the first day that
    yields records and returns that day's entry, and after five days
    without records returns the empty array: the initial date and the days
    tried are pairwise different and at most six. *)
Theorem retry_policy : forall toLowerCase hotelName w tr1,
    Booking.initialRecords toLowerCase hotelName w = (Normal [], tr1) ->
    let d0 := Booking.isoDay (Booking.today w) in
    let tried := Booking.passesRun w [1; 2; 3; 4; 5] in
    let dates := d0 :: map (fun add => d0 + add) tried in
    fst (Booking.scrapeBookingPrices toLowerCase hotelName w) =
      Resolved match Booking.firstFound w [1; 2; 3; 4; 5] with
               | Some e => [e]
               | None => []
               end /\
    Booking.gotoDays (snd (Booking.scrapeBookingPrices toLowerCase hotelName w)) =
      Booking.gotoDays tr1 ++ map (fun add => d0 + add) tried /\
    (exists k, (k <= 5)%nat /\ tried = firstn k [1; 2; 3; 4; 5]) /\
    (length dates <= 6)%nat /\
    NoDup dates /\
    (forall e, Booking.firstFound w [1; 2; 3; 4; 5] = Some e ->
       exists pre a post,
         [1; 2; 3; 4; 5] = pre ++ a :: post /\
         (forall b, In b pre -> Booking.retryFound w b = None) /\
         Booking.retryFound w a = Some e /\ date e = d0 + a) /\
    (Booking.firstFound w [1; 2; 3; 4; 5] = None ->
       tried = [1; 2; 3; 4; 5] /\
       fst (Booking.scrapeBookingPrices toLowerCase hotelName w) = Resolved []).
Proof.
  intros toLowerCase hotelName w tr1 Hi d0 tried dates. subst dates.
  destruct (Booking.scrapeBookingPrices_retries toLowerCase hotelName w tr1 Hi) as [H1 H2].
  destruct (Booking.passesRun_prefix w [1; 2; 3; 4; 5]) as (k & Hk & Hpre).
  fold tried in Hpre.
  split; [exact H1 |]. split; [exact H2 |].
  split; [exists k; split; [exact Hk | exact Hpre] |].
  assert (Hin : forall a, In a tried -> 1 <= a <= 5).
  { intros a Ha. rewrite Hpre in Ha.
    assert (Hsub : In a [1; 2; 3; 4; 5]).
    { rewrite <- (firstn_skipn k). apply in_or_app. now left. }
    simpl in Hsub. lia. }
  assert (Hnd : NoDup tried).
  { rewrite Hpre. clear.
    do 6 (destruct k as [| k]; [simpl; repeat constructor; simpl; lia |]).
    simpl. repeat constructor; simpl; lia. }
  split.
  { cbn [length]. rewrite length_map, Hpre, length_firstn. simpl. lia. }
  split.
  { constructor.
    - intros H. apply in_map_iff in H. destruct H as (a & Ha & Hal).
      specialize (Hin a Hal). lia.
    - apply Finite.Injective_map_NoDup; [| exact Hnd].
      intros a b Hab. lia. }
  split.
  - intros e He. destruct (Booking.firstFound_first w _ e He)
      as (pre & a & post & E & Hp & Ha).
    exists pre, a, post. repeat split; auto.
    unfold Booking.retryFound in Ha.
    destruct (Booking.rd_goto (Booking.retry w a)); [| discriminate].
    destruct (Booking.rd_dom (Booking.retry w a)); [| discriminate].
    destruct (firstPriceByType (retryExtract d)); [discriminate |].
    now injection Ha as <-.
  - intros Hn. split.
    + exact (Booking.passesRun_all w _ Hn).
    + rewrite H1. now rewrite Hn.
Qed.

(** C7, witness: no records today or tomorrow, the table on the second
    day after; the run navigates to the two days in turn and returns the
    entry of the second. *)
Lemma retry_policy_witness :
  fst (Booking.initialRecords asciiLower lucernaName tableInTwoDays) = Normal [] /\
  fst (Booking.scrapeBookingPrices asciiLower lucernaName tableInTwoDays) =
    Resolved [mkDay 20396 [mkRoom (lit "Deluxe Room") (lit "MXN 1,200") None]] /\
  Booking.passesRun tableInTwoDays [1; 2; 3; 4; 5] = [1; 2].
Proof.
  split; [reflexivity |]. split; [| reflexivity].
  exact (proj1 (retry_policy asciiLower lucernaName tableInTwoDays
                  (snd (Booking.initialRecords asciiLower lucernaName tableInTwoDays))
                  eq_refl)).
Defined.

(** ** C8: the distance filter *)

Section Distance.
Import Stdlib.Floats.Floats.
#[local] Set Warnings "-inexact-float".
#[local] Open Scope float_scope.




End Distance.

(** ** C9: one entry per day of every block *)

(** C9, counterexample.  For a 3-day window whose search page has no
    result link, [scrapeMultipleDates] returns the empty array: none of
    the offsets 0, 1, 2 of the block has an entry. *)
Lemma no_search_result_no_entries :
  MultiDates.settlesWith MultiDates.noLinkWorld 3 5 (Resolved []) /\
  (forall o, MultiDates.settlesWith MultiDates.noLinkWorld 3 5 o -> o = Resolved []) /\
  Partition.allOffsets (Partition.dateRanges 3) = [0; 1; 2].
Proof.
  assert (Hs : MultiDates.setup MultiDates.noLinkWorld [] =
               (Return [], snd (MultiDates.setup MultiDates.noLinkWorld [])))
    by reflexivity.
  split; [exact (MultiDates.settle_early _ _ _ _ _ Hs) |].
  split; [| reflexivity].
  intros o H. inversion H as [l tr E | tr E | tr st E | tr st E]; subst;
    rewrite Hs in E; try discriminate.
  now injection E as <- _.
Qed.

(** C9, as amended.  For a window of 1 to 90 days, when part 1 of the
    function is through (the search has a result, the hotel page loads)
    and the pages of the blocks open and close: the function resolves, and
    whatever the interleaving of the blocks, with exactly the entries of
    the day offsets 0 .. days-1, one each, in some order.  The entry of a
    day is dated with that day and has no rooms when the navigation or the
    extraction of the day fails.  At every moment of the run each block has
    pushed the entries of an initial segment of its range and nothing
    else. *)
Theorem block_days_all_recorded : forall w days concurrency,
    1 <= days <= 90 ->
    fst (MultiDates.setup w []) = Normal tt ->
    MultiDates.pagesOk w ->
    let expected :=
      map (MultiDates.dayResult w) (map Z.of_nat (seq 0 (Z.to_nat days))) in
    (exists out, MultiDates.settlesWith w days concurrency (Resolved out)) /\
    (forall o, MultiDates.settlesWith w days concurrency o ->
               exists out, o = Resolved out /\ Permutation out expected) /\
    (forall offset,
        date (MultiDates.dayResult w offset)
          = Booking.isoDay (MultiDates.today w) + offset /\
        (MultiDates.dv_goto (MultiDates.visit w offset) = false \/
         MultiDates.dv_dom (MultiDates.visit w offset) = None ->
         rooms (MultiDates.dayResult w offset) = [])) /\
    (forall st, MultiDates.steps w (MultiDates.started days concurrency) st ->
                MultiDates.reachable w days st).
Proof.
  intros w days c Hd Hs Hok expected.
  destruct (MultiDates.settlesWith_all_days w days c Hs Hok) as [H1 H2].
  unfold expected. rewrite <- (Partition.dateRanges_offsets days Hd).
  split; [exact H1 |]. split; [exact H2 |]. split.
  - intros offset. split; [apply MultiDates.dayResult_date |].
    intros H. now rewrite (MultiDates.dayResult_failed w offset H).
  - intros st Hst.
    exact (MultiDates.steps_reachable w days _ _ Hst
             (MultiDates.started_reachable w days c)).
Qed.

(** C9, witness: three days, every call fulfilled. *)
Lemma block_days_all_recorded_witness :
  1 <= 3 <= 90 /\
  fst (MultiDates.setup MultiDates.calmWorld []) = Normal tt /\
  MultiDates.pagesOk MultiDates.calmWorld /\
  exists out, MultiDates.settlesWith MultiDates.calmWorld 3 5 (Resolved out).
Proof.
  assert (Hok : MultiDates.pagesOk MultiDates.calmWorld) by (intros i; now split).
  split; [lia |]. split; [reflexivity |]. split; [exact Hok |].
  apply (block_days_all_recorded MultiDates.calmWorld 3 5);
    [lia | reflexivity | exact Hok].
Defined.

(** ** C10: the pagination loop terminates *)

(** C10.  For every options object and every provider, [getAllEvents]
    settles within 52 passes of its loop (51 at most, and more fuel changes
    nothing): every pass issues the same query, in which the page counter
    has no part; every pass but the last received a full page of at least
    200 events; the last pass is one whose call throws, or whose page is
    empty or shorter than 200, or the 51st, where the counter passes 50. *)
Theorem getAllEvents_terminates :
  forall (num : Type) (provider : Ticketmaster.Provider num)
         (o : Ticketmaster.Options num),
  exists out issued,
    Ticketmaster.getAllEvents 52 provider o = Some (out, issued) /\
    (forall fuel, (52 <= fuel)%nat ->
                  Ticketmaster.getAllEvents fuel provider o = Some (out, issued)) /\
    (1 <= length issued <= 51)%nat /\
    (length issued <= 52)%nat /\
    Forall (eq (Ticketmaster.queryOf o)) issued /\
    (forall n, (n < length issued - 1)%nat -> Ticketmaster.fullAt provider o n) /\
    Ticketmaster.leavesAt provider o (length issued - 1).
Proof.
  intros num provider o.
  destruct (Ticketmaster.pages_terminate 52 provider o 0 [] [])
    as (out & issued & H1 & H2 & H3 & H4 & H5 & H6);
    [reflexivity | lia | lia |].
  cbn [length app Nat.add] in H1, H3, H5, H6. exists out, issued.
  split; [exact H1 |]. split.
  { intros fuel Hf. replace fuel with ((fuel - 52) + 52)%nat by lia.
    now apply Ticketmaster.pages_fuel_more. }
  split; [lia |]. split; [lia |]. split; [exact H4 |]. split.
  - intros n Hn. apply H5. lia.
  - exact H6.
Qed.

(** The bound of 51 passes is reached by a provider whose pages are
    always full. *)
Example getAllEvents_full_pages :
  forall e : Ticketmaster.EventInfo,
    option_map (fun r => length (snd r))
      (Ticketmaster.getAllEvents 52 (Ticketmaster.fullPage e)
         (Ticketmaster.mkOptions None 90 (Some 32) (Some (-117)) 10 None))
    = Some 51%nat.
Proof. intros e. vm_compute. reflexivity. Qed.

End Claims.

(* ================================================================== *)
(** * Windows of any length *)
(* ================================================================== *)

Module Scheduling.
Import JsString Rooms Effects Partition MultiDates.
Import Booking (isoDay).

(** The day of the entry with a given offset from the first check-in day. *)
Definition dayAt (w : World) (k : nat) : Z := isoDay (today w) + Z.of_nat k.

(** The number of day offsets [dateRanges] covers: none for [days <= 0],
    [days] up to 90, and the 91 offsets 0 .. 90 from there on. *)
Definition daysCovered (days : Z) : nat := Z.to_nat (Z.min days 91).

Lemma dateRanges_none : forall days, days <= 0 -> dateRanges days = [].
Proof.
  intros days H. destruct (dateRanges_any days) as [[_ E] | [H1 _]];
    [exact E | lia].
Qed.

Lemma dateRanges_full : forall days,
    91 <= days -> dateRanges days = [(0, 30); (31, 60); (61, 90)].
Proof.
  intros days H. unfold dateRanges. simpl.
  repeat match goal with
    | |- context [Z.min ?a ?b] =>
        first [rewrite (Z.min_l a b) by lia | rewrite (Z.min_r a b) by lia]
    end.
  reflexivity.
Qed.

Lemma covered_any : forall days d,
    covered (dateRanges days) d <-> 0 <= d < Z.min days 91.
Proof.
  intros days d. rewrite <- allOffsets_spec, dateRanges_offsets_any.
  rewrite in_map_iff. split.
  - intros (k & <- & Hk). apply in_seq in Hk. lia.
  - intros Hd. exists (Z.to_nat d). split; [lia |]. apply in_seq. lia.
Qed.

Lemma settled_dates : forall w days concurrency,
    fst (setup w []) = Normal tt -> pagesOk w ->
    forall o, settlesWith w days concurrency o ->
      exists out, o = Resolved out /\
        Permutation (map date out) (map (dayAt w) (seq 0 (daysCovered days))) /\
        length out = daysCovered days.
Proof.
  intros w days c Hs Hok o Ho.
  destruct (settlesWith_all_days w days c Hs Hok) as [_ H].
  destruct (H o Ho) as (out & -> & Hp). exists out. split; [reflexivity |].
  rewrite dateRanges_offsets_any in Hp. split.
  - apply (Permutation_map date) in Hp. rewrite !map_map in Hp.
    unfold dayAt.
    rewrite (map_ext _ (fun k => isoDay (today w) + Z.of_nat k)) in Hp;
      [exact Hp |].
    intros k. apply dayResult_date.
  - rewrite (Permutation_length Hp), !length_map, length_seq. reflexivity.
Qed.

(** X1.  [dateRanges] for any integer [days]: at most three ranges, no
    offset in two of them, and the offsets they cover, in ascending order,
    are 0 .. min(days, 91) - 1.  So a window of zero or fewer days has no
    range at all, and a window of 91 days or more has the three ranges
    [0,30], [31,60], [61,90]: 91 day offsets, whatever [days] is. *)
Theorem dateRanges_every_window : forall days,
    (length (dateRanges days) <= 3)%nat /\
    ForallOrdPairs disjoint (dateRanges days) /\
    allOffsets (dateRanges days) = map Z.of_nat (seq 0 (daysCovered days)) /\
    (forall d, covered (dateRanges days) d <-> 0 <= d < Z.min days 91) /\
    (days <= 0 -> dateRanges days = []) /\
    (91 <= days -> dateRanges days = [(0, 30); (31, 60); (61, 90)]).
Proof.
  intros days.
  split; [apply dateRanges_length |].
  split; [apply dateRanges_disjoint |].
  split; [apply dateRanges_offsets_any |].
  split; [apply covered_any |].
  split; [apply dateRanges_none | apply dateRanges_full].
Qed.

(** X2.  [scrapeMultipleDates] outside the windows of 1 to 90 days, when
    part 1 of the function is through and the pages of the blocks open and
    close.  For [days <= 0] the browser is started, the hotel page is
    opened, no block runs and the function resolves with the empty array.
    For [days >= 91] it resolves with 91 entries, one for each of the days
    today .. today + 90, whatever the interleaving of the blocks. *)
Theorem multi_day_window_limits : forall w days concurrency,
    fst (setup w []) = Normal tt -> pagesOk w ->
    (exists out, settlesWith w days concurrency (Resolved out)) /\
    (days <= 0 ->
     forall o, settlesWith w days concurrency o -> o = Resolved []) /\
    (91 <= days ->
     forall o, settlesWith w days concurrency o ->
       exists out, o = Resolved out /\ length out = 91%nat /\
         Permutation (map date out) (map (dayAt w) (seq 0 91))).
Proof.
  intros w days c Hs Hok.
  split; [exact (proj1 (settlesWith_all_days w days c Hs Hok)) |].
  split; intros Hd o Ho;
    destruct (settled_dates w days c Hs Hok o Ho) as (out & -> & Hp & Hl);
    unfold daysCovered in *.
  - replace (Z.to_nat (Z.min days 91)) with 0%nat in Hl by lia.
    destruct out; [reflexivity | discriminate].
  - replace (Z.to_nat (Z.min days 91)) with 91%nat in * by lia.
    exists out. now repeat split.
Qed.

(** X2, witness: a window of 120 days in a world where every call fulfils. *)
Lemma multi_day_window_limits_witness :
  fst (setup calmWorld []) = Normal tt /\
  pagesOk calmWorld /\
  exists out, settlesWith calmWorld 120 5 (Resolved out).
Proof.
  assert (Hok : pagesOk calmWorld) by (intros i; now split).
  split; [reflexivity |]. split; [exact Hok |].
  exact (proj1 (multi_day_window_limits calmWorld 120 5 eq_refl Hok)).
Defined.

End Scheduling.

(* ================================================================== *)
(** * [scrapeSongkick]: the batches of the enrichment *)
(* ================================================================== *)

Module Enrichment.
Import JsString Songkick.
#[local] Open Scope nat_scope.

Section Chunks.
Context {A : Type}.

(** [arr.slice(i, j)] for indices [0 <= i], [0 <= j]. *)
Definition slice (arr : list A) (i j : nat) : list A :=
  firstn (j - i) (skipn i arr).

(** [for (let i = 0; i < arr.length; i += size) res.push(arr.slice(i, i + size))]
    from the loop test, with [fuel] bounding the number of passes; [None]
    when the fuel runs out. *)
Fixpoint chunkLoop (fuel : nat) (arr : list A) (size i : nat)
  (res : list (list A)) : option (list (list A)) :=
  match fuel with
  | O => None
  | S fuel' =>
      if i <? length arr
      then chunkLoop fuel' arr size (i + size) (res ++ [slice arr i (i + size)])
      else Some res
  end.

(** [function chunkArray(arr, size)] *)
Definition chunkArray (fuel : nat) (arr : list A) (size : nat)
  : option (list (list A)) :=
  chunkLoop fuel arr size 0 [].

(** Every chunk but the last one has [size] elements. *)
Fixpoint fullButLast (size : nat) (chunks : list (list A)) : Prop :=
  match chunks with
  | [] => True
  | [c] => True
  | c :: rest => length c = size /\ fullButLast size rest
  end.

End Chunks.

(** [events.filter(ev => (!ev.fecha || !ev.lugar || !ev.enlace) && ev.enlace)
      .slice(0, 15)] *)
Definition needEnrichment (events : list EventRecord) : list EventRecord :=
  firstn 15 (filter needsDetail events).

(** [const concurrency = 5] *)
Definition concurrency : nat := 5.

(** The batches [for (const batch of chunkArray(needEnrichment, concurrency))]
    runs one after the other, each with [Promise.all]. *)
Definition batches (fuel : nat) (events : list EventRecord)
  : option (list (list EventRecord)) :=
  chunkArray fuel (needEnrichment events) concurrency.

(** An event the enrichment may only complete: it keeps its name, link,
    coordinates and distance, and every date and venue it had. *)
Definition completes (ev ev' : EventRecord) : Prop :=
  nombre ev' = nombre ev /\ enlace ev' = enlace ev /\
  latitude ev' = latitude ev /\ longitude ev' = longitude ev /\
  distance_km ev' = distance_km ev /\
  (nonEmpty (fecha ev) = true -> fecha ev' = fecha ev) /\
  (nonEmpty (lugar ev) = true -> lugar ev' = lugar ev) /\
  (needsDetail ev = false -> ev' = ev).

(** ** Lemmas on [chunkArray] *)

Section ChunkLemmas.
Context {A : Type}.

Lemma chunkLoop_spec : forall fuel (arr : list A) size i res,
    1 <= size -> length arr - i < fuel ->
    exists more,
      chunkLoop fuel arr size i res = Some (res ++ more) /\
      concat more = skipn i arr /\
      Forall (fun c => 1 <= length c <= size) more /\
      fullButLast size more /\
      length more * size < length arr - i + size /\
      length arr - i <= length more * size.
Proof.
  induction fuel as [| fuel IH]; intros arr size i res Hs Hf; [lia |].
  cbn [chunkLoop]. destruct (i <? length arr) eqn:E.
  - apply Nat.ltb_lt in E.
    destruct (IH arr size (i + size) (res ++ [slice arr i (i + size)]) Hs)
      as (more & H1 & H2 & H3 & H4 & H5 & H6); [lia |].
    assert (Hl : length (slice arr i (i + size)) = Nat.min size (length arr - i)).
    { unfold slice. rewrite length_firstn, length_skipn. lia. }
    exists (slice arr i (i + size) :: more).
    rewrite H1, <- app_assoc. split; [reflexivity |]. split.
    { cbn [concat]. rewrite H2. unfold slice.
      replace (i + size - i) with size by lia.
      replace (i + size) with (size + i) by lia.
      rewrite <- (skipn_skipn size i arr).
      apply firstn_skipn. }
    split; [constructor; [lia | exact H3] |].
    split.
    { destruct more as [| c more']; [exact I |]. split; [| exact H4].
      cbn [length] in H5.
      destruct (le_lt_dec (length arr) (i + size)) as [Hle | Hlt]; [| lia].
      replace (length arr - (i + size)) with 0 in H5 by lia. nia. }
    cbn [length].
    destruct (le_lt_dec (length arr) (i + size)) as [Hle | Hlt].
    + replace (length arr - (i + size)) with 0 in * by lia.
      assert (Hm : length more = 0) by nia. rewrite Hm. lia.
    + replace (length arr - i) with (length arr - (i + size) + size) by lia.
      split; nia.
  - apply Nat.ltb_ge in E. exists []. rewrite app_nil_r.
    split; [reflexivity |]. split; [now rewrite skipn_all2 |].
    split; [constructor |]. split; [exact I |]. cbn [length]. lia.
Qed.

(** With [size = 0] the loop variable stays below [arr.length]: on a
    non-empty array the loop never ends. *)
Lemma chunkLoop_size_zero : forall fuel (arr : list A) i res,
    i < length arr -> chunkLoop fuel arr 0 i res = None.
Proof.
  induction fuel as [| fuel IH]; intros arr i res H; [reflexivity |].
  cbn [chunkLoop]. rewrite (proj2 (Nat.ltb_lt _ _) H), Nat.add_0_r.
  now apply IH.
Qed.

End ChunkLemmas.

(** ** Lemmas on the enrichment *)

Lemma patch_completes : forall ev d,
    nonEmpty (enlace ev) = true -> completes ev (patch ev d).
Proof.
  intros ev d He. unfold completes, patch, orElse. simpl. rewrite He.
  repeat split; try (intros H; now rewrite H).
  unfold needsDetail. rewrite He, andb_true_r. intros H.
  apply orb_false_iff in H. destruct H as [H H3].
  apply orb_false_iff in H. destruct H as [H1 H2].
  apply negb_false_iff in H1, H2. rewrite H1, H2. now destruct ev.
Qed.

Lemma completes_refl : forall ev, completes ev ev.
Proof. intros ev. unfold completes. now repeat split. Qed.

Lemma needsDetail_link : forall ev,
    needsDetail ev = true -> nonEmpty (enlace ev) = true.
Proof.
  intros ev H. unfold needsDetail in H. now apply andb_true_iff in H.
Qed.

Lemma enrich_completes : forall detail events k,
    Forall2 completes events (enrich detail k events).
Proof.
  intros detail. induction events as [| ev rest IH]; intros k; simpl;
    [constructor |].
  destruct (needsDetail ev) eqn:E; constructor; auto using completes_refl.
  destruct (k <? 15); [| apply completes_refl].
  destruct (detail k); [| apply completes_refl].
  apply patch_completes, needsDetail_link, E.
Qed.

(** An event that 15 events in need of a detail precede is not visited. *)
Lemma enrich_beyond : forall detail events k n ev,
    nth_error events n = Some ev ->
    15 <= k + length (filter needsDetail (firstn n events)) ->
    nth_error (enrich detail k events) n = Some ev.
Proof.
  intros detail. induction events as [| e rest IH]; intros k n ev Hn Hk;
    [now destruct n |].
  destruct n as [| n]; simpl in *.
  - injection Hn as ->. destruct (needsDetail ev); [| reflexivity].
    now rewrite (proj2 (Nat.ltb_ge k 15)) by lia.
  - destruct (needsDetail e); simpl in *.
    + apply IH; [exact Hn | lia].
    + apply IH; [exact Hn | lia].
Qed.

(** X3.  [chunkArray(arr, size)] for [size >= 1]: the loop ends within
    [arr.length + 1] tests, the chunks put one after the other give back
    [arr], every chunk has between 1 and [size] elements, every chunk but
    the last has exactly [size], and there are ceil(arr.length / size) of
    them.  With [size = 0] and a non-empty array the loop never ends. *)
Theorem chunkArray_partitions : forall (A : Type) (arr : list A) size fuel,
    1 <= size -> length arr < fuel ->
    (exists chunks,
        chunkArray fuel arr size = Some chunks /\
        concat chunks = arr /\
        Forall (fun c => 1 <= length c <= size) chunks /\
        fullButLast size chunks /\
        length chunks = (length arr + size - 1) / size) /\
    (arr <> [] -> forall fuel', chunkArray fuel' arr 0 = None).
Proof.
  intros A arr size fuel Hs Hf. split.
  - destruct (chunkLoop_spec fuel arr size 0 [] Hs) as
      (more & H1 & H2 & H3 & H4 & H5 & H6); [lia |].
    exists more. unfold chunkArray. rewrite H1. simpl in *.
    rewrite Nat.sub_0_r in *. repeat split; auto.
    apply Nat.div_unique with (r := length arr + size - 1 - size * length more);
      nia.
  - intros Hne fuel'. apply chunkLoop_size_zero.
    destruct arr; [contradiction | simpl; lia].
Qed.

(** X3, witness: seven elements in chunks of three. *)
Lemma chunkArray_partitions_witness :
  1 <= 3 /\ length [1; 2; 3; 4; 5; 6; 7]%Z < 8 /\
  chunkArray 8 [1; 2; 3; 4; 5; 6; 7]%Z 3 = Some [[1; 2; 3]; [4; 5; 6]; [7]]%Z /\
  exists chunks,
    chunkArray 8 [1; 2; 3; 4; 5; 6; 7]%Z 3 = Some chunks /\
    concat chunks = [1; 2; 3; 4; 5; 6; 7]%Z.
Proof.
  split; [lia |]. split; [simpl; lia |]. split; [reflexivity |].
  destruct (proj1 (chunkArray_partitions Z [1; 2; 3; 4; 5; 6; 7]%Z 3 8
                     ltac:(lia) ltac:(simpl; lia)))
    as (chunks & H1 & H2 & _).
  exists chunks. now split.
Defined.

(** X4.  The detail visits of [scrapeSongkick]: whatever the extracted
    events are, at most 15 events are visited, in at most 3 batches of at
    most 5 events each (so at most 5 detail pages are open at a time);
    the batches follow the order of the events, and every event visited
    has a non-empty link and lacks a date or a venue. *)
Theorem enrichment_batches : forall events,
    exists bs,
      batches 16 events = Some bs /\
      concat bs = needEnrichment events /\
      length (needEnrichment events) <= 15 /\
      length bs <= 3 /\
      Forall (fun batch => 1 <= length batch <= 5) bs /\
      Forall (Forall (fun ev => nonEmpty (enlace ev) = true /\
                                (nonEmpty (fecha ev) = false \/
                                 nonEmpty (lugar ev) = false))) bs.
Proof.
  intros events.
  assert (Hl : length (needEnrichment events) <= 15).
  { unfold needEnrichment. rewrite length_firstn. lia. }
  destruct (chunkLoop_spec 16 (needEnrichment events) 5 0 [])
    as (bs & H1 & H2 & H3 & H4 & H5 & H6); [lia | lia |].
  exists bs. unfold batches, chunkArray, concurrency.
  rewrite H1. simpl in H2. repeat split; auto; [lia |].
  assert (Hall : Forall (fun ev => nonEmpty (enlace ev) = true /\
                   (nonEmpty (fecha ev) = false \/ nonEmpty (lugar ev) = false))
                   (concat bs)).
  { rewrite H2. apply Forall_forall. intros ev Hev.
    unfold needEnrichment in Hev.
    assert (Hin : In ev (filter needsDetail events)).
    { rewrite <- (firstn_skipn 15 (filter needsDetail events)).
      apply in_or_app. now left. }
    apply filter_In in Hin. destruct Hin as [_ Hn].
    pose proof (needsDetail_link ev Hn) as Hk. split; [exact Hk |].
    unfold needsDetail in Hn. rewrite Hk in Hn. simpl in Hn.
    rewrite andb_true_r, orb_false_r in Hn. apply orb_true_iff in Hn.
    destruct Hn as [Hn | Hn]; apply negb_true_iff in Hn; auto. }
  clear - Hall. induction bs as [| b bs IH]; [constructor |].
  simpl in Hall. apply Forall_app in Hall. destruct Hall as [Hb Hbs].
  constructor; auto.
Qed.

(** X5.  What the enrichment can do to the extracted events: their number
    and order stay; no event changes its name, link, coordinates or
    distance; a date or a venue that was not empty stays; an event that
    has a date and a venue, or has no link, stays as it is; and so does
    every event with 15 or more events in need of a detail before it. *)
Theorem enrichment_only_completes : forall detail events,
    let out := enrich detail 0 events in
    length out = length events /\
    Forall2 completes events out /\
    map enlace out = map enlace events /\
    forall n ev, nth_error events n = Some ev ->
      15 <= length (filter needsDetail (firstn n events)) ->
      nth_error out n = Some ev.
Proof.
  intros detail events out. subst out.
  pose proof (enrich_completes detail events 0) as H.
  split; [symmetry; exact (Forall2_length H) |].
  split; [exact H |]. split.
  - induction H as [| ev ev' l l' Hc _ IH]; [reflexivity |].
    simpl. f_equal; [| exact IH]. now destruct Hc as (_ & He & _).
  - intros n ev Hn Hk. now apply enrich_beyond.
Qed.

End Enrichment.

(* ================================================================== *)
(** * [scrapeBookingPrices]: which search result is opened *)
(* ================================================================== *)

Module Ranking.
Import JsString Booking.

Section Ranking.
Variable toLowerCase : str -> str.
Variable hotelName : str.

(** [c] is the best result of [candidates]: no result scores higher, and
    every result before it scores lower. *)
Definition firstBest (candidates : list Card) (c : Card) : Prop :=
  exists pre post,
    candidates = pre ++ c :: post /\
    Forall (fun x => scoreOf toLowerCase hotelName x
                     < scoreOf toLowerCase hotelName c) pre /\
    Forall (fun x => scoreOf toLowerCase hotelName x
                     <= scoreOf toLowerCase hotelName c) post.

(** Every result scores below 0. *)
Definition allBelowZero (candidates : list Card) : Prop :=
  Forall (fun x => scoreOf toLowerCase hotelName x < 0) candidates.

(** What the loop over the candidates leaves in [best] and [bestScore]. *)
Lemma fold_betterCard : forall candidates best0 score0,
    (Forall (fun x => scoreOf toLowerCase hotelName x <= score0) candidates /\
     fold_left (betterCard toLowerCase hotelName) candidates (best0, score0)
     = (best0, score0)) \/
    (exists c, firstBest candidates c /\
               score0 < scoreOf toLowerCase hotelName c /\
               fold_left (betterCard toLowerCase hotelName) candidates (best0, score0)
               = (Some c, scoreOf toLowerCase hotelName c)).
Proof.
  induction candidates as [| x rest IH]; intros best0 score0.
  - left. now split.
  - cbn [fold_left]. unfold betterCard at 2 4. cbn [snd].
    destruct (score0 <? scoreOf toLowerCase hotelName x) eqn:E.
    + apply Z.ltb_lt in E. right.
      destruct (IH (Some x) (scoreOf toLowerCase hotelName x))
        as [[Hall ->] | (c & (pre & post & -> & Hpre & Hpost) & Hc & ->)].
      * exists x. split; [| now split]. exists [], rest. now repeat split.
      * exists c. split; [| split; [lia | reflexivity]].
        exists (x :: pre), post. repeat split; auto.
    + apply Z.ltb_ge in E.
      destruct (IH best0 score0)
        as [[Hall ->] | (c & (pre & post & -> & Hpre & Hpost) & Hc & ->)].
      * left. split; [constructor; auto | reflexivity].
      * right. exists c. split; [| now split].
        exists (x :: pre), post. repeat split; auto. constructor; [lia | auto].
Qed.

(** X6.  The search result [scrapeBookingPrices] opens.  When some result
    scores 0 or more, it is the link of the best-scoring result, the
    earliest one among equals.  When every result scores below 0 (a link
    that hints at another city, and fewer than three words of the name in
    the title), it is the link of the first result, whatever the scores.
    There is no link only when there are no results, or in that second
    case with an empty first link. *)
Theorem chosenHref_best_result : forall candidates,
    match chosenHref toLowerCase hotelName candidates with
    | Some href =>
        (exists c, firstBest candidates c /\
                   0 <= scoreOf toLowerCase hotelName c /\ href = card_href c) \/
        (exists c rest, candidates = c :: rest /\ href = card_href c /\
                        nonEmpty href = true /\ allBelowZero candidates)
    | None =>
        candidates = [] \/
        (exists c rest, candidates = c :: rest /\ card_href c = [] /\
                        allBelowZero candidates)
    end.
Proof.
  intros candidates. unfold chosenHref.
  destruct (fold_betterCard candidates None (-1)) as [[Hall E] | (c & Hc & Hs & E)];
    rewrite E.
  - assert (Hneg : allBelowZero candidates).
    { apply Forall_forall. intros x Hx. rewrite Forall_forall in Hall.
      specialize (Hall x Hx). simpl in Hall. lia. }
    destruct candidates as [| c rest]; [now left |].
    destruct (nonEmpty (card_href c)) eqn:En.
    + right. exists c, rest. now repeat split.
    + right. exists c, rest. repeat split; auto.
      now destruct (card_href c).
  - rewrite (proj2 (Z.leb_le 0 (scoreOf toLowerCase hotelName c))) by lia.
    left. exists c. repeat split; auto. lia.
Qed.

End Ranking.

End Ranking.

(* ================================================================== *)
(** * The records of the price extractors *)
(* ================================================================== *)

Module Labels.
Import JsString Rooms.

(** The text starts with a currency marker of the price pattern:
    [MXN\s*\$?], [$], [USD] or [EUR]; the rest of the text is returned. *)
Definition currencyAt (s : str) : option str :=
  match stripPrefix (lit "MXN") s with
  | Some r =>
      let (_, r1) := span isWhiteSpace r in
      match r1 with
      | c :: r2 => if (c =? 36)%N then Some r2 else Some r1
      | [] => Some r1
      end
  | None =>
      match stripPrefix (lit "$") s with
      | Some r => Some r
      | None =>
          match stripPrefix (lit "USD") s with
          | Some r => Some r
          | None => stripPrefix (lit "EUR") s
          end
      end
  end.

(** The whole text is a price: a currency marker, white space if any, and
    one or more of the characters [0-9 . ,]. *)
Definition isPrice (p : str) : bool :=
  match currencyAt p with
  | Some r =>
      let (_, r1) := span isWhiteSpace r in
      nonEmpty r1 && forallb isAmountChar r1
  | None => false
  end.

(** The text does not go on with an amount character. *)
Definition amountEnds (rest : str) : bool :=
  match rest with
  | [] => true
  | c :: _ => negb (isAmountChar c)
  end.

(** The white space of the text is single spaces between other
    characters; [afterSpace] tells that a space precedes the text. *)
Fixpoint spaced (afterSpace : bool) (s : str) : bool :=
  match s with
  | [] => true
  | c :: r =>
      if isWhiteSpace c
      then (c =? 32)%N && negb afterSpace && spaced true r
      else spaced false r
  end.

(** A label as the extractors leave it: not empty, white space only as
    single spaces, none at either end. *)
Definition tidy (label : str) : Prop :=
  nonEmpty label = true /\ spaced false label = true /\ trim label = label.

(** A record as the extractors leave it. *)
Definition wellFormedRoom (r : Room) : Prop :=
  tidy (room_type r) /\ isPrice (price r) = true.

(** ** Lemmas on the price pattern *)

Lemma span_spec : forall p s a b,
    span p s = (a, b) ->
    s = a ++ b /\ forallb p a = true /\
    match b with [] => True | c :: _ => p c = false end.
Proof.
  intros p. induction s as [| c r IH]; intros a b H; simpl in H.
  - injection H as <- <-. now repeat split.
  - destruct (p c) eqn:E.
    + destruct (span p r) as [a' b'] eqn:Es. injection H as <- <-.
      destruct (IH a' b' eq_refl) as (-> & H2 & H3).
      simpl. rewrite E. now repeat split.
    + injection H as <- <-. simpl. now repeat split.
Qed.

Lemma span_all : forall p a b,
    forallb p a = true ->
    match b with [] => True | c :: _ => p c = false end ->
    span p (a ++ b) = (a, b).
Proof.
  intros p. induction a as [| c a IH]; intros b Ha Hb.
  - destruct b as [| c b]; [reflexivity |]. simpl. now rewrite Hb.
  - simpl in Ha. apply andb_true_iff in Ha. destruct Ha as [Hc Ha].
    simpl. now rewrite Hc, (IH b Ha Hb).
Qed.

Lemma stripPrefix_app : forall pre s r, stripPrefix pre s = Some r -> s = pre ++ r.
Proof.
  induction pre as [| p pre IH]; intros s r H; simpl in H.
  - now injection H as ->.
  - destruct s as [| c s]; [discriminate |].
    destruct (p =? c)%N eqn:E; [| discriminate].
    apply N.eqb_eq in E. subst c. simpl. f_equal. now apply IH.
Qed.

Lemma stripPrefix_self : forall pre r, stripPrefix pre (pre ++ r) = Some r.
Proof.
  induction pre as [| p pre IH]; intros r; simpl; [reflexivity |].
  now rewrite N.eqb_refl.
Qed.

Lemma space_not_amount : forall c, isWhiteSpace c = true -> isAmountChar c = false.
Proof.
  intros c H. unfold isWhiteSpace, isAmountChar in *.
  repeat match type of H with
    | (_ || _)%bool = true => apply orb_true_iff in H; destruct H as [H | H]
    | (_ && _)%bool = true => apply andb_true_iff in H; destruct H as [? H]
    end;
    repeat match goal with
      | H : (_ =? _)%N = true |- _ => apply N.eqb_eq in H
      | H : (_ <=? _)%N = true |- _ => apply N.leb_le in H
      end;
    repeat match goal with
      | |- (_ || _)%bool = false => apply orb_false_iff; split
      | |- (_ && _)%bool = false => apply andb_false_iff
      end;
    try (apply N.eqb_neq; lia);
    try (left; apply N.leb_gt; lia); try (right; apply N.leb_gt; lia).
Qed.

(** What [\s*[\d.,]+] matches at the start of a text. *)
Lemma amountAt_spec : forall s m,
    amountAt s = Some m ->
    exists ws num rest,
      s = m ++ rest /\ m = ws ++ num /\
      forallb isWhiteSpace ws = true /\
      nonEmpty num = true /\ forallb isAmountChar num = true /\
      amountEnds rest = true.
Proof.
  intros s m H. unfold amountAt in H.
  destruct (span isWhiteSpace s) as [ws r] eqn:E1.
  destruct (span isAmountChar r) as [num rest] eqn:E2.
  destruct (span_spec _ _ _ _ E1) as (-> & Hws & _).
  destruct (span_spec _ _ _ _ E2) as (-> & Hnum & Hrest).
  destruct num as [| c num]; [discriminate |]. injection H as <-.
  exists ws, (c :: num), rest. rewrite <- app_assoc.
  repeat split; auto. unfold amountEnds. destruct rest; [reflexivity |].
  now rewrite Hrest.
Qed.

(** A white-space run followed by an amount is read back as it is. *)
Lemma span_ws_amount : forall ws num,
    forallb isWhiteSpace ws = true ->
    nonEmpty num = true -> forallb isAmountChar num = true ->
    span isWhiteSpace (ws ++ num) = (ws, num).
Proof.
  intros ws num Hws Hne Hnum. apply span_all; [exact Hws |].
  destruct num as [| c num]; [discriminate |].
  simpl in Hnum. apply andb_true_iff in Hnum. destruct Hnum as [Hc _].
  destruct (isWhiteSpace c) eqn:E; [| reflexivity].
  apply space_not_amount in E. congruence.
Qed.

Lemma isPrice_tail : forall ws num,
    forallb isWhiteSpace ws = true ->
    nonEmpty num = true -> forallb isAmountChar num = true ->
    (let (_, r1) := span isWhiteSpace (ws ++ num) in
     nonEmpty r1 && forallb isAmountChar r1) = true.
Proof.
  intros ws num Hws Hne Hnum.
  rewrite (span_ws_amount ws num Hws Hne Hnum). now rewrite Hne, Hnum.
Qed.

Lemma isPrice_MXN : forall ws dollar ws2 num,
    forallb isWhiteSpace ws = true ->
    (dollar = [36%N] \/ (dollar = [] /\ ws2 = [])) ->
    forallb isWhiteSpace ws2 = true ->
    nonEmpty num = true -> forallb isAmountChar num = true ->
    isPrice (lit "MXN" ++ ws ++ dollar ++ ws2 ++ num) = true.
Proof.
  intros ws dollar ws2 num Hws Hd Hws2 Hne Hnum.
  unfold isPrice, currencyAt. rewrite stripPrefix_self.
  destruct Hd as [-> | [-> ->]].
  - rewrite (span_all isWhiteSpace ws ([36%N] ++ ws2 ++ num) Hws eq_refl).
    simpl. now apply isPrice_tail.
  - simpl app. rewrite (span_ws_amount ws num Hws Hne Hnum).
    destruct num as [| c num]; [discriminate |].
    destruct (c =? 36)%N eqn:Ec.
    + apply N.eqb_eq in Ec. subst c. simpl in Hnum. discriminate.
    + now apply (isPrice_tail []).
Qed.

Lemma isPrice_plain : forall cur ws num,
    cur = lit "$" \/ cur = lit "USD" \/ cur = lit "EUR" ->
    forallb isWhiteSpace ws = true ->
    nonEmpty num = true -> forallb isAmountChar num = true ->
    isPrice (cur ++ ws ++ num) = true.
Proof.
  intros cur ws num [-> | [-> | ->]] Hws Hne Hnum;
    unfold isPrice, currencyAt; simpl; now apply isPrice_tail.
Qed.

(** What the price pattern matches at the start of a text is a price, and
    it takes the whole amount. *)
Lemma priceAt_spec : forall s m,
    priceAt s = Some m ->
    exists rest, s = m ++ rest /\ isPrice m = true /\ amountEnds rest = true.
Proof.
  intros s m H. unfold priceAt in H.
  destruct (stripPrefix (lit "MXN") s) as [r |] eqn:E0.
  - apply stripPrefix_app in E0. subst s.
    destruct (span isWhiteSpace r) as [ws r1] eqn:E1.
    destruct (span_spec _ _ _ _ E1) as (-> & Hws & Hr1).
    set (pick := match r1 with
                 | c :: r2 => if (c =? 36)%N then ([36%N], r2) else ([], r1)
                 | [] => ([], r1)
                 end) in H.
    assert (Hcase : r1 = fst pick ++ snd pick /\
               (fst pick = [36%N] \/
                (fst pick = [] /\ match snd pick with
                                  | c :: _ => isWhiteSpace c = false
                                  | [] => True
                                  end))).
    { subst pick. destruct r1 as [| c r2]; [now split; auto |].
      destruct (c =? 36)%N eqn:Ec.
      - apply N.eqb_eq in Ec. subst c. split; [reflexivity | now left].
      - split; [reflexivity |]. right. split; [reflexivity | exact Hr1]. }
    destruct pick as [dollar r2]. simpl in Hcase. destruct Hcase as (-> & Hd).
    destruct (amountAt r2) as [a |] eqn:Ea; [| discriminate].
    injection H as <-.
    destruct (amountAt_spec _ _ Ea)
      as (ws2 & num & rest & -> & -> & Hws2 & Hne & Hnum & Hend).
    exists rest. split; [simpl; now rewrite <- !app_assoc |].
    split; [| exact Hend].
    apply isPrice_MXN; auto.
    destruct Hd as [-> | [-> Hnd]]; [now left | right]. split; [reflexivity |].
    destruct ws2 as [| c2 ws2]; [reflexivity |].
    simpl in Hws2, Hnd. apply andb_true_iff in Hws2. destruct Hws2 as [Hc2 _].
    congruence.
  - assert (Hplain : forall cur r,
               cur = lit "$" \/ cur = lit "USD" \/ cur = lit "EUR" ->
               s = cur ++ r ->
               option_map (fun a => cur ++ a) (amountAt r) = Some m ->
               exists rest, s = m ++ rest /\ isPrice m = true /\
                            amountEnds rest = true).
    { intros cur r Hcur -> Hm.
      destruct (amountAt r) as [a |] eqn:Ea; [| discriminate].
      injection Hm as <-.
      destruct (amountAt_spec _ _ Ea)
        as (ws & num & rest & -> & -> & Hws & Hne & Hnum & Hend).
      exists rest. split; [simpl; now rewrite <- !app_assoc |].
      split; [| exact Hend]. now apply isPrice_plain. }
    destruct (stripPrefix (lit "$") s) as [r |] eqn:E1.
    { apply (Hplain (lit "$") r); auto. now apply stripPrefix_app. }
    destruct (stripPrefix (lit "USD") s) as [r |] eqn:E2.
    { apply (Hplain (lit "USD") r); auto. now apply stripPrefix_app. }
    destruct (stripPrefix (lit "EUR") s) as [r |] eqn:E3; [| discriminate].
    apply (Hplain (lit "EUR") r); auto. now apply stripPrefix_app.
Qed.

Lemma priceMatch_spec : forall s m,
    priceMatch s = Some m ->
    exists pre rest,
      s = pre ++ m ++ rest /\ isPrice m = true /\ amountEnds rest = true /\
      priceAt (m ++ rest) = Some m.
Proof.
  induction s as [| c r IH]; intros m H.
  - discriminate.
  - cbn [priceMatch] in H. destruct (priceAt (c :: r)) as [m' |] eqn:E.
    + injection H as ->. destruct (priceAt_spec _ _ E) as (rest & Hs & Hp & He).
      exists [], rest. simpl. rewrite <- Hs. now repeat split.
    + destruct (IH m H) as (pre & rest & -> & Hp & He & Ha).
      exists (c :: pre), rest. now repeat split.
Qed.

(** A price read again gives itself. *)
Lemma isPrice_priceAt : forall m, isPrice m = true -> priceAt m = Some m.
Proof.
  intros m H. unfold isPrice, currencyAt in H. unfold priceAt.
  assert (Hamount : forall r,
             (let (_, r1) := span isWhiteSpace r in
              nonEmpty r1 && forallb isAmountChar r1) = true ->
             amountAt r = Some r).
  { intros r Hr. unfold amountAt.
    destruct (span isWhiteSpace r) as [ws r1] eqn:E.
    destruct (span_spec _ _ _ _ E) as (-> & _ & _).
    apply andb_true_iff in Hr. destruct Hr as [Hne Hall].
    rewrite <- (app_nil_r r1) at 1.
    rewrite (span_all isAmountChar r1 [] Hall I).
    now destruct r1. }
  destruct (stripPrefix (lit "MXN") m) as [r |] eqn:E0.
  - apply stripPrefix_app in E0. subst m.
    destruct (span isWhiteSpace r) as [ws r1] eqn:E1.
    destruct (span_spec _ _ _ _ E1) as (-> & Hws & Hr1).
    destruct r1 as [| c r2].
    + simpl in H. discriminate.
    + destruct (c =? 36)%N eqn:Ec.
      * apply N.eqb_eq in Ec. subst c. now rewrite (Hamount r2 H).
      * rewrite (Hamount (c :: r2) H). reflexivity.
  - destruct (stripPrefix (lit "$") m) as [r |] eqn:E1.
    { apply stripPrefix_app in E1. subst m. now rewrite (Hamount r H). }
    destruct (stripPrefix (lit "USD") m) as [r |] eqn:E2.
    { apply stripPrefix_app in E2. subst m. now rewrite (Hamount r H). }
    destruct (stripPrefix (lit "EUR") m) as [r |] eqn:E3; [| discriminate].
    apply stripPrefix_app in E3. subst m. now rewrite (Hamount r H).
Qed.

Lemma isPrice_priceMatch : forall m, isPrice m = true -> priceMatch m = Some m.
Proof.
  intros m H. pose proof (isPrice_priceAt m H) as Ha.
  destruct m as [| c r]; [discriminate |].
  cbn [priceMatch]. now rewrite Ha.
Qed.

Lemma priceMatch_isPrice : forall s m, priceMatch s = Some m -> isPrice m = true.
Proof.
  intros s m H. now destruct (priceMatch_spec s m H) as (_ & _ & _ & Hp & _).
Qed.

(** ** Lemmas on the labels *)

Lemma spaced_weaken : forall s, spaced true s = true -> spaced false s = true.
Proof.
  intros [| c r] H; [reflexivity |]. simpl in *.
  destruct (isWhiteSpace c); [| exact H].
  rewrite andb_false_r in H. discriminate.
Qed.

Lemma collapseFrom_spaced : forall s inRun,
    spaced inRun (collapseFrom inRun s) = true.
Proof.
  induction s as [| c r IH]; intros inRun; simpl; [reflexivity |].
  destruct (isWhiteSpace c) eqn:E.
  - destruct inRun; [apply IH |]. simpl. now rewrite IH.
  - simpl. rewrite E. apply IH.
Qed.

Lemma spaced_fixed : forall s inRun,
    spaced inRun s = true -> collapseFrom inRun s = s.
Proof.
  induction s as [| c r IH]; intros inRun H; simpl in *; [reflexivity |].
  destruct (isWhiteSpace c) eqn:E.
  - apply andb_true_iff in H. destruct H as [H Hr].
    apply andb_true_iff in H. destruct H as [Hc Hb].
    apply N.eqb_eq in Hc. subst c. destruct inRun; [discriminate |].
    now rewrite (IH true Hr).
  - now rewrite (IH false H).
Qed.

Lemma spaced_prefix : forall a inRun b,
    spaced inRun (a ++ b) = true -> spaced inRun a = true.
Proof.
  induction a as [| c a IH]; intros inRun b H; simpl in *; [reflexivity |].
  destruct (isWhiteSpace c).
  - apply andb_true_iff in H. destruct H as [H Hr]. rewrite H.
    exact (IH true b Hr).
  - exact (IH false b H).
Qed.

Lemma spaced_suffix : forall a inRun b,
    spaced inRun (a ++ b) = true -> spaced false b = true.
Proof.
  induction a as [| c a IH]; intros inRun b H; simpl in *.
  - destruct inRun; [now apply spaced_weaken | exact H].
  - destruct (isWhiteSpace c).
    + apply andb_true_iff in H. destruct H as [_ Hr]. exact (IH true b Hr).
    + exact (IH false b H).
Qed.

(** [trim] cuts white space off both ends and nothing else. *)
Lemma trim_middle : forall s, exists a b, s = a ++ trim s ++ b.
Proof.
  intros s. destruct (trimStart_suffix s) as [a Ha].
  destruct (trimStart_suffix (rev (trimStart s))) as [b Hb].
  exists a, (rev b). unfold trim, trimEnd. rewrite <- rev_app_distr, <- Hb.
  now rewrite rev_involutive.
Qed.

Lemma spaced_trim : forall s, spaced false s = true -> spaced false (trim s) = true.
Proof.
  intros s H. destruct (trim_middle s) as (a & b & E). rewrite E in H.
  apply spaced_suffix in H. exact (spaced_prefix _ _ _ H).
Qed.

(** [tx.replace(/\s+/g, ' ').trim()] leaves single spaces only, and is
    undone by nothing: squeezing again changes nothing. *)
Lemma squeeze_spaced : forall raw, spaced false (squeeze raw) = true.
Proof. intros raw. apply spaced_trim, collapseFrom_spaced. Qed.

Lemma squeeze_idempotent : forall raw, squeeze (squeeze raw) = squeeze raw.
Proof.
  intros raw. unfold squeeze at 1. unfold collapseWs.
  rewrite (spaced_fixed _ _ (squeeze_spaced raw)). apply trim_idempotent.
Qed.

Lemma squeeze_tidy : forall raw, nonEmpty (squeeze raw) = true -> tidy (squeeze raw).
Proof.
  intros raw H. split; [exact H |]. split; [apply squeeze_spaced |].
  apply trim_idempotent.
Qed.

Lemma cleanLabel_tidy : forall raw,
    nonEmpty (cleanLabel raw) = true -> tidy (cleanLabel raw).
Proof. intros raw. apply squeeze_tidy. Qed.

(** ** Lemmas on the extractors *)

Lemma scanCells_isPrice : forall cellsRev p,
    scanCells cellsRev = Some p -> isPrice p = true.
Proof.
  induction cellsRev as [| c rest IH]; intros p H; simpl in H; [discriminate |].
  destruct (nonEmpty (trim (cell_text c))); [| now apply IH].
  destruct (priceMatch (trim (cell_text c))) as [m |] eqn:E; [| now apply IH].
  injection H as <-. exact (priceMatch_isPrice _ _ E).
Qed.

Lemma scanCellsPlain_isPrice : forall cellsRev p,
    scanCellsPlain cellsRev = Some p -> isPrice p = true.
Proof.
  induction cellsRev as [| c rest IH]; intros p H; simpl in H; [discriminate |].
  destruct (priceMatch (trim (cell_text c))) as [m |] eqn:E; [| now apply IH].
  injection H as <-. exact (priceMatch_isPrice _ _ E).
Qed.

(** The price of a row, read in its price element or in its cells. *)
Lemma priceEl_or_cells : forall (priceEl : option str) (scan : option str) p,
    (forall q, scan = Some q -> isPrice q = true) ->
    (let price := match priceEl with
                  | Some t => if nonEmpty t then priceMatch (trim t) else None
                  | None => None
                  end in
     if falsy price then scan else price) = Some p ->
    isPrice p = true.
Proof.
  intros priceEl scan p Hscan H. cbv zeta in H.
  destruct priceEl as [t |]; [| now apply Hscan].
  destruct (nonEmpty t); [| now apply Hscan].
  destruct (priceMatch (trim t)) as [[| c m] |] eqn:E; try (now apply Hscan).
  injection H as <-. exact (priceMatch_isPrice _ _ E).
Qed.

Lemma rowPrice_isPrice : forall row p, rowPrice row = Some p -> isPrice p = true.
Proof.
  intros row p H. unfold rowPrice in H.
  apply (priceEl_or_cells (row_priceEl row) (scanCells (rev (row_cells row))));
    [apply scanCells_isPrice | exact H].
Qed.

Lemma Forall_snoc : forall (A : Type) (P : A -> Prop) l x,
    Forall P l -> P x -> Forall P (l ++ [x]).
Proof. intros A P l x Hl Hx. apply Forall_app. split; [exact Hl | now constructor]. Qed.

Lemma fold_left_rooms :
  forall (A S : Type) (P : Room -> Prop) (out : S -> list Room) (body : S -> A -> S),
    (forall st a, Forall P (out st) -> Forall P (out (body st a))) ->
    forall l st, Forall P (out st) -> Forall P (out (fold_left body l st)).
Proof.
  intros A S P out body Hb. induction l as [| a l IH]; intros st Hst; simpl; auto.
Qed.

Lemma hprtRow_wellFormed : forall st row,
    Forall (fun r => wellFormedRoom r /\ longerThan3 (room_type r) = true /\
                     source r = Some HprtTable) (fst st) ->
    Forall (fun r => wellFormedRoom r /\ longerThan3 (room_type r) = true /\
                     source r = Some HprtTable) (fst (hprtRow st row)).
Proof.
  intros [out seen] row Hst. unfold hprtRow.
  destruct (row_cells row) as [| c0 [| c1 cs]]; auto.
  set (raw := match firstLabel Some (cell_names c0) with
              | Some txt => txt | None => trim (cell_text c0) end).
  destruct (nonEmpty (cleanLabel raw)) eqn:E1; simpl; auto.
  destruct (longerThan3 (cleanLabel raw)) eqn:E3; simpl; auto.
  destruct (has seen (cleanLabel raw)); auto.
  destruct (rowPrice row) as [[| c p] |] eqn:Ep; auto.
  simpl. apply Forall_snoc; [exact Hst |].
  split; [| now split]. split; [now apply cleanLabel_tidy |].
  exact (rowPrice_isPrice _ _ Ep).
Qed.

Lemma cleanedLabel_tidy : forall txt l, cleanedLabel txt = Some l -> tidy l.
Proof.
  intros txt l H. unfold cleanedLabel in H.
  destruct (nonEmpty (cleanLabel txt)) eqn:E; [| discriminate].
  destruct (longerThan3 (cleanLabel txt)); [| discriminate].
  injection H as <-. now apply cleanLabel_tidy.
Qed.

Lemma getRoomTypeNear_tidy : forall el l, getRoomTypeNear el = Some l -> tidy l.
Proof.
  intros el l H. unfold getRoomTypeNear in H.
  assert (Hx : exists txt, cleanedLabel txt = Some l).
  { destruct (firstLabel cleanedLabel (cand_near el)) eqn:E.
    - injection H as <-. exact (firstLabel_accepts _ _ _ E).
    - exact (firstLabel_accepts _ _ _ H). }
  destruct Hx as (txt & Hx). exact (cleanedLabel_tidy _ _ Hx).
Qed.

Lemma genericEl_wellFormed : forall results el,
    Forall wellFormedRoom results -> Forall wellFormedRoom (genericEl results el).
Proof.
  intros results el H. unfold genericEl.
  destruct (priceMatch (trim (cand_text el))) as [m |] eqn:Em; auto.
  destruct (getRoomTypeNear el) as [roomType |] eqn:En; auto.
  destruct (somePair results roomType m); auto.
  apply Forall_snoc; [exact H |]. split.
  - exact (getRoomTypeNear_tidy _ _ En).
  - exact (priceMatch_isPrice _ _ Em).
Qed.

Lemma nearName_squeezed : forall el name,
    nearName el = Some name -> exists txt, name = squeeze txt.
Proof.
  intros el name H. unfold nearName in H.
  assert (Hx : exists txt, Some (squeeze txt) = Some name).
  { destruct (firstLabel _ (cand_near el)) eqn:E.
    - injection H as <-. exact (firstLabel_accepts _ _ _ E).
    - exact (firstLabel_accepts _ _ _ H). }
  destruct Hx as (txt & Hx). injection Hx as <-. now exists txt.
Qed.

Lemma nearEl_wellFormed : forall st el,
    Forall wellFormedRoom (fst st) -> Forall wellFormedRoom (fst (nearEl st el)).
Proof.
  intros [out seen] el H. unfold nearEl.
  destruct (priceMatch (trim (cand_text el))) as [m |] eqn:Em; auto.
  destruct (nearName el) as [name |] eqn:En; auto.
  destruct (nonEmpty name) eqn:E1; simpl; auto.
  destruct (has seen name); auto. simpl.
  apply Forall_snoc; [exact H |].
  destruct (nearName_squeezed _ _ En) as (txt & ->). split.
  - now apply squeeze_tidy.
  - exact (priceMatch_isPrice _ _ Em).
Qed.

Lemma retryRow_wellFormed : forall st row,
    Forall wellFormedRoom (fst st) -> Forall wellFormedRoom (fst (retryRow st row)).
Proof.
  intros [out seen] row H. unfold retryRow.
  destruct (row_cells row) as [| c0 [| c1 cs]]; auto.
  destruct (nonEmpty (squeeze (trim (cell_text c0)))) eqn:E1; simpl; auto.
  destruct (has seen (squeeze (trim (cell_text c0)))); auto.
  destruct (scanCellsPlain _) as [[| c p] |] eqn:Ep; auto.
  simpl. apply Forall_snoc; [exact H |]. split.
  - now apply squeeze_tidy.
  - exact (scanCellsPlain_isPrice _ _ Ep).
Qed.

Lemma rangeRow_wellFormed : forall st row,
    Forall wellFormedRoom (fst st) -> Forall wellFormedRoom (fst (rangeRow st row)).
Proof.
  intros [out seen] row H. unfold rangeRow.
  destruct (row_cells row) as [| c0 [| c1 cs]]; auto.
  set (raw := match cell_nameAny c0 with
              | Some (c :: t) => trim (c :: t) | _ => trim (cell_text c0) end).
  destruct (nonEmpty (squeeze raw)) eqn:E1; simpl; auto.
  destruct (has seen (squeeze raw)); auto.
  match goal with |- Forall _ (fst (match ?found with _ => _ end)) =>
    destruct found as [[| c p] |] eqn:Ep end; auto.
  simpl. apply Forall_snoc; [exact H |]. split.
  - now apply squeeze_tidy.
  - exact (priceEl_or_cells (row_priceEl row) _ (c :: p)
             (scanCellsPlain_isPrice _) Ep).
Qed.

Lemma tableThenNear_wellFormed : forall rowBody dom,
    (forall st row, Forall wellFormedRoom (fst st) ->
                    Forall wellFormedRoom (fst (rowBody st row))) ->
    Forall wellFormedRoom (tableThenNear rowBody dom).
Proof.
  intros rowBody dom Hb. unfold tableThenNear.
  set (st := match hprtTable dom with
             | Some rows => fold_left rowBody rows ([], [])
             | None => ([], []) end).
  assert (Hst : Forall wellFormedRoom (fst st)).
  { subst st. destruct (hprtTable dom); [| constructor].
    apply (fold_left_rooms _ _ _ fst); [exact Hb | constructor]. }
  destruct (fst st) eqn:E.
  - apply (fold_left_rooms _ _ _ fst); [apply nearEl_wellFormed |].
    rewrite E. constructor.
  - exact Hst.
Qed.

Lemma firstPriceByType_wellFormed : forall roomData,
    Forall wellFormedRoom roomData ->
    Forall wellFormedRoom (firstPriceByType roomData).
Proof.
  intros roomData H. apply Forall_forall. intros r Hr.
  rewrite Forall_forall in H. apply H.
  exact (firstByType_incl _ _ _ Hr).
Qed.

(** X7.  The price pattern [/(MXN\s*\$?|\$|USD|EUR)\s*[\d.,]+/].  What
    [text.match(...)] returns is a piece of the text; it is a price (a
    currency marker, optional white space, then one or more of the
    characters 0-9 . ,) and takes the whole amount: the text does not go
    on with a digit, a dot or a comma.  Matching a price again gives the
    price itself. *)
Theorem priceMatch_extracts_price : forall s,
    match priceMatch s with
    | Some m =>
        (exists pre rest, s = pre ++ m ++ rest /\ amountEnds rest = true) /\
        isPrice m = true /\ nonEmpty m = true /\
        priceMatch m = Some m
    | None => True
    end.
Proof.
  intros s. destruct (priceMatch s) as [m |] eqn:E; [| exact I].
  destruct (priceMatch_spec s m E) as (pre & rest & Hs & Hp & He & _).
  split; [now exists pre, rest |]. split; [exact Hp |].
  split; [now destruct m | now apply isPrice_priceMatch].
Qed.

(** X8.  The records of the four price extractors (the table strategy and
    the generic strategy of [scrapeBookingPrices], the extractor of its
    retry loop, the extractor of [processRange]), whatever the page: the
    room type is not empty, has no white space at either end and none
    inside but single spaces, and the price is a price of the pattern.
    The records of the table strategy have a room type longer than 3
    characters and the source ['hprt-table'].  The same holds of what the
    dedupe loop keeps, hence of every room of a day entry of a multi-day
    run. *)
Theorem extracted_rooms_well_formed : forall dom,
    Forall (fun r => wellFormedRoom r /\ longerThan3 (room_type r) = true /\
                     source r = Some HprtTable) (hprtStrategy dom) /\
    Forall wellFormedRoom (genericStrategy dom) /\
    Forall wellFormedRoom (retryExtract dom) /\
    Forall wellFormedRoom (rangeExtract dom) /\
    Forall wellFormedRoom (firstPriceByType (rangeExtract dom)) /\
    forall w offset,
      Forall wellFormedRoom (rooms (MultiDates.dayResult w offset)).
Proof.
  intros dom. split; [| split; [| split; [| split; [| split]]]].
  - unfold hprtStrategy. destruct (hprtTable dom) as [rows |]; [| constructor].
    apply (fold_left_rooms _ _ _ fst); [apply hprtRow_wellFormed | constructor].
  - unfold genericStrategy.
    apply (fold_left_rooms _ _ _ (fun l => l));
      [apply genericEl_wellFormed | constructor].
  - apply tableThenNear_wellFormed, retryRow_wellFormed.
  - apply tableThenNear_wellFormed, rangeRow_wellFormed.
  - apply firstPriceByType_wellFormed, tableThenNear_wellFormed,
      rangeRow_wellFormed.
  - intros w offset. unfold MultiDates.dayResult.
    destruct (MultiDates.dv_goto (MultiDates.visit w offset));
      [destruct (MultiDates.dv_dom (MultiDates.visit w offset)) as [d |] |];
      simpl; try constructor.
    apply firstPriceByType_wellFormed, tableThenNear_wellFormed,
      rangeRow_wellFormed.
Qed.

End Labels.

(* ================================================================== *)
(** * [EventsFetcher.getAllEvents]: what the loop collects *)
(* ================================================================== *)

Module Pagination.
Import JsString Effects Ticketmaster.

Section Collected.
Variable num : Type.
Variable provider : Provider num.
Variable o : Options num.

(** The events of the [n]-th call of [getEvents]; nothing if it threw. *)
Definition received (n : nat) : list EventInfo :=
  match provider n (queryOf o) with
  | Some events => events
  | None => []
  end.

(** The pages of the calls [first], [first + 1], ..., [count] of them, one
    after the other. *)
Definition collected (first count : nat) : list EventInfo :=
  concat (map received (seq first count)).

(** How a run that issued [count] more queries from a loop head with
    [allEvents] and [issued] has settled. *)
Definition settledAs (allEvents : list EventInfo) (issued : list (Query num))
  (count : nat) (out : Outcome (list EventInfo)) : Prop :=
  match out with
  | Resolved events =>
      events = allEvents ++ collected (length issued) count /\
      forall n, (length issued <= n < length issued + count)%nat ->
                provider n (queryOf o) <> None
  | Rejected =>
      provider (length issued + count - 1)%nat (queryOf o) = None
  end.

Lemma collected_one : forall first,
    collected first 1 = received first.
Proof. intros first. unfold collected. simpl. apply app_nil_r. Qed.

Lemma collected_next : forall first count,
    collected first (S count) = received first ++ collected (S first) count.
Proof. reflexivity. Qed.

Lemma pages_collect : forall fuel page allEvents issued out issued',
    pages fuel provider o page allEvents issued = Some (out, issued') ->
    exists count,
      (1 <= count)%nat /\
      issued' = issued ++ repeat (queryOf o) count /\
      settledAs allEvents issued count out.
Proof.
  induction fuel as [| fuel IH]; intros page allEvents issued out issued' H;
    [discriminate |].
  cbn [pages] in H.
  assert (Hrec : forall events, provider (length issued) (queryOf o) = Some events ->
                 received (length issued) = events).
  { intros events E. unfold received. now rewrite E. }
  assert (Hlast : forall events,
             provider (length issued) (queryOf o) = Some events ->
             settledAs allEvents issued 1 (Resolved (allEvents ++ events))).
  { intros events E. split.
    - now rewrite collected_one, (Hrec events E).
    - intros n Hn. replace n with (length issued) by lia. congruence. }
  destruct (provider (length issued) (queryOf o)) as [events |] eqn:Ep.
  - destruct (Z.of_nat (length events) =? 0) eqn:E0.
    { injection H as <- <-. exists 1%nat. split; [lia |]. split; [reflexivity |].
      assert (events = []) as -> by (destruct events; [reflexivity | simpl in E0; lia]).
      rewrite <- (app_nil_r allEvents) at 2. now apply Hlast. }
    destruct (Z.of_nat (length events) <? pageSize).
    { injection H as <- <-. exists 1%nat. split; [lia |]. split; [reflexivity |].
      now apply Hlast. }
    destruct (50 <? page + 1).
    { injection H as <- <-. exists 1%nat. split; [lia |]. split; [reflexivity |].
      now apply Hlast. }
    destruct (IH _ _ _ _ _ H) as (count & Hc & -> & Hs).
    exists (S count). split; [lia |]. split.
    { now rewrite <- app_assoc. }
    unfold settledAs in *. rewrite !length_app in Hs. cbn [length] in Hs.
    destruct out as [evs |].
    + destruct Hs as [-> Hall]. split.
      * rewrite collected_next, (Hrec events eq_refl), <- app_assoc.
        now replace (length issued + 1)%nat with (S (length issued)) by lia.
      * intros n Hn. destruct (Nat.eq_dec n (length issued)) as [-> | Hne];
          [congruence | apply Hall; lia].
    + now replace (length issued + S count - 1)%nat
        with (length issued + 1 + count - 1)%nat by lia.
  - injection H as <- <-. exists 1%nat. split; [lia |]. split; [reflexivity |].
    unfold settledAs. now replace (length issued + 1 - 1)%nat with (length issued) by lia.
Qed.

Lemma collected_length : forall first count bound,
    (forall n, (length (received n) <= bound)%nat) ->
    (length (collected first count) <= count * bound)%nat.
Proof.
  intros first count bound Hb. revert first.
  induction count as [| count IH]; intros first; [simpl; lia |].
  rewrite collected_next, length_app. specialize (IH (S first)).
  specialize (Hb first). lia.
Qed.

End Collected.

(** X11.  What [getAllEvents] settles with, for every provider.  When it
    resolves, its array is the pages of all the calls of [getEvents] it
    made, one after the other in call order, and none of the calls threw.
    When a call throws, the function rejects at that call: the events of
    the pages before it are lost.  It makes between 1 and 51 calls, so when
    no page holds more than 200 events the array holds at most 10200. *)
Theorem getAllEvents_collects :
  forall (num : Type) (provider : Provider num) (o : Options num),
  exists out count,
    getAllEvents 52 provider o = Some (out, repeat (queryOf o) count) /\
    (1 <= count <= 51)%nat /\
    match out with
    | Resolved events =>
        events = collected num provider o 0 count /\
        (forall n, (n < count)%nat -> provider n (queryOf o) <> None) /\
        ((forall n, (length (received num provider o n) <= 200)%nat) ->
         Z.of_nat (length events) <= 10200)
    | Rejected =>
        provider (count - 1)%nat (queryOf o) = None
    end.
Proof.
  intros num provider o.
  destruct (pages_terminate 52 provider o 0 [] [])
    as (out & issued & H1 & H2 & H3 & _); [reflexivity | lia | lia |].
  cbn [length app Nat.add] in H1, H3.
  destruct (pages_collect num provider o _ _ _ _ _ _ H1) as (count & Hc & E & Hs).
  simpl in E. subst issued. rewrite repeat_length in H2, H3.
  exists out, count. split; [exact H1 |]. split; [lia |].
  unfold settledAs in Hs. simpl in Hs. destruct out as [events |]; [| exact Hs].
  destruct Hs as [-> Hall]. split; [reflexivity |]. split.
  - intros n Hn. apply Hall. lia.
  - intros Hb.
    pose proof (collected_length num provider o 0 count 200 Hb). nia.
Qed.

End Pagination.

(* ================================================================== *)
(** * [server/index.js]: running a script *)
(* ================================================================== *)

Module ChildProcess.
Import JsString.

(** What [resolve] is called with, [durationMs] included. *)
Record Result : Type := mkResult {
  code : option Z;      (** [null] when a signal ended the child *)
  stdout : str;
  stderr : str;
  durationMs : Z
}.

(** What can happen after [spawn]; [at] is what [Date.now()] reads when
    the handler runs. *)
Inductive Event : Type :=
| StdoutData (d : str)               (** [child.stdout.on('data', ...)] *)
| StderrData (d : str)               (** [child.stderr.on('data', ...)] *)
| Close (code : option Z) (at_ : Z)  (** [child.on('close', ...)] *)
| Error (message : str) (at_ : Z)    (** [child.on('error', ...)] *)
| Timer (at_ : Z).                   (** the [setTimeout] callback *)

(** The variables of the executor: [stdout], [stderr], and what the
    promise was resolved with ([finished] is set exactly then). *)
Record State : Type := mkState {
  out : str;
  err : str;
  resolved : option Result
}.

(** [const done = (result) => { if (finished) return; finished = true;
      clearTimeout(timer); resolve({ ...result, durationMs }) }] *)
Definition done (startedAt : Z) (st : State) (c : option Z) (o e : str) (at_ : Z)
  : State :=
  match resolved st with
  | Some _ => st
  | None => mkState (out st) (err st) (Some (mkResult c o e (at_ - startedAt)))
  end.

(** One handler runs. *)
Definition handle (startedAt : Z) (st : State) (ev : Event) : State :=
  match ev with
  | StdoutData d => mkState (out st ++ d) (err st) (resolved st)
  | StderrData d => mkState (out st) (err st ++ d) (resolved st)
  | Close c at_ => done startedAt st c (out st) (err st) at_
  | Error message at_ => done startedAt st (Some (-1)) (out st) message at_
  | Timer at_ =>
      done startedAt st (Some 124) (out st)
        ((if nonEmpty (err st) then err st ++ [10%N] else []) ++ lit "Timed out")
        at_
  end.

(** [runNodeScript(relPath, args, env, timeoutMs)] after the events
    [evs]: what the promise is resolved with, if it is. *)
Definition runNodeScript (startedAt : Z) (evs : list Event) : option Result :=
  resolved (fold_left (handle startedAt) evs (mkState [] [] None)).

(** The event settles the promise: the child closed, failed, or ran out of
    time. *)
Definition settling (ev : Event) : bool :=
  match ev with
  | StdoutData _ | StderrData _ => false
  | _ => true
  end.

(** The text the data events of [evs] carry on one of the two streams. *)
Fixpoint written (errStream : bool) (evs : list Event) : str :=
  match evs with
  | [] => []
  | StdoutData d :: rest => (if errStream then [] else d) ++ written errStream rest
  | StderrData d :: rest => (if errStream then d else []) ++ written errStream rest
  | _ :: rest => written errStream rest
  end.

(** The data events before the first settling event, and that event. *)
Fixpoint untilSettled (evs : list Event) : list Event * option Event :=
  match evs with
  | [] => ([], None)
  | ev :: rest =>
      if settling ev then ([], Some ev)
      else let (pre, first) := untilSettled rest in (ev :: pre, first)
  end.

(** What the first settling event [ev] makes of the text read so far. *)
Definition resultOf (startedAt : Z) (o e : str) (ev : Event) : option Result :=
  match ev with
  | Close c at_ => Some (mkResult c o e (at_ - startedAt))
  | Error message at_ => Some (mkResult (Some (-1)) o message (at_ - startedAt))
  | Timer at_ =>
      Some (mkResult (Some 124) o
              ((if nonEmpty e then e ++ [10%N] else []) ++ lit "Timed out")
              (at_ - startedAt))
  | _ => None
  end.

(** ** Lemmas *)

Lemma handle_resolved : forall startedAt ev st r,
    resolved st = Some r -> resolved (handle startedAt st ev) = Some r.
Proof.
  intros startedAt ev st r H. destruct ev; simpl; auto; unfold done;
    now rewrite H.
Qed.

Lemma fold_resolved : forall startedAt evs st r,
    resolved st = Some r ->
    resolved (fold_left (handle startedAt) evs st) = Some r.
Proof.
  intros startedAt. induction evs as [| ev evs IH]; intros st r H; simpl;
    [exact H |].
  apply IH. now apply handle_resolved.
Qed.

Lemma fold_untilSettled : forall startedAt evs st,
    resolved st = None ->
    resolved (fold_left (handle startedAt) evs st) =
      match untilSettled evs with
      | (pre, Some ev) =>
          resultOf startedAt (out st ++ written false pre)
            (err st ++ written true pre) ev
      | (_, None) => None
      end.
Proof.
  intros startedAt. induction evs as [| ev evs IH]; intros st H; [exact H |].
  cbn [fold_left untilSettled]. destruct (settling ev) eqn:Es.
  - cbn [written]. rewrite !app_nil_r.
    destruct ev; try discriminate; cbn [handle resultOf]; unfold done;
      rewrite H; now apply fold_resolved.
  - destruct ev; try discriminate; cbn [handle];
      (rewrite IH by exact H); cbn [out err];
      destruct (untilSettled evs) as [pre [first |]]; cbn [written];
      now rewrite <- ?app_assoc, ?app_nil_r.
Qed.

(** X12.  [runNodeScript] resolves its promise at the first event that
    settles the child (it closed, it failed to start, the timer fired),
    and only then.  The result is that of this first event (the exit code
    on close, -1 on failure, 124 and a last line ['Timed out'] on
    timeout), with the text received on [stdout] and [stderr] before it,
    and the time from the start to it.  Whatever comes later (more data,
    the close that follows the kill, a second error) changes nothing. *)
Theorem runNodeScript_first_event : forall startedAt evs,
    runNodeScript startedAt evs =
      match untilSettled evs with
      | (pre, Some ev) =>
          resultOf startedAt (written false pre) (written true pre) ev
      | (_, None) => None
      end /\
    (forall r later, runNodeScript startedAt evs = Some r ->
                     runNodeScript startedAt (evs ++ later) = Some r) /\
    (forall pre at_ later,
        forallb (fun ev => negb (settling ev)) pre = true ->
        exists r, runNodeScript startedAt (pre ++ Timer at_ :: later) = Some r /\
                  code r = Some 124 /\ stdout r = written false pre /\
                  exists head, stderr r = head ++ lit "Timed out").
Proof.
  intros startedAt evs. split; [| split].
  - unfold runNodeScript. now rewrite fold_untilSettled.
  - intros r later H. unfold runNodeScript in *. rewrite fold_left_app.
    now apply fold_resolved.
  - intros pre at_ later Hpre. unfold runNodeScript.
    rewrite fold_untilSettled by reflexivity.
    assert (Hu : untilSettled (pre ++ Timer at_ :: later) = (pre, Some (Timer at_))).
    { clear - Hpre. induction pre as [| ev pre IH]; [reflexivity |].
      simpl in Hpre. apply andb_true_iff in Hpre. destruct Hpre as [Hev Hpre].
      cbn [app untilSettled]. apply negb_true_iff in Hev.
      now rewrite Hev, (IH Hpre). }
    rewrite Hu. cbn [resultOf out err app].
    eexists. split; [reflexivity |]. cbn [code stdout stderr].
    repeat split. now eexists.
Qed.

End ChildProcess.

(* ================================================================== *)
(** * [server/index.js]: the routes *)
(* ================================================================== *)

Module Server.
Import JsString.

Section Server.

(** The numbers of a request body: the routes only test their type, their
    truthiness, and write them into texts. *)
Variable num : Type.

(** [String(x)] of a number. *)
Variable numToString : num -> str.

(** Truthiness of a number: false for [0], [-0] and [NaN]. *)
Variable numTruthy : num -> bool.

(** A value of a parsed JSON text; an object is the list of its own
    properties. *)
#[warnings="-register-all"]
Inductive Json : Type :=
| JNull
| JBool (b : bool)
| JNum (x : num)
| JStr (s : str)
| JArr (items : list Json)
| JObj (fields : list (str * Json)).

(** [JSON.parse(text)]; [None] when it throws. *)
Variable JSON_parse : str -> option Json.

(** [String(e?.message || e)] of the [TypeError] of a value that has no
    primitive form. *)
Variable conversionError : str.

Definition hasKey (k : str) (fields : list (str * Json)) : bool :=
  existsb (fun f => str_eqb (fst f) k) fields.

(** [obj[k]] on the own properties of a parsed object. *)
Definition lookup (k : str) (fields : list (str * Json)) : option Json :=
  option_map snd (find (fun f => str_eqb (fst f) k) fields).

(** [parts.join(',')] *)
Fixpoint joinComma (parts : list str) : str :=
  match parts with
  | [] => []
  | [p] => p
  | p :: rest => p ++ 44%N :: joinComma rest
  end.

(** [String(v)] and the text of [v] in a template literal; [None] when the
    conversion throws.  An array is joined with commas, [null] elements
    giving the empty text.  A parsed object has no callable [toString] of
    its own: if it has an own property of that name, the conversion finds
    no primitive and throws; otherwise it is ['[object Object]']. *)
Fixpoint toStr (v : Json) : option str :=
  match v with
  | JNull => Some (lit "null")
  | JBool b => Some (if b then lit "true" else lit "false")
  | JNum x => Some (numToString x)
  | JStr s => Some s
  | JArr items =>
      option_map joinComma
        ((fix each (l : list Json) : option (list str) :=
            match l with
            | [] => Some []
            | i :: rest =>
                match match i with JNull => Some [] | _ => toStr i end,
                      each rest with
                | Some a, Some b => Some (a :: b)
                | _, _ => None
                end
            end) items)
  | JObj fields =>
      if hasKey (lit "toString") fields then None
      else Some (lit "[object Object]")
  end.

(** Truthiness of a value. *)
Definition truthy (v : Json) : bool :=
  match v with
  | JNull => false
  | JBool b => b
  | JNum x => numTruthy x
  | JStr s => nonEmpty s
  | JArr _ | JObj _ => true
  end.

(** A property of the request body: [None] when it is missing, so that a
    default of the destructuring applies. *)
Definition Field : Type := option Json.

Definition truthyField (f : Field) : bool :=
  match f with Some v => truthy v | None => false end.

(** The text of a field with a default, in a template literal: the text of
    the default when the field is missing. *)
Definition textOr (default : string) (f : Field) : option str :=
  match f with
  | None => Some (lit default)
  | Some v => toStr v
  end.

(** [function parseJsonSafe(str, fallback)] on a text. *)
Definition parseJsonSafe (text : str) (fallback : Json) : Json :=
  match JSON_parse text with
  | Some v => v
  | None => fallback
  end.

(** [Array.isArray(parseJsonSafe(stdout, null)) ? parseJsonSafe(stdout, []) : []] *)
Definition dataOf (stdout : str) : list Json :=
  match parseJsonSafe stdout JNull with
  | JArr _ =>
      match parseJsonSafe stdout (JArr []) with
      | JArr items => items
      | _ => []
      end
  | _ => []
  end.

(** [Array.isArray(d?.rooms) ? d.rooms.length : 0] *)
Definition roomsOf (d : Json) : nat :=
  match d with
  | JObj fields =>
      match lookup (lit "rooms") fields with
      | Some (JArr rooms) => length rooms
      | _ => 0%nat
      end
  | _ => 0%nat
  end.

(** [data.reduce((acc, d) => acc + ..., 0)] *)
Definition countRooms (data : list Json) : nat :=
  fold_left (fun acc d => (acc + roomsOf d)%nat) data 0%nat.

(** How [await runNodeScript(...)] ends: with the result the promise is
    resolved with, or with the exception [spawn] threw in the executor. *)
Inductive Run : Type :=
| Settled (r : ChildProcess.Result)
| Threw (message : str).

(** What a route does besides answering. *)
Inductive Effect : Type :=
| RunScript (script : str) (args : list Json) (env : list (str * Json))
| Mkdir
| WriteFile (user : str) (content : Json)   (** the stop file of [user] *)
| Unlink (user : str).

(** The outside of a request: what the script run with given arguments
    does. *)
Definition Runner : Type := str -> list Json -> list (str * Json) -> Run.

(** [{ ok, output, error, code, durationMs }] of [/amadeus]. *)
Record AmadeusJson : Type := mkAmadeusJson {
  a_ok : bool;
  a_output : str;
  a_error : str;
  a_code : option Z;
  a_durationMs : Z
}.

(** The bodies the routes send. *)
Inductive Body : Type :=
| BOk                                   (** [{ ok: true }] *)
| BError (error : str)                  (** [{ ok: false, error }] *)
| BAmadeus (json : AmadeusJson)
| BUniform (ok : bool) (data : list Json) (count : nat) (code : option Z)
    (error : option str) (durationMs startedAt : Z) (note : option str)
| BFailed (error : str) (durationMs startedAt : Z).   (** a [catch] branch *)

Record Response : Type := mkResponse {
  status : Z;
  body : Body
}.

(** How a route ends: it sends a response, or the promise of its [async]
    handler is rejected and the route itself sends nothing. *)
Inductive Reply : Type :=
| Sent (r : Response)
| Unanswered.

(** [let lastAmadeusCache = { key: '', response: null }] *)
Record Cache : Type := mkCache {
  key : str;
  response : option AmadeusJson
}.

Record Env : Type := mkEnv {
  WORKER_API_KEY : option str;
  TICKETMASTER_API_KEY : option str
}.

(** The bodies of the requests, by the properties the routes read. *)
Record SelectBody : Type := mkSelectBody {
  s_userUuid : Field;
  s_hotelName : Field
}.

Record AmadeusBody : Type := mkAmadeusBody {
  am_latitude : Field;
  am_longitude : Field;
  am_radius : Field;
  am_keyword : Field;
  am_saveToDb : Field;
  am_userUuid : Field
}.

Record HotelBody : Type := mkHotelBody {
  h_userUuid : Field;
  h_hotelName : Field;
  h_days : Field;
  h_concurrency : Field;
  h_headless : Field;
  h_userJwt : Field
}.

Record GeoBody : Type := mkGeoBody {
  g_latitude : Field;
  g_longitude : Field;
  g_radius : Field
}.

Inductive Request : Type :=
| Health
| SelectHotel (b : SelectBody)
| ClearSelection (b : SelectBody)
| Amadeus (b : AmadeusBody)
| Hotel (b : HotelBody)
| Events (b : GeoBody)
| Ticketmaster (b : GeoBody).

(** The [x-api-key] middleware: the response it sends, or [None] when it
    calls [next()]. *)
Definition apiKeyCheck (env : Env) (apiKey : option str) : option Response :=
  match WORKER_API_KEY env with
  | Some (c :: k) =>
      match apiKey with
      | Some given =>
          if str_eqb given (c :: k) then None
          else Some (mkResponse 401 (BError (lit "unauthorized")))
      | None => Some (mkResponse 401 (BError (lit "unauthorized")))
      end
  | _ => Some (mkResponse 500 (BError (lit "WORKER_API_KEY missing")))
  end.

(** [res.status(code === 0 ? 200 : 500).json({ ok: code === 0, data, count,
      code, error: code === 0 ? undefined : stderr, durationMs, startedAt,
      note })] *)
Definition uniform (r : ChildProcess.Result) (count : list Json -> nat)
  (startedAt : Z) (note : option str) : Response :=
  let data := dataOf (ChildProcess.stdout r) in
  match ChildProcess.code r with
  | Some 0 =>
      mkResponse 200
        (BUniform true data (count data) (ChildProcess.code r) None
           (ChildProcess.durationMs r) startedAt note)
  | _ =>
      mkResponse 500
        (BUniform false data (count data) (ChildProcess.code r)
           (Some (ChildProcess.stderr r)) (ChildProcess.durationMs r) startedAt note)
  end.

(** [catch (e) { ...; return res.status(500).json({ ok: false,
      error: String(e?.message || e), durationMs, startedAt }) }] *)
Definition failed (message : str) (startedAt caughtAt : Z) : Response :=
  mkResponse 500 (BFailed message (caughtAt - startedAt) startedAt).

(** [app.post('/events', ...)] *)
Definition events (b : GeoBody) (run : Runner) (startedAt caughtAt : Z)
  : Reply * list Effect :=
  match g_latitude b, g_longitude b with
  | Some (JNum latitude), Some (JNum longitude) =>
      match textOr "50" (g_radius b) with
      | None => (Sent (failed conversionError startedAt caughtAt), [])
      | Some radius =>
          let args := [JStr (numToString latitude); JStr (numToString longitude);
                       JStr radius] in
          let script := lit "scripts/scrape_songkick.js" in
          (Sent match run script args [] with
                | Settled r => uniform r (@length Json) startedAt None
                | Threw message => failed message startedAt caughtAt
                end,
           [RunScript script args []])
      end
  | _, _ =>
      (Sent (mkResponse 400 (BError (lit "latitude/longitude required"))), [])
  end.

(** [app.post('/ticketmaster', ...)] *)
Definition ticketmaster (env : Env) (b : GeoBody) (run : Runner)
  (startedAt caughtAt : Z) : Reply * list Effect :=
  match g_latitude b, g_longitude b with
  | Some (JNum latitude), Some (JNum longitude) =>
      let hasKey := match TICKETMASTER_API_KEY env with
                    | Some (_ :: _) => true
                    | _ => false
                    end in
      match textOr "10" (g_radius b) with
      | None => (Sent (failed conversionError startedAt caughtAt), [])
      | Some radius =>
          let args := [JStr (numToString latitude); JStr (numToString longitude);
                       JStr radius] in
          let script := lit "scripts/scrapeo_geo.js" in
          (Sent match run script args [] with
                | Settled r =>
                    uniform r (@length Json) startedAt
                      (if hasKey then None else Some (lit "No API key"))
                | Threw message => failed message startedAt caughtAt
                end,
           [RunScript script args []])
      end
  | _, _ =>
      (Sent (mkResponse 400 (BError (lit "latitude/longitude required"))), [])
  end.

(** [app.post('/hotel', ...)] *)
Definition hotel (b : HotelBody) (run : Runner) (startedAt caughtAt : Z)
  : Reply * list Effect :=
  match h_userUuid b, h_hotelName b with
  | Some userUuid, Some hotelName =>
      if truthy userUuid && truthy hotelName then
        match textOr "1" (h_days b), textOr "3" (h_concurrency b) with
        | Some days, Some concurrency =>
            let args :=
              [userUuid; hotelName; JStr (lit "--days=" ++ days);
               JStr (lit "--concurrency=" ++ concurrency)]
              ++ (if match h_headless b with
                     | None => true
                     | Some v => truthy v
                     end
                  then [JStr (lit "--headless")] else []) in
            let env := [(lit "USER_JWT",
                         match h_userJwt b with None => JStr [] | Some v => v end)] in
            let script := lit "scripts/hotel_propio.js" in
            (Sent match run script args env with
                  | Settled r => uniform r countRooms startedAt None
                  | Threw message => failed message startedAt caughtAt
                  end,
             [RunScript script args env])
        | _, _ => (Sent (failed conversionError startedAt caughtAt), [])
        end
      else (Sent (mkResponse 400 (BError (lit "userUuid and hotelName required"))), [])
  | _, _ =>
      (Sent (mkResponse 400 (BError (lit "userUuid and hotelName required"))), [])
  end.

(** [`${latitude}|${longitude}|${radius}|${keyword || ''}`]; [None] when a
    conversion throws. *)
Definition cacheKey (latitude longitude : num) (b : AmadeusBody) : option str :=
  match textOr "30" (am_radius b),
        (if truthyField (am_keyword b) then textOr "" (am_keyword b) else Some [])
  with
  | Some radius, Some keyword =>
      Some (numToString latitude ++ lit "|" ++ numToString longitude ++ lit "|"
            ++ radius ++ lit "|" ++ keyword)
  | _, _ => None
  end.

(** The arguments [/amadeus] runs the script with; [None] when a
    conversion throws. *)
Definition amadeusArgs (latitude longitude : num) (b : AmadeusBody)
  : option (list Json) :=
  match textOr "30" (am_radius b) with
  | None => None
  | Some radius =>
      let args := [JStr (numToString latitude); JStr (numToString longitude);
                   JStr (lit "--radius=" ++ radius)] in
      match (if truthyField (am_keyword b)
             then option_map (fun k => [JStr (lit "--keyword=" ++ k)])
                    (textOr "" (am_keyword b))
             else Some []) with
      | None => None
      | Some keywordArgs =>
          match (if truthyField (am_saveToDb b) && truthyField (am_userUuid b)
                 then option_map
                        (fun u => [JStr (lit "--user-id=" ++ u); JStr (lit "--save")])
                        (textOr "" (am_userUuid b))
                 else Some []) with
          | None => None
          | Some saveArgs => Some (args ++ keywordArgs ++ saveArgs)
          end
      end
  end.

(** [app.post('/amadeus', ...)], with the cache before and after. *)
Definition amadeus (cache : Cache) (b : AmadeusBody) (run : Runner)
  : Reply * Cache * list Effect :=
  match am_latitude b, am_longitude b with
  | Some (JNum latitude), Some (JNum longitude) =>
      match cacheKey latitude longitude b with
      | None => (Unanswered, cache, [])
      | Some k =>
          let saveToDb := truthyField (am_saveToDb b) in
          match (if negb saveToDb && str_eqb (key cache) k
                 then response cache else None) with
          | Some json => (Sent (mkResponse 200 (BAmadeus json)), cache, [])
          | None =>
              match amadeusArgs latitude longitude b with
              | None => (Unanswered, cache, [])
              | Some args =>
                  let script := lit "scripts/amadeus_hotels.js" in
                  match run script args [] with
                  | Threw _ => (Unanswered, cache, [RunScript script args []])
                  | Settled r =>
                      let ok := match ChildProcess.code r with
                                | Some 0 => true
                                | _ => false
                                end in
                      let json :=
                        mkAmadeusJson ok (ChildProcess.stdout r)
                          (ChildProcess.stderr r) (ChildProcess.code r)
                          (ChildProcess.durationMs r) in
                      (Sent (mkResponse (if ok then 200 else 500) (BAmadeus json)),
                       (if saveToDb then cache else mkCache k (Some json)),
                       [RunScript script args []])
                  end
              end
          end
      end
  | _, _ =>
      (Sent (mkResponse 400 (BError (lit "latitude/longitude required"))), cache, [])
  end.

(** [app.post('/select-hotel', ...)] with [setStopForUser]: both file
    operations sit in a [try] with an empty [catch]. *)
Definition selectHotel (b : SelectBody) : Reply * list Effect :=
  if truthyField (s_userUuid b) then
    (Sent (mkResponse 200 BOk),
     Mkdir ::
     match textOr "" (s_userUuid b) with
     | Some user =>
         [WriteFile user
            (if truthyField (s_hotelName b)
             then match s_hotelName b with Some v => v | None => JStr [] end
             else JStr (lit "selected"))]
     | None => []
     end)
  else (Sent (mkResponse 400 (BError (lit "userUuid required"))), []).

(** [app.post('/clear-selection', ...)] with [clearStopForUser]. *)
Definition clearSelection (b : SelectBody) : Reply * list Effect :=
  if truthyField (s_userUuid b) then
    (Sent (mkResponse 200 BOk),
     match textOr "" (s_userUuid b) with
     | Some user => [Unlink user]
     | None => []
     end)
  else (Sent (mkResponse 400 (BError (lit "userUuid required"))), []).

(** A request through the middleware and its route. *)
Definition serve (env : Env) (cache : Cache) (apiKey : option str)
  (req : Request) (run : Runner) (startedAt caughtAt : Z)
  : Reply * Cache * list Effect :=
  match apiKeyCheck env apiKey with
  | Some r => (Sent r, cache, [])
  | None =>
      match req with
      | Health => (Sent (mkResponse 200 BOk), cache, [])
      | SelectHotel b => let (r, e) := selectHotel b in (r, cache, e)
      | ClearSelection b => let (r, e) := clearSelection b in (r, cache, e)
      | Amadeus b => amadeus cache b run
      | Hotel b => let (r, e) := hotel b run startedAt caughtAt in (r, cache, e)
      | Events b => let (r, e) := events b run startedAt caughtAt in (r, cache, e)
      | Ticketmaster b =>
          let (r, e) := ticketmaster env b run startedAt caughtAt in (r, cache, e)
      end
  end.

(** The request carries the key the server is configured with. *)
Definition authorized (env : Env) (apiKey : option str) : Prop :=
  exists k, k <> [] /\ WORKER_API_KEY env = Some k /\ apiKey = Some k.

(** The response of the three scraping routes is uniform: the status is
    200 or 500; [ok] holds exactly with status 200, and then the exit
    code is 0 and there is no [error]; with status 500 there is an [error]
    text. *)
Definition uniformResponse (r : Response) : Prop :=
  match body r with
  | BUniform ok data count code error _ _ _ =>
      (ok = true /\ status r = 200 /\ code = Some 0 /\ error = None) \/
      (ok = false /\ status r = 500 /\ code <> Some 0 /\ error <> None)
  | BFailed _ _ _ => status r = 500
  | _ => False
  end.

(** The data and the count of a uniform response. *)
Definition counted (count : list Json -> nat) (r : Response) : Prop :=
  match body r with
  | BUniform _ data n _ _ _ _ _ => n = count data
  | _ => True
  end.

(** Both coordinates of the body are numbers. *)
Definition located (b : GeoBody) : Prop :=
  exists latitude longitude,
    g_latitude b = Some (JNum latitude) /\ g_longitude b = Some (JNum longitude).

(** The body names a user and a hotel. *)
Definition named (b : HotelBody) : Prop :=
  truthyField (h_userUuid b) = true /\ truthyField (h_hotelName b) = true.

(** ** Lemmas *)

Lemma apiKeyCheck_next : forall env apiKey,
    apiKeyCheck env apiKey = None <-> authorized env apiKey.
Proof.
  intros env apiKey. unfold apiKeyCheck, authorized. split.
  - destruct (WORKER_API_KEY env) as [[| c k] |]; try discriminate.
    destruct apiKey as [given |]; [| discriminate].
    destruct (str_eqb given (c :: k)) eqn:E; [| discriminate].
    apply str_eqb_eq in E. subst given. intros _. exists (c :: k).
    repeat split. discriminate.
  - intros (k & Hk & -> & ->). destruct k as [| c k]; [contradiction |].
    now rewrite (proj2 (str_eqb_eq (c :: k) (c :: k)) eq_refl).
Qed.

Lemma uniform_is_uniform : forall r count startedAt note,
    uniformResponse (uniform r count startedAt note) /\
    counted count (uniform r count startedAt note).
Proof.
  intros r count startedAt note. unfold uniform, uniformResponse, counted.
  destruct (ChildProcess.code r) as [[| p | p] |] eqn:E; simpl; rewrite ?E;
    split; try reflexivity; try (left; now repeat split);
    right; repeat split; discriminate.
Qed.

Lemma failed_is_uniform : forall message startedAt caughtAt count,
    uniformResponse (failed message startedAt caughtAt) /\
    counted count (failed message startedAt caughtAt).
Proof. intros. now split. Qed.

Lemma events_uniform : forall b run startedAt caughtAt,
    exists r effects,
      events b run startedAt caughtAt = (Sent r, effects) /\
      (length effects <= 1)%nat /\
      (located b -> uniformResponse r /\ counted (@length Json) r) /\
      (~ located b -> status r = 400 /\ effects = []).
Proof.
  intros b run startedAt caughtAt. unfold events, located.
  destruct (g_latitude b) as [[| | latitude | | |] |];
    try (eexists; eexists; split; [reflexivity |]; split; [simpl; lia |];
         split; [intros (x & y & H1 & H2); discriminate | now intros _]).
  destruct (g_longitude b) as [[| | longitude | | |] |];
    try (eexists; eexists; split; [reflexivity |]; split; [simpl; lia |];
         split; [intros (x & y & H1 & H2); discriminate | now intros _]).
  assert (Hl : exists x y, Some (JNum latitude) = Some (JNum x) /\
                           Some (JNum longitude) = Some (JNum y))
    by (now exists latitude, longitude).
  destruct (textOr "50" (g_radius b)) as [radius |].
  - eexists; eexists; split; [reflexivity |]. split; [simpl; lia |].
    split; [intros _ | intros Hn; now destruct Hn].
    destruct (run _ _ _); [apply uniform_is_uniform | apply failed_is_uniform].
  - eexists; eexists; split; [reflexivity |]. split; [simpl; lia |].
    split; [intros _; apply failed_is_uniform | intros Hn; now destruct Hn].
Qed.

Lemma ticketmaster_uniform : forall env b run startedAt caughtAt,
    exists r effects,
      ticketmaster env b run startedAt caughtAt = (Sent r, effects) /\
      (length effects <= 1)%nat /\
      (located b -> uniformResponse r /\ counted (@length Json) r) /\
      (~ located b -> status r = 400 /\ effects = []).
Proof.
  intros env b run startedAt caughtAt. unfold ticketmaster, located.
  destruct (g_latitude b) as [[| | latitude | | |] |];
    try (eexists; eexists; split; [reflexivity |]; split; [simpl; lia |];
         split; [intros (x & y & H1 & H2); discriminate | now intros _]).
  destruct (g_longitude b) as [[| | longitude | | |] |];
    try (eexists; eexists; split; [reflexivity |]; split; [simpl; lia |];
         split; [intros (x & y & H1 & H2); discriminate | now intros _]).
  assert (Hl : exists x y, Some (JNum latitude) = Some (JNum x) /\
                           Some (JNum longitude) = Some (JNum y))
    by (now exists latitude, longitude).
  cbv zeta. destruct (textOr "10" (g_radius b)) as [radius |].
  - eexists; eexists; split; [reflexivity |]. split; [simpl; lia |].
    split; [intros _ | intros Hn; now destruct Hn].
    destruct (run _ _ _); [apply uniform_is_uniform | apply failed_is_uniform].
  - eexists; eexists; split; [reflexivity |]. split; [simpl; lia |].
    split; [intros _; apply failed_is_uniform | intros Hn; now destruct Hn].
Qed.

Lemma hotel_uniform : forall b run startedAt caughtAt,
    exists r effects,
      hotel b run startedAt caughtAt = (Sent r, effects) /\
      (length effects <= 1)%nat /\
      (named b -> uniformResponse r /\ counted countRooms r) /\
      (~ named b -> status r = 400 /\ effects = []).
Proof.
  intros b run startedAt caughtAt. unfold hotel, named.
  destruct (h_userUuid b) as [userUuid |]; simpl;
    [| eexists; eexists; split; [reflexivity |]; split; [simpl; lia |];
       split; [intros [H _]; discriminate | now intros _]].
  destruct (h_hotelName b) as [hotelName |]; simpl;
    [| eexists; eexists; split; [reflexivity |]; split; [simpl; lia |];
       split; [intros [_ H]; discriminate | now intros _]].
  destruct (truthy userUuid); simpl;
    [| eexists; eexists; split; [reflexivity |]; split; [simpl; lia |];
       split; [intros [H _]; discriminate | now intros _]].
  destruct (truthy hotelName); simpl;
    [| eexists; eexists; split; [reflexivity |]; split; [simpl; lia |];
       split; [intros [_ H]; discriminate | now intros _]].
  destruct (textOr "1" (h_days b)) as [days |];
    [destruct (textOr "3" (h_concurrency b)) as [concurrency |] |];
    eexists; eexists; (split; [reflexivity |]); (split; [simpl; lia |]);
    (split; [intros _ | intros Hn; exfalso; apply Hn; now split]);
    try apply failed_is_uniform.
  destruct (run _ _ _); [apply uniform_is_uniform | apply failed_is_uniform].
Qed.

(** X13.  No route runs anything for a request without the key.  Unless
    the server is configured with a non-empty [WORKER_API_KEY] and the
    request carries that very text in [x-api-key], a request that reaches
    the middleware is answered by it (500 when the key of the server is
    missing or empty, 401 otherwise): no script is run, no file is
    touched and the cache stays as it is; this includes [/health]. *)
Theorem requests_need_the_key :
  forall env cache apiKey req run startedAt caughtAt,
    authorized env apiKey \/
    exists r,
      serve env cache apiKey req run startedAt caughtAt = (Sent r, cache, []) /\
      match WORKER_API_KEY env with
      | Some (_ :: _) => r = mkResponse 401 (BError (lit "unauthorized"))
      | _ => r = mkResponse 500 (BError (lit "WORKER_API_KEY missing"))
      end.
Proof.
  intros env cache apiKey req run startedAt caughtAt. unfold serve.
  destruct (apiKeyCheck env apiKey) as [r |] eqn:E.
  - right. exists r. split; [reflexivity |]. unfold apiKeyCheck in E.
    destruct (WORKER_API_KEY env) as [[| c k] |];
      try (now injection E as <-).
    destruct apiKey as [given |]; [| now injection E as <-].
    destruct (str_eqb given (c :: k)); [discriminate | now injection E as <-].
  - left. now apply apiKeyCheck_next.
Qed.

(** X14.  The three scraping routes answer every request, and uniformly.
    [/events] and [/ticketmaster] with two numeric coordinates, [/hotel]
    with a user and a hotel name: the status is 200 or 500; [ok] is true
    exactly with status 200, which is exactly when the script ended with
    exit code 0, and then there is no [error]; with status 500 there is an
    [error] text; [count] is the length of [data] (for [/hotel] the number
    of rooms over its entries); at most one script is run.  This holds
    whatever the script prints, also when it is killed, times out or
    cannot be started, and when a property of the body cannot be
    written as text.  Without the coordinates or the names the status is
    400 and nothing is run. *)
Theorem scraping_routes_answer_uniformly :
  (forall b run startedAt caughtAt,
      exists r effects,
        events b run startedAt caughtAt = (Sent r, effects) /\
        (length effects <= 1)%nat /\
        (located b -> uniformResponse r /\ counted (@length Json) r) /\
        (~ located b -> status r = 400 /\ effects = [])) /\
  (forall env b run startedAt caughtAt,
      exists r effects,
        ticketmaster env b run startedAt caughtAt = (Sent r, effects) /\
        (length effects <= 1)%nat /\
        (located b -> uniformResponse r /\ counted (@length Json) r) /\
        (~ located b -> status r = 400 /\ effects = [])) /\
  (forall b run startedAt caughtAt,
      exists r effects,
        hotel b run startedAt caughtAt = (Sent r, effects) /\
        (length effects <= 1)%nat /\
        (named b -> uniformResponse r /\ counted countRooms r) /\
        (~ named b -> status r = 400 /\ effects = [])).
Proof.
  split; [exact events_uniform |].
  split; [exact ticketmaster_uniform | exact hotel_uniform].
Qed.

(** X15.  The cache of [/amadeus].  A request that does not ask to save
    and was answered (with 200 or 500) leaves its answer in the cache:
    the same request, coming next, is answered with the same body and
    status 200, and no script is run.  This includes the answer of a
    failed run: its body, with [ok: false] and the exit code, comes back
    with status 200.  A request that asks to save never reads the cache
    and never writes it. *)
Theorem amadeus_cache_round_trip : forall cache b run,
    (truthyField (am_saveToDb b) = false ->
     forall r cache' effects,
       amadeus cache b run = (Sent r, cache', effects) ->
       status r <> 400 ->
       forall run', amadeus cache' b run'
                    = (Sent (mkResponse 200 (body r)), cache', [])) /\
    (truthyField (am_saveToDb b) = true ->
     snd (fst (amadeus cache b run)) = cache /\
     forall r cache' effects,
       amadeus cache b run = (Sent r, cache', effects) ->
       status r = 400 \/ exists script args env, effects = [RunScript script args env]).
Proof.
  intros cache b run. unfold amadeus.
  destruct (am_latitude b) as [[| | latitude | | |] |];
    try (split; [intros Hs r c' e H Hst; injection H as <- _ _;
                 now contradiction Hst
                | intros Hs; split; [reflexivity |];
                  intros r c' e H; injection H as <- _ _; now left]).
  destruct (am_longitude b) as [[| | longitude | | |] |];
    try (split; [intros Hs r c' e H Hst; injection H as <- _ _;
                 now contradiction Hst
                | intros Hs; split; [reflexivity |];
                  intros r c' e H; injection H as <- _ _; now left]).
  destruct (cacheKey latitude longitude b) as [k |];
    [| split; [intros _ r c' e H; discriminate
              | intros _; split; [reflexivity | intros r c' e H; discriminate]]].
  split.
  - intros Hs. rewrite Hs. cbn [negb andb].
    destruct (str_eqb (key cache) k) eqn:Ek.
    + destruct (response cache) as [json |] eqn:Er.
      * intros r c' e H. injection H as <- <- <-. intros _ run'.
        now rewrite Ek, Er.
      * destruct (amadeusArgs latitude longitude b) as [args |];
          [| intros r c' e H; discriminate].
        destruct (run _ args []) as [res | msg];
          [| intros r c' e H; discriminate].
        intros r c' e H. injection H as <- <- <-. intros _ run'. cbn [key response].
        now rewrite (proj2 (str_eqb_eq k k) eq_refl).
    + destruct (amadeusArgs latitude longitude b) as [args |];
        [| intros r c' e H; discriminate].
      destruct (run _ args []) as [res | msg];
        [| intros r c' e H; discriminate].
      intros r c' e H. injection H as <- <- <-. intros _ run'. cbn [key response].
      now rewrite (proj2 (str_eqb_eq k k) eq_refl).
  - intros Hs. rewrite Hs. cbn [negb andb].
    destruct (amadeusArgs latitude longitude b) as [args |];
      [| split; [reflexivity | intros r c' e H; discriminate]].
    destruct (run _ args []) as [res | msg];
      [| split; [reflexivity | intros r c' e H; discriminate]].
    split; [reflexivity |].
    intros r c' e H. injection H as <- <- <-. right. now eexists; eexists; eexists.
Qed.

End Server.

End Server.

(* ================================================================== *)
(** * [scripts/hotel_propio.js]: storing the prices *)
(* ================================================================== *)

Module Persistence.
Import JsString Rooms Effects.
Import Booking (isoDay).

(** [[0-9a-f]] under the [i] flag *)
Definition isHex (c : N) : bool :=
  ((48 <=? c) && (c <=? 57) || (97 <=? c) && (c <=? 102)
   || (65 <=? c) && (c <=? 70))%N.

(** [-] *)
Definition isDash (c : N) : bool := (c =? 45)%N.

(** [[1-5]] *)
Definition isVersion (c : N) : bool := ((49 <=? c) && (c <=? 53))%N.

(** [[89ab]] under the [i] flag *)
Definition isVariant (c : N) : bool :=
  ((c =? 56) || (c =? 57) || (c =? 97) || (c =? 98) || (c =? 65) || (c =? 66))%N.

(** [/^c1 c2 ... cn$/.test(s)] for a sequence of character classes. *)
Fixpoint matches (classes : list (N -> bool)) (s : str) : bool :=
  match classes, s with
  | [], [] => true
  | p :: classes', c :: s' => p c && matches classes' s'
  | _, _ => false
  end.

(** [^[0-9a-f]{8}-[0-9a-f]{4}-[1-5][0-9a-f]{3}-[89ab][0-9a-f]{3}-[0-9a-f]{12}$] *)
Definition uuidPattern : list (N -> bool) :=
  repeat isHex 8 ++ [isDash] ++ repeat isHex 4 ++ [isDash]
  ++ [isVersion] ++ repeat isHex 3 ++ [isDash]
  ++ [isVariant] ++ repeat isHex 3 ++ [isDash] ++ repeat isHex 12.

(** [const uuidValidate = (value) => /.../i.test(String(value))] on a text. *)
Definition uuidValidate (value : str) : bool := matches uuidPattern value.

(** The row of one [upsert] into [hotel_usuario]. *)
Record Row : Type := mkRow {
  user_id : str;
  hotel_name : str;
  scrape_date : Z;     (** the UTC day of the clock at the call *)
  checkin_date : Z;
  r_room_type : str;
  r_price : str
}.

Inductive Db : Type :=
| Upsert (row : Row).

(** The outside of a call of [insertUserHotelPrices]. *)
Record World : Type := mkWorld {
  (** [supabase] is not [null]: both environment variables were set *)
  configured : bool;
  (** [new Date()] at the [k]-th upsert, in milliseconds *)
  clock : nat -> Z;
  (** the [k]-th upsert: [None] when the call throws, else whether it
      resolved with an [error] *)
  upserted : nat -> option bool
}.

Definition MD (A : Type) : Type := M Db nat A.

(** The body of the inner loop: one [await supabase.from(...).upsert(...)],
    then [if (error) { ... } else { totalInserted++ }]. *)
Definition upsertRoom (w : World) (userId hotelName : str)
  (day : DayEntry) (room : Room) (totalInserted : nat) : MD nat :=
  fun tr =>
    let k := length tr in
    let row := mkRow userId hotelName (isoDay (clock w k)) (date day)
                 (room_type room) (price room) in
    (match upserted w k with
     | Some error => Normal (if error then totalInserted else S totalInserted)
     | None => Throw
     end,
     tr ++ [Upsert row]).

(** [for (const room of day.rooms) { ... }] *)
Fixpoint forRooms (w : World) (userId hotelName : str) (day : DayEntry)
  (rs : list Room) (totalInserted : nat) : MD nat :=
  match rs with
  | [] => ret totalInserted
  | room :: rest =>
      bind (upsertRoom w userId hotelName day room totalInserted)
        (forRooms w userId hotelName day rest)
  end.

(** [for (const day of results) { ... }] *)
Fixpoint forDays (w : World) (userId hotelName : str)
  (results : list DayEntry) (totalInserted : nat) : MD nat :=
  match results with
  | [] => ret totalInserted
  | day :: rest =>
      bind (forRooms w userId hotelName day (rooms day) totalInserted)
        (forDays w userId hotelName rest)
  end.

(** [async function insertUserHotelPrices(userId, hotelName, results)]: how
    it settles, with the [totalInserted] it logs, and the upserts it made. *)
Definition insertUserHotelPrices (w : World) (userId hotelName : str)
  (results : list DayEntry) : Outcome nat * list Db :=
  if negb (configured w) then (Resolved 0%nat, [])
  else if negb (uuidValidate userId) then (Resolved 0%nat, [])
  else call (forDays w userId hotelName results 0%nat).

(** The columns of [onConflict: 'user_id,hotel_name,checkin_date,room_type']. *)
Definition conflictKey (e : Db) : str * str * Z * str :=
  match e with
  | Upsert row => (user_id row, hotel_name row, checkin_date row, r_room_type row)
  end.

(** What a row stores of a scraped room. *)
Definition stored (e : Db) : Z * str * str :=
  match e with
  | Upsert row => (checkin_date row, r_room_type row, r_price row)
  end.

(** The rooms of a result, day by day: what there is to store. *)
Definition toStore (results : list DayEntry) : list (Z * str * str) :=
  flat_map (fun day => map (fun room => (date day, room_type room, price room))
                         (rooms day)) results.

(** The upsert [k] resolved without an error. *)
Definition accepted (w : World) (k : nat) : bool :=
  match upserted w k with Some false => true | _ => false end.

(** ASCII letters swapped to the other case. *)
Definition swapCase (s : str) : str :=
  map (fun c => if (65 <=? c) && (c <=? 90) then c + 32
                else if (97 <=? c) && (c <=? 122) then c - 32 else c)%N s.

(** The row of the [k]-th upsert, for one room of one day. *)
Definition rowAt (w : World) (userId hotelName : str) (k : nat)
  (item : Z * str * str) : Db :=
  Upsert (mkRow userId hotelName (isoDay (clock w k))
            (fst (fst item)) (snd (fst item)) (snd item)).

(** The first upsert that throws among the [n] upserts from [from] on. *)
Fixpoint firstThrow (w : World) (from n : nat) : option nat :=
  match n with
  | O => None
  | S n' =>
      match upserted w from with
      | None => Some from
      | Some _ => firstThrow w (S from) n'
      end
  end.

(** The upserts for [items] one after the other, the first of them being
    upsert [k]: how the loops end, and the rows. *)
Fixpoint upserts (w : World) (userId hotelName : str) (k : nat)
  (items : list (Z * str * str)) (total : nat) : Completion nat nat * list Db :=
  match items with
  | [] => (Normal total, [])
  | item :: rest =>
      match upserted w k with
      | Some error =>
          let (c, rows) := upserts w userId hotelName (S k) rest
                             (if error then total else S total) in
          (c, rowAt w userId hotelName k item :: rows)
      | None => (Throw, [rowAt w userId hotelName k item])
      end
  end.

(** The user and the hotel of a row. *)
Definition owner (e : Db) : str * str :=
  match e with
  | Upsert row => (user_id row, hotel_name row)
  end.

(** A hotel page whose pricing table lists two room types. *)
Definition pricedDom : Dom :=
  mkDom
    (Some [ Rooms.mkRow [mkCell (lit "Deluxe Room") [] None;
                   mkCell (lit "MXN 1,200") [] None] None;
            Rooms.mkRow [mkCell (lit "Suite Familiar") [] None;
                   mkCell (lit "MXN 2,500") [] None] None ])
    [].

(** Every call fulfils, and every day shows that table. *)
Definition pricedWorld : MultiDates.World :=
  MultiDates.mkWorld 0 true true true
    (Some (Some (lit "https://www.booking.com/hotel/mx/a.html")))
    true (fun _ => true) (fun _ => true)
    (fun _ => MultiDates.mkVisit true (Some pricedDom)).

(** ** Lemmas on [uuidValidate] *)

Lemma matches_length : forall classes s,
    matches classes s = true -> length s = length classes.
Proof.
  induction classes as [| p classes IH]; intros [| c s] H; simpl in H;
    try discriminate; [reflexivity |].
  apply andb_true_iff in H. destruct H as [_ H]. simpl. f_equal. now apply IH.
Qed.

Lemma matches_nth : forall classes s,
    matches classes s = true ->
    forall i, (i < length classes)%nat ->
      nth i classes (fun _ => false) (nth i s 0%N) = true.
Proof.
  induction classes as [| p classes IH]; intros [| c s] H i Hi; simpl in H;
    try discriminate; [simpl in Hi; lia |].
  apply andb_true_iff in H. destruct H as [Hc H].
  destruct i as [| i]; [exact Hc |]. simpl. apply IH; [exact H |].
  simpl in Hi. lia.
Qed.

Lemma matches_ext : forall classes (f : N -> N) s,
    Forall (fun p => forall c, p (f c) = p c) classes ->
    matches classes (map f s) = matches classes s.
Proof.
  induction classes as [| p classes IH]; intros f [| c s] H; simpl; try reflexivity.
  inversion H as [| ? ? Hp Hrest]; subst. now rewrite Hp, IH.
Qed.

Lemma swap_class : forall p,
    In p [isHex; isDash; isVersion; isVariant] ->
    forall c, p (if (65 <=? c) && (c <=? 90) then c + 32
                 else if (97 <=? c) && (c <=? 122) then c - 32 else c)%N = p c.
Proof.
  intros p Hp c.
  destruct Hp as [<- | [<- | [<- | [<- | []]]]];
    unfold isHex, isDash, isVersion, isVariant;
    destruct (N.leb_spec 65 c), (N.leb_spec c 90), (N.leb_spec 97 c),
      (N.leb_spec c 122); cbn [andb]; try lia; try reflexivity;
    repeat match goal with
      | |- context [(?a <=? ?b)%N] => destruct (N.leb_spec a b); try lia
      | |- context [(?a =? ?b)%N] => destruct (N.eqb_spec a b); try lia
      end; reflexivity.
Qed.

(** ** Lemmas on the loops *)

Lemma forRooms_cons : forall w userId hotelName day room rest total tr,
    forRooms w userId hotelName day (room :: rest) total tr =
      let row := rowAt w userId hotelName (length tr)
                   (date day, room_type room, price room) in
      match upserted w (length tr) with
      | Some error =>
          forRooms w userId hotelName day rest
            (if error then total else S total) (tr ++ [row])
      | None => (Throw, tr ++ [row])
      end.
Proof.
  intros. cbn [forRooms]. unfold bind, upsertRoom.
  now destruct (upserted w (length tr)).
Qed.

Lemma forRooms_upserts : forall w userId hotelName day rs total tr,
    forRooms w userId hotelName day rs total tr =
      let u := upserts w userId hotelName (length tr)
                 (map (fun room => (date day, room_type room, price room)) rs)
                 total in
      (fst u, tr ++ snd u).
Proof.
  intros w userId hotelName day. induction rs as [| room rest IH];
    intros total tr; cbv zeta.
  - simpl. now rewrite app_nil_r.
  - rewrite forRooms_cons. cbv zeta. cbn [map upserts].
    destruct (upserted w (length tr)) as [error |]; [| reflexivity].
    rewrite IH. cbv zeta. rewrite length_app. cbn [length].
    replace (length tr + 1)%nat with (S (length tr)) by lia.
    destruct (upserts w userId hotelName (S (length tr)) _ _) as [c rows].
    cbn [fst snd]. now rewrite <- app_assoc.
Qed.

Lemma upserts_length : forall w userId hotelName items k total t,
    fst (upserts w userId hotelName k items total) = Normal t ->
    length (snd (upserts w userId hotelName k items total)) = length items.
Proof.
  intros w userId hotelName. induction items as [| item rest IH];
    intros k total t H; [reflexivity |].
  cbn [upserts] in *. destruct (upserted w k) as [error |]; [| discriminate].
  specialize (IH (S k) (if error then total else S total) t).
  destruct (upserts w userId hotelName (S k) rest _) as [c rows].
  cbn [fst snd] in *. cbn [length]. f_equal. now apply IH.
Qed.

Lemma upserts_app : forall w userId hotelName a b k total,
    upserts w userId hotelName k (a ++ b) total =
      match upserts w userId hotelName k a total with
      | (Normal t, rows) =>
          let u := upserts w userId hotelName (k + length a) b t in
          (fst u, rows ++ snd u)
      | other => other
      end.
Proof.
  intros w userId hotelName a b. induction a as [| item rest IH]; intros k total.
  - cbn [app upserts length]. rewrite Nat.add_0_r.
    now destruct (upserts w userId hotelName k b total).
  - cbn [app upserts length]. destruct (upserted w k) as [error |]; [| reflexivity].
    rewrite IH. replace (k + S (length rest))%nat with (S k + length rest)%nat by lia.
    destruct (upserts w userId hotelName (S k) rest _) as [[t | t |] rows];
      reflexivity.
Qed.

Lemma upserts_not_return : forall w userId hotelName items k total r,
    fst (upserts w userId hotelName k items total) <> Return r.
Proof.
  intros w userId hotelName. induction items as [| item rest IH];
    intros k total r; [discriminate |].
  cbn [upserts]. destruct (upserted w k) as [error |]; [| discriminate].
  specialize (IH (S k) (if error then total else S total) r).
  now destruct (upserts w userId hotelName (S k) rest _).
Qed.

Lemma forDays_upserts : forall w userId hotelName results total tr,
    forDays w userId hotelName results total tr =
      let u := upserts w userId hotelName (length tr) (toStore results) total in
      (fst u, tr ++ snd u).
Proof.
  intros w userId hotelName. induction results as [| day rest IH];
    intros total tr; cbv zeta.
  - simpl. now rewrite app_nil_r.
  - cbn [forDays]. unfold bind. rewrite forRooms_upserts. cbv zeta.
    unfold toStore. cbn [flat_map]. rewrite upserts_app.
    pose proof (upserts_length w userId hotelName
                  (map (fun room => (date day, room_type room, price room)) (rooms day))
                  (length tr) total) as Hlen.
    pose proof (upserts_not_return w userId hotelName
                  (map (fun room => (date day, room_type room, price room)) (rooms day))
                  (length tr) total) as Hret.
    destruct (upserts w userId hotelName (length tr) _ total) as [[t | t |] rows];
      cbn [fst snd] in *.
    + rewrite IH. cbv zeta. rewrite length_app, (Hlen t eq_refl).
      fold (toStore rest). now rewrite app_assoc.
    + now contradiction (Hret t).
    + reflexivity.
Qed.

Lemma stored_rowAt : forall w userId hotelName k item,
    stored (rowAt w userId hotelName k item) = item.
Proof. intros w userId hotelName k [[d t] p]. reflexivity. Qed.

(** The rows of a run of upserts are those of the items up to the first
    upsert that throws; the count is that of the upserts without error. *)
Lemma upserts_spec : forall w userId hotelName items k total,
    Forall (fun e => owner e = (userId, hotelName))
      (snd (upserts w userId hotelName k items total)) /\
    match firstThrow w k (length items) with
    | None =>
        fst (upserts w userId hotelName k items total) =
          Normal (total + length (filter (accepted w) (seq k (length items))))%nat /\
        map stored (snd (upserts w userId hotelName k items total)) = items
    | Some j =>
        (k <= j)%nat /\
        fst (upserts w userId hotelName k items total) = Throw /\
        map stored (snd (upserts w userId hotelName k items total)) =
          firstn (S (j - k)) items
    end.
Proof.
  intros w userId hotelName. induction items as [| item rest IH]; intros k total.
  - cbn. split; [constructor |]. split; [f_equal; lia | reflexivity].
  - cbn [upserts length firstThrow seq filter]. unfold accepted at 1.
    destruct (upserted w k) as [error |].
    + specialize (IH (S k) (if error then total else S total)).
      destruct (upserts w userId hotelName (S k) rest _) as [c rows].
      cbn [fst snd] in *. destruct IH as [Hown IH].
      split; [constructor; [reflexivity | exact Hown] |].
      destruct (firstThrow w (S k) (length rest)) as [j |].
      * destruct IH as (Hj & -> & E). split; [lia |]. split; [reflexivity |].
        cbn [map]. rewrite stored_rowAt, E.
        replace (j - k)%nat with (S (j - S k)) by lia. reflexivity.
      * destruct IH as [-> E]. split.
        -- f_equal. destruct error; cbn [length]; lia.
        -- cbn [map]. now rewrite stored_rowAt, E.
    + cbn [fst snd]. split; [now repeat constructor |].
      split; [lia |]. split; [reflexivity |].
      rewrite Nat.sub_diag. cbn [map firstn]. now rewrite stored_rowAt.
Qed.

Lemma NoDup_firstn : forall (A : Type) n (l : list A), NoDup l -> NoDup (firstn n l).
Proof.
  intros A n l H. rewrite <- (firstn_skipn n l) in H.
  exact (NoDup_app_remove_r _ _ H).
Qed.

Lemma matches_iff : forall classes s,
    matches classes s = true <->
    length s = length classes /\
    forall i, (i < length classes)%nat ->
      nth i classes (fun _ => false) (nth i s 0%N) = true.
Proof.
  intros classes s. split.
  - intros H. split; [now apply matches_length | now apply matches_nth].
  - revert s. induction classes as [| p classes IH]; intros [| c s] [Hl Hn];
      try discriminate; [reflexivity |].
    simpl. apply andb_true_iff. split.
    + apply (Hn 0%nat). simpl. lia.
    + apply IH. split; [simpl in Hl; lia |].
      intros i Hi. apply (Hn (S i)). simpl. lia.
Qed.

Lemma version_is_hex : forall c, isVersion c = true -> isHex c = true.
Proof.
  intros c. unfold isVersion, isHex.
  destruct (N.leb_spec 49 c), (N.leb_spec c 53); try discriminate. intros _.
  destruct (N.leb_spec 48 c), (N.leb_spec c 57); first [reflexivity | lia].
Qed.

Lemma variant_is_hex : forall c, isVariant c = true -> isHex c = true.
Proof.
  intros c H. unfold isVariant in H. rewrite !orb_true_iff, !N.eqb_eq in H.
  destruct H as [[[[[-> | ->] | ->] | ->] | ->] | ->]; reflexivity.
Qed.

Lemma NoDup_map_injective : forall (A B : Type) (f : A -> B) l,
    (forall x y, f x = f y -> x = y) -> NoDup l -> NoDup (map f l).
Proof.
  intros A B f l Hf H. induction H as [| x l Hx H IH]; simpl; constructor; auto.
  intros Hin. apply in_map_iff in Hin. destruct Hin as (y & E & Hy).
  apply Hf in E. now subst y.
Qed.

(** The rows of a call are those of an initial part of what there is to
    store, all for the given user and hotel. *)
Lemma insertUserHotelPrices_rows : forall w userId hotelName results,
    exists n,
      map stored (snd (insertUserHotelPrices w userId hotelName results)) =
        firstn n (toStore results) /\
      Forall (fun e => owner e = (userId, hotelName))
        (snd (insertUserHotelPrices w userId hotelName results)).
Proof.
  intros w userId hotelName results. unfold insertUserHotelPrices.
  destruct (configured w); cbn [negb]; [| now exists 0%nat].
  destruct (uuidValidate userId); cbn [negb]; [| now exists 0%nat].
  unfold call. rewrite forDays_upserts. cbv zeta. cbn [length app].
  destruct (upserts_spec w userId hotelName (toStore results) 0 0) as [Hown H].
  destruct (upserts w userId hotelName 0 (toStore results) 0) as [c rows].
  cbn [fst snd] in *.
  assert (Hrows : exists n, map stored rows = firstn n (toStore results)).
  { destruct (firstThrow w 0 (length (toStore results))) as [j |].
    - destruct H as (_ & _ & E). now exists (S (j - 0)).
    - destruct H as [_ E]. exists (length (toStore results)).
      now rewrite firstn_all. }
  destruct Hrows as [n Hn]. exists n. now destruct c.
Qed.

(** X16.  The ids [uuidValidate] accepts are exactly the texts of 36
    characters with a hyphen at the positions 8, 13, 18 and 23, a digit
    from 1 to 5 at position 14, one of 8, 9, a, b (in either case) at
    position 19, and hexadecimal digits everywhere else; whether a text is
    accepted does not depend on the case of its letters. *)
Theorem uuidValidate_accepts : forall value,
    (uuidValidate value = true <->
     length value = 36%nat /\
     (forall i, In i [8; 13; 18; 23]%nat -> nth i value 0%N = 45%N) /\
     isVersion (nth 14 value 0%N) = true /\
     isVariant (nth 19 value 0%N) = true /\
     (forall i, (i < 36)%nat -> ~ In i [8; 13; 18; 23]%nat ->
                isHex (nth i value 0%N) = true)) /\
    uuidValidate (swapCase value) = uuidValidate value.
Proof.
  intros value. split.
  - unfold uuidValidate. rewrite matches_iff.
    change (length uuidPattern) with 36%nat. split.
    + intros [Hl Hn]. split; [exact Hl |]. split; [| split; [| split]].
      * intros i Hi. apply N.eqb_eq. fold (isDash (nth i value 0%N)).
        destruct Hi as [<- | [<- | [<- | [<- | []]]]];
          [apply (Hn 8%nat) | apply (Hn 13%nat) | apply (Hn 18%nat)
           | apply (Hn 23%nat)]; lia.
      * apply (Hn 14%nat). lia.
      * apply (Hn 19%nat). lia.
      * intros i Hi Hnot. specialize (Hn i Hi).
        do 36 (destruct i as [| i];
               [first [exact Hn | now apply version_is_hex
                      | now apply variant_is_hex
                      | exfalso; apply Hnot; simpl; tauto] |]).
        lia.
    + intros (Hl & Hd & Hv & Hr & Hx). split; [exact Hl |].
      intros i Hi.
      do 36 (destruct i as [| i];
             [first [exact Hv | exact Hr
                    | apply N.eqb_eq; apply Hd; simpl; tauto
                    | apply Hx; [lia | simpl; lia] ] |]).
      lia.
  - unfold uuidValidate, swapCase. apply matches_ext.
    repeat constructor; apply swap_class; simpl; tauto.
Qed.

(** X17.  What [insertUserHotelPrices] writes.  Without a Supabase client
    or with a user id that is not a UUID it writes nothing and resolves.
    Otherwise it upserts one row per room, day by day in the order of the
    array, each under the given user and hotel with the date, room type
    and price of the room; a day without rooms adds no row.  An upsert
    that answers with an error is skipped and the loop goes on, the count
    it logs being that of the upserts without error; an upsert that throws
    rejects the call, the rows after it being never sent. *)
Theorem insertUserHotelPrices_stores : forall w userId hotelName results,
    (configured w = false \/ uuidValidate userId = false ->
     insertUserHotelPrices w userId hotelName results = (Resolved 0%nat, [])) /\
    (configured w = true /\ uuidValidate userId = true ->
     Forall (fun e => owner e = (userId, hotelName))
       (snd (insertUserHotelPrices w userId hotelName results)) /\
     match firstThrow w 0 (length (toStore results)) with
     | None =>
         fst (insertUserHotelPrices w userId hotelName results) =
           Resolved (length (filter (accepted w)
                               (seq 0 (length (toStore results))))) /\
         map stored (snd (insertUserHotelPrices w userId hotelName results)) =
           toStore results
     | Some k =>
         fst (insertUserHotelPrices w userId hotelName results) = Rejected /\
         map stored (snd (insertUserHotelPrices w userId hotelName results)) =
           firstn (S k) (toStore results)
     end).
Proof.
  intros w userId hotelName results. unfold insertUserHotelPrices. split.
  - intros [-> | Hu]; [reflexivity |]. rewrite Hu. now destruct (configured w).
  - intros [-> ->]. cbn [negb]. unfold call. rewrite forDays_upserts.
    cbv zeta. cbn [length app].
    destruct (upserts_spec w userId hotelName (toStore results) 0 0) as [Hown H].
    destruct (upserts w userId hotelName 0 (toStore results) 0) as [c rows].
    cbn [fst snd] in *.
    destruct (firstThrow w 0 (length (toStore results))) as [j |].
    + destruct H as (_ & -> & E). rewrite Nat.sub_0_r in E. now repeat split.
    + destruct H as [-> E]. now repeat split.
Qed.

(** X18.  Scraping, then storing: for every array one of the two scrapers
    resolves with, no two upserts of [insertUserHotelPrices] carry the
    same conflict key (user, hotel, check-in date, room type).  So within
    a run no row overwrites another: each scraped room is a row of its
    own. *)
Theorem scraped_rooms_are_separate_rows : forall db userId hotelName out,
    (exists toLowerCase w,
        fst (Booking.scrapeBookingPrices toLowerCase hotelName w) = Resolved out) \/
    (exists w days concurrency,
        MultiDates.settlesWith w days concurrency (Resolved out)) ->
    NoDup (map conflictKey
             (snd (insertUserHotelPrices db userId hotelName out))).
Proof.
  intros db userId hotelName out Hout.
  assert (Hkeys : NoDup (naturalKeys out)).
  { destruct Hout as [(lower & w & H) | (w & days & c & H)].
    - exact (proj1 (Booking.scrapeBookingPrices_keys lower hotelName w out H)).
    - exact (proj1 (MultiDates.settlesWith_keys w days c out H)). }
  destruct (insertUserHotelPrices_rows db userId hotelName out) as (n & E & Hown).
  set (rows := snd (insertUserHotelPrices db userId hotelName out)) in *.
  assert (Hk : map conflictKey rows =
               map (fun k : Z * str => (userId, hotelName, fst k, snd k))
                 (map fst (map stored rows))).
  { clear E. induction Hown as [| e rows He Hown IH]; [reflexivity |].
    cbn [map]. rewrite <- IH. f_equal. destruct e as [row].
    simpl in *. now injection He as -> ->. }
  rewrite Hk. apply NoDup_map_injective.
  - intros [d t] [d' t'] Heq. simpl in Heq. congruence.
  - rewrite E. rewrite <- firstn_map. apply NoDup_firstn.
    replace (map fst (toStore out)) with (naturalKeys out); [exact Hkeys |].
    unfold naturalKeys, toStore. clear. induction out as [| e out IH];
      [reflexivity |].
    cbn [flat_map]. rewrite map_app, map_map, IH. reflexivity.
Qed.

Lemma scraped_rooms_are_separate_rows_witness :
  let out := MultiDates.results
               (MultiDates.runSchedule pricedWorld
                  MultiDates.lastBlockFirst (MultiDates.started 33 5)) in
  let sent := snd (insertUserHotelPrices
                     (mkWorld true (fun _ => 0) (fun _ => Some false))
                     (lit "fdf47d6e-8d96-4374-9651-64f42bbe6488")
                     (lit "Hilton Mexico City") out) in
  MultiDates.settlesWith pricedWorld 33 5 (Resolved out) /\
  length sent = 66%nat /\
  firstn 2 (map stored sent) =
    [ (31, lit "Deluxe Room", lit "MXN 1,200");
      (31, lit "Suite Familiar", lit "MXN 2,500") ] /\
  NoDup (map conflictKey sent).
Proof.
  intros out sent.
  assert (H : MultiDates.settlesWith pricedWorld 33 5 (Resolved out)).
  { apply (MultiDates.settle_joined _ _ _ (snd (MultiDates.setup pricedWorld [])));
      [reflexivity | apply MultiDates.runSchedule_steps | vm_compute; reflexivity]. }
  split; [exact H |]. split; [vm_compute; reflexivity |].
  split; [vm_compute; reflexivity |].
  apply scraped_rooms_are_separate_rows. right.
  exists pricedWorld, 33, 5. exact H.
Defined.

End Persistence.
